(** * Weighted blending (improver/weighted_blend.py)

    A shallow embedding of the percentile blending kernel
    [PercentileBlendingAggregator], of the whole-dimension blend
    [WeightedBlendAcrossWholeDimension] and of the sliding-window blend
    [TriangularWeightedBlendAcrossAdjacentPoints], together with the
    parts of numpy and iris they call.

    Numbers: the program computes with IEEE doubles; the embedding
    computes with exact rationals ([Q]), so every statement below is a
    statement about the algorithm in exact arithmetic (no rounding, no
    NaN, no infinities).  Equality of numbers is [Qeq].  The percentile
    blend is embedded a second time with binary64 numbers, in
    [Binary64], to show where rounding to an infinity makes the program
    differ from the algorithm. *)

From Stdlib Require Import String.
From Stdlib Require Import QArith Qminmax ZArith List Lia Lqa Bool.
From Stdlib Require Import Sorting.Sorted Sorting.Permutation.
From Corelib Require PrimFloat.
Import ListNotations.

Open Scope nat_scope.

(** [length] is the length of a list throughout. *)
Abbreviation length := Datatypes.length (only parsing).

(** ** Exceptions *)

(** The messages of the [ValueError]s raised by the program and by the
    library calls it makes. *)
Inductive message : Type :=
| MsgPercentileNotDimension   (* 'The percentile coord must be a dimension of the cube.' *)
| MsgPercentileTooFewPoints   (* 'Percentile coordinate does not have enough points ...' *)
| MsgSeveralPercentileCoords  (* 'There should only be one percentile coord on the cube.' *)
| MsgWeightsShape             (* 'The weights array must match the shape of the coordinate ...' *)
| MsgInterpEmpty              (* numpy: 'array of sample points is empty' *)
| MsgInterpLength             (* numpy: 'fp and xp are not of the same length.' *)
| MsgBroadcast                (* numpy: 'operands could not be broadcast together ...' *)
| MsgReshape                  (* numpy: 'cannot reshape array of size ... into shape ...' *)
| MsgRepeatedAxis             (* numpy: 'repeated axis in `source` argument' *)
| MsgMoveaxisLength           (* numpy: '`source` and `destination` arguments must have the same number of elements' *)
| MsgGuessBoundsLength        (* iris: 'Cannot guess bounds for a coordinate of length 1.' *)
| MsgHasBounds                (* iris: 'Coord already has bounds. Remove the bounds before guessing new ones.' *)
| MsgNotMonotonic             (* iris: 'Need monotonic points to generate bounds for ...' *)
| MsgPointsShape              (* iris: 'New points shape must match existing points shape.' *)
| MsgCubeDataShape            (* iris: 'Require cube data with shape ..., got ...' *)
| MsgBroadcastToShape         (* iris: 'shape and array are not compatible' *)
| MsgAverageShape             (* numpy: 'Length of weights not compatible with specified axis.' *)
| MsgEmptyReduction           (* numpy: 'zero-size array to reduction operation minimum which has no identity' *)
| MsgUnpack.                  (* Python: 'need more than 0 values to unpack', 'too many values to unpack' *)

Inductive exn : Type :=
| ValueError (m : message)
| IndexError
| AxisError
| ZeroDivisionError
| CoordinateNotFoundError
| CoordinateCollapseError
| CoordinateMultiDimError.

(** A computation that returns or raises. *)
Inductive res (A : Type) : Type :=
| Ok (a : A)
| Raise (e : exn).

Arguments Ok {A} a.
Arguments Raise {A} e.

Definition bind {A B : Type} (c : res A) (k : A -> res B) : res B :=
  match c with
  | Ok a => k a
  | Raise e => Raise e
  end.

Declare Scope res_scope.
Delimit Scope res_scope with res.
Notation "x <- c ;; k" := (bind c (fun x => k))
  (at level 61, c at next level, right associativity) : res_scope.

Local Open Scope res_scope.

(** [mapM f l]: run [f] on the elements of [l] from left to right, stop
    at the first exception. *)
Fixpoint mapM {A B : Type} (f : A -> res B) (l : list A) : res (list B) :=
  match l with
  | [] => Ok []
  | a :: l' => b <- f a ;; bs <- mapM f l' ;; Ok (b :: bs)
  end.

(** Python's [range(n)]. *)
Definition range (n : nat) : list nat := seq 0 n.

(** ** Lists by position *)

(** The position of the first element of [l] that satisfies [p]. *)
Fixpoint position_where {A : Type} (p : A -> bool) (l : list A) : nat :=
  match l with
  | [] => 0
  | a :: l' => if p a then 0 else S (position_where p l')
  end.

(** [l] with [x] at position [k]. *)
Fixpoint replace_nth {A : Type} (k : nat) (x : A) (l : list A) : list A :=
  match l, k with
  | [], _ => []
  | _ :: l', O => x :: l'
  | y :: l', S k' => y :: replace_nth k' x l'
  end.

(** [l] with [k] put in at position [axis], and [l] without the element
    at position [axis]. *)
Definition insert_at (axis k : nat) (idx : list nat) : list nat :=
  firstn axis idx ++ k :: skipn axis idx.

Definition remove_at {A : Type} (axis : nat) (l : list A) : list A :=
  firstn axis l ++ skipn (S axis) l.

(** ** numpy on one-dimensional arrays *)

Module Np.

Local Open Scope Q_scope.

Definition Qltb (x y : Q) : bool := negb (Qle_bool y x).

(** [arr[i]] for a C index [i]. *)
Definition at_ (arr : list Q) (i : Z) : Q := nth (Z.to_nat i) arr 0.

Definition len (arr : list Q) : Z := Z.of_nat (length arr).

(** [np.sort] of a one-dimensional array: ascending. *)
Fixpoint insert_sorted (x : Q) (l : list Q) : list Q :=
  match l with
  | [] => [x]
  | y :: l' => if Qle_bool x y then x :: l else y :: insert_sorted x l'
  end.

Fixpoint sort (l : list Q) : list Q :=
  match l with
  | [] => []
  | x :: l' => insert_sorted x (sort l')
  end.

(** [ndarray.flatten()] of a two-dimensional array held as its rows. *)
Definition flatten (m : list (list Q)) : list Q := concat m.

(** *** [np.interp]

    numpy's [arr_interp] (compiled_base.c) with its index search
    [binary_search_with_guess]. *)

(** [for (i = i0; i < len && key >= arr[i]; i++); return i - 1;] *)
Fixpoint linear_scan (key : Q) (rest : list Q) (i : Z) : Z :=
  match rest with
  | [] => (i - 1)%Z
  | a :: rest' =>
      if Qle_bool a key then linear_scan key rest' (i + 1)%Z else (i - 1)%Z
  end.

Definition linear_search (key : Q) (arr : list Q) (i0 : Z) : Z :=
  linear_scan key (skipn (Z.to_nat i0) arr) i0.

(** [while (imin < imax) { imid = imin + ((imax - imin) >> 1);
       if (key >= arr[imid]) imin = imid + 1; else imax = imid; }
     return imin - 1;]
    Every turn shrinks [imax - imin]; [fuel] bounds the number of turns. *)
Fixpoint bisect (fuel : nat) (key : Q) (arr : list Q) (imin imax : Z) : Z :=
  match fuel with
  | O => (imin - 1)%Z
  | S fuel' =>
      if (imin <? imax)%Z then
        let imid := (imin + Z.shiftr (imax - imin) 1)%Z in
        if Qle_bool (at_ arr imid) key
        then bisect fuel' key arr (imid + 1)%Z imax
        else bisect fuel' key arr imin imid
      else (imin - 1)%Z
  end.

Definition LIKELY_IN_CACHE_SIZE : Z := 8.

Definition binary_search_with_guess (key : Q) (arr : list Q) (guess : Z) : Z :=
  let n := len arr in
  if Qltb (at_ arr (n - 1)) key then n
  else if Qltb key (at_ arr 0) then (-1)%Z
  else if (n <=? 4)%Z then linear_search key arr 1
  else
    let guess := if (guess >? n - 3)%Z then (n - 3)%Z else guess in
    let guess := if (guess <? 1)%Z then 1%Z else guess in
    let run := bisect (S (length arr)) key arr in
    if Qltb key (at_ arr guess) then
      if Qltb key (at_ arr (guess - 1)) then
        let imax := (guess - 1)%Z in
        if (guess >? LIKELY_IN_CACHE_SIZE)%Z
           && Qle_bool (at_ arr (guess - LIKELY_IN_CACHE_SIZE)) key
        then run (guess - LIKELY_IN_CACHE_SIZE)%Z imax
        else run 0%Z imax
      else (guess - 1)%Z
    else if Qltb key (at_ arr (guess + 1)) then guess
    else if Qltb key (at_ arr (guess + 2)) then (guess + 1)%Z
    else
      let imin := (guess + 2)%Z in
      if (guess <? n - LIKELY_IN_CACHE_SIZE - 1)%Z
         && Qltb key (at_ arr (guess + LIKELY_IN_CACHE_SIZE))
      then run imin (guess + LIKELY_IN_CACHE_SIZE)%Z
      else run imin n.

(** The value at one query point, given the index [j] found for it. *)
Definition interp_at (xp fp : list Q) (x_val : Q) (j : Z) : Q :=
  let lenxp := len xp in
  if (j =? -1)%Z then at_ fp 0
  else if (j =? lenxp)%Z then at_ fp (lenxp - 1)
  else if (j =? lenxp - 1)%Z then at_ fp j
  else
    let slope := (at_ fp (j + 1) - at_ fp j) / (at_ xp (j + 1) - at_ xp j) in
    slope * (x_val - at_ xp j) + at_ fp j.

(** The loop over the query points; the index found for one point is the
    guess for the next. *)
Fixpoint interp_loop (xp fp : list Q) (xs : list Q) (j : Z) : list Q :=
  match xs with
  | [] => []
  | x_val :: xs' =>
      let j' := binary_search_with_guess x_val xp j in
      interp_at xp fp x_val j' :: interp_loop xp fp xs' j'
  end.

Definition interp (x xp fp : list Q) : res (list Q) :=
  if (len xp =? 0)%Z then Raise (ValueError MsgInterpEmpty)
  else if negb (len fp =? len xp)%Z then Raise (ValueError MsgInterpLength)
  else
    let lval := at_ fp 0 in
    let rval := at_ fp (len xp - 1) in
    if (len xp =? 1)%Z then
      let xp_val := at_ xp 0 in
      let fp_val := at_ fp 0 in
      Ok (map (fun x_val =>
                 if Qltb x_val xp_val then lval
                 else if Qltb xp_val x_val then rval else fp_val) x)
    else Ok (interp_loop xp fp x 0).

(** [a += b] on one-dimensional arrays, [b] broadcast when it has one
    element. *)
Definition iadd (a b : list Q) : res (list Q) :=
  if (length b =? length a)%nat then Ok (map (fun p => fst p + snd p) (combine a b))
  else match b with
       | [b0] => Ok (map (fun x => x + b0) a)
       | _ => Raise (ValueError MsgBroadcast)
       end.

(** [v * s] for a scalar [s]. *)
Definition scale (v : list Q) (s : Q) : list Q := map (fun x => x * s) v.

(** [np.zeros(n)]. *)
Definition zeros (n : nat) : list Q := repeat 0 n.

End Np.

(** ** numpy on n-dimensional arrays *)

Module Nd.

(** An array: its shape and its elements in row-major (C) order. *)
Record ndarray : Type := mk_ndarray { shape : list nat; data : list Q }.

Definition ndim (a : ndarray) : nat := length (shape a).

(** [np.prod(shape, dtype=int)]; the number of elements of an array of
    that shape. *)
Definition prod (sh : list nat) : nat := fold_right Nat.mul 1%nat sh.

(** Arrays as numpy builds them: as many elements as the shape says. *)
Definition wf (a : ndarray) : Prop := length (data a) = prod (shape a).

(** The offset of the element at index [idx] and the index at an offset. *)
Fixpoint ravel (sh idx : list nat) : nat :=
  match sh, idx with
  | _ :: sh', i :: idx' => i * prod sh' + ravel sh' idx'
  | _, _ => 0
  end.

Fixpoint unravel (sh : list nat) (k : nat) : list nat :=
  match sh with
  | [] => []
  | _ :: sh' => (k / prod sh') :: unravel sh' (k mod prod sh')
  end.

(** [idx] is an index into an array of shape [sh]. *)
Definition valid_index (sh idx : list nat) : Prop := Forall2 lt idx sh.

(** [a[idx]] for a full index. *)
Definition get (a : ndarray) (idx : list nat) : Q :=
  nth (ravel (shape a) idx) (data a) 0%Q.

(** The array of shape [sh] whose element at [idx] is [f idx]. *)
Definition tabulate (sh : list nat) (f : list nat -> Q) : ndarray :=
  mk_ndarray sh (map (fun k => f (unravel sh k)) (range (prod sh))).

(** [np.zeros(shape)]. *)
Definition zeros (sh : list nat) : ndarray := tabulate sh (fun _ => 0%Q).

(** The position of [d] in [axes] (the length of [axes] when it is not
    there). *)
Fixpoint position (d : nat) (axes : list nat) : nat :=
  match axes with
  | [] => 0
  | a :: axes' => if (a =? d)%nat then 0 else S (position d axes')
  end.

(** [a.transpose(axes)] for a permutation [axes] of [range(a.ndim)]:
    axis [i] of the result is axis [axes[i]] of [a]. *)
Definition transpose (a : ndarray) (axes : list nat) : ndarray :=
  tabulate (map (fun ax => nth ax (shape a) 0%nat) axes)
           (fun idx => get a (map (fun d => nth (position d axes) idx 0%nat)
                                  (range (ndim a)))).

(** [a.reshape(newshape)]. *)
Definition reshape (a : ndarray) (newshape : list nat) : res ndarray :=
  if (prod newshape =? prod (shape a))%nat
  then Ok (mk_ndarray newshape (data a))
  else Raise (ValueError MsgReshape).

(** [normalize_axis_index(axis, ndim)]. *)
Definition normalize_axis_index (axis : Z) (nd : nat) : res nat :=
  if ((- Z.of_nat nd <=? axis) && (axis <? Z.of_nat nd))%Z
  then Ok (Z.to_nat (if (axis <? 0)%Z then axis + Z.of_nat nd else axis))
  else Raise AxisError.

Fixpoint has_duplicates (l : list nat) : bool :=
  match l with
  | [] => false
  | x :: l' => existsb (Nat.eqb x) l' || has_duplicates l'
  end.

(** [normalize_axis_tuple(axes, ndim)]. *)
Definition normalize_axis_tuple (axes : list Z) (nd : nat) : res (list nat) :=
  l <- mapM (fun ax => normalize_axis_index ax nd) axes ;;
  if has_duplicates l then Raise (ValueError MsgRepeatedAxis) else Ok l.

(** Python's [sorted] on a list of pairs of integers. *)
Definition pair_leb (p r : nat * nat) : bool :=
  (fst p <? fst r)%nat || ((fst p =? fst r)%nat && (snd p <=? snd r)%nat).

Fixpoint insert_pair (p : nat * nat) (l : list (nat * nat)) : list (nat * nat) :=
  match l with
  | [] => [p]
  | r :: l' => if pair_leb p r then p :: l else r :: insert_pair p l'
  end.

Fixpoint sorted_pairs (l : list (nat * nat)) : list (nat * nat) :=
  match l with
  | [] => []
  | p :: l' => insert_pair p (sorted_pairs l')
  end.

(** Python's [list.insert(i, x)] for [i >= 0]. *)
Definition list_insert (l : list nat) (i x : nat) : list nat :=
  firstn i l ++ x :: skipn i l.

(** [np.moveaxis(a, source, destination)]:
    [order = [n for n in range(a.ndim) if n not in source]
     for dest, src in sorted(zip(destination, source)):
         order.insert(dest, src)
     result = transpose(order)] *)
Definition moveaxis_order (nd : nat) (source destination : list nat) : list nat :=
  let order :=
    filter (fun n => negb (existsb (Nat.eqb n) source)) (range nd) in
  fold_left (fun order p => list_insert order (fst p) (snd p))
            (sorted_pairs (combine destination source)) order.

Definition moveaxis (a : ndarray) (source destination : list Z) : res ndarray :=
  src <- normalize_axis_tuple source (ndim a) ;;
  dst <- normalize_axis_tuple destination (ndim a) ;;
  if negb (length src =? length dst)%nat
  then Raise (ValueError MsgMoveaxisLength)
  else Ok (transpose a (moveaxis_order (ndim a) src dst)).

(** [data[:, :, i]] of a three-dimensional array, as its rows. *)
Definition slice_last (a : ndarray) (i : nat) : list (list Q) :=
  map (fun s => map (fun l => get a [s; l; i]) (range (nth 1 (shape a) 0%nat)))
      (range (nth 0 (shape a) 0%nat)).

(** [result[:, i] = col] on a two-dimensional array; [col] is broadcast
    when it has one element. *)
Definition set_column (result : ndarray) (i : nat) (col : list Q) : res ndarray :=
  let rows := nth 0 (shape result) 0%nat in
  let put (f : nat -> Q) :=
    tabulate (shape result)
             (fun idx => if (nth 1 idx 0 =? i)%nat then f (nth 0 idx 0%nat)
                         else get result idx) in
  if (length col =? rows)%nat then Ok (put (fun l => nth l col 0%Q))
  else match col with
       | [c] => Ok (put (fun _ => c))
       | _ => Raise (ValueError MsgBroadcast)
       end.

End Nd.

(** ** PercentileBlendingAggregator *)

Module PercentileBlendingAggregator.

Local Open Scope Q_scope.

(** *** PercentileBlendingAggregator.blend_percentiles *)

(** [weights[j]] for [j >= 0]. *)
Definition weight_at (weights : list Q) (j : nat) : res Q :=
  match nth_error weights j with
  | Some w => Ok w
  | None => Raise IndexError
  end.

(** The body of the inner loop, for one [i] and one [j]: the new value of
    [combined_pdf[i]]. *)
Definition blend_step (perc_values : list (list Q)) (percentiles weights : list Q)
    (i : nat) (acc : list Q) (j : nat) : res (list Q) :=
  recalc_values_in_pdf <-
    (if (i =? j)%nat then Ok percentiles
     else Np.interp (nth i perc_values []) (nth j perc_values []) percentiles) ;;
  w <- weight_at weights j ;;
  Np.iadd acc (Np.scale recalc_values_in_pdf w).

(** [for j in range(0, num)] for one [i], from the row of zeros. *)
Fixpoint blend_row (perc_values : list (list Q)) (percentiles weights : list Q)
    (i : nat) (acc : list Q) (js : list nat) : res (list Q) :=
  match js with
  | [] => Ok acc
  | j :: js' =>
      acc' <- blend_step perc_values percentiles weights i acc j ;;
      blend_row perc_values percentiles weights i acc' js'
  end.

(** [perc_values] is a two-dimensional array held as the list of its
    rows, all of one length. *)
Definition blend_percentiles (perc_values : list (list Q))
    (percentiles weights : list Q) : res (list Q) :=
  let num := length perc_values in
  combined_pdf <-
    mapM (fun i => blend_row perc_values percentiles weights i
                     (Np.zeros (length percentiles)) (range num))
         (range num) ;;
  let combined_perc_thres_data := Np.sort (Np.flatten perc_values) in
  let combined_perc_values := Np.sort (Np.flatten combined_pdf) in
  Np.interp percentiles combined_perc_values combined_perc_thres_data.

(** *** PercentileBlendingAggregator.aggregate *)

(** The loop [for i in range(data.shape[-1]): result[:, i] = ...]. *)
Fixpoint aggregate_loop (data : Nd.ndarray) (arr_percent arr_weights : list Q)
    (result : Nd.ndarray) (ixs : list nat) : res Nd.ndarray :=
  match ixs with
  | [] => Ok result
  | i :: ixs' =>
      col <- blend_percentiles (Nd.slice_last data i) arr_percent arr_weights ;;
      result' <- Nd.set_column result i col ;;
      aggregate_loop data arr_percent arr_weights result' ixs'
  end.

Definition aggregate (data : Nd.ndarray) (axis : Z)
    (arr_percent arr_weights : list Q) (perc_dim : Z) : res Nd.ndarray :=
  let axis := if (axis <? 0)%Z then (axis + Z.of_nat (Nd.ndim data))%Z else axis in
  data <- Nd.moveaxis data [perc_dim; axis] [1%Z; 0%Z] ;;
  let shape := skipn 2 (Nd.shape data) in
  let input_shape := [nth 0 (Nd.shape data) 0%nat;
                      nth 1 (Nd.shape data) 0%nat;
                      Nd.prod shape] in
  data <- Nd.reshape data input_shape ;;
  let result := Nd.zeros (skipn 1 input_shape) in
  result <- aggregate_loop data arr_percent arr_weights result
              (range (last (Nd.shape data) 0%nat)) ;;
  let shape := length arr_percent :: shape in
  result <- Nd.reshape result shape ;;
  if (axis <? perc_dim)%Z
  then Nd.moveaxis result [0%Z] [(perc_dim - 1)%Z]
  else Nd.moveaxis result [0%Z] [perc_dim].

End PercentileBlendingAggregator.


(** ** The iris cube

    The part of iris the program uses, for cubes whose coordinates are
    one-dimensional: a coordinate is a scalar coordinate (it spans no
    data dimension) or spans one data dimension. *)

Module iris_cube.

Local Open Scope Q_scope.

Record Coord : Type := mk_coord {
  name : String.string;
  points : list Q;
  bounds : option (list (Q * Q)) }.

(** The data and, in the order of [cube.coords()], the coordinates with
    the data dimensions they span ([cube.coord_dims]). *)
Record Cube : Type := mk_cube {
  data : Nd.ndarray;
  coords_and_dims : list (Coord * list nat) }.

Definition shape (cube : Cube) : list nat := Nd.shape (data cube).

Definition coords (cube : Cube) : list Coord := map fst (coords_and_dims cube).

Definition named (nm : String.string) (cd : Coord * list nat) : bool :=
  String.eqb (name (fst cd)) nm.

(** [cube.coord(name)] finds exactly one coordinate or raises. *)
Definition lookup (cube : Cube) (nm : String.string) : res (Coord * list nat) :=
  match filter (named nm) (coords_and_dims cube) with
  | [cd] => Ok cd
  | _ => Raise CoordinateNotFoundError
  end.

Definition coord (cube : Cube) (nm : String.string) : res Coord :=
  cd <- lookup cube nm ;; Ok (fst cd).

Definition coord_dims (cube : Cube) (nm : String.string) : res (list nat) :=
  cd <- lookup cube nm ;; Ok (snd cd).

Definition same_dims (a b : list nat) : bool :=
  if list_eq_dec Nat.eq_dec a b then true else false.

(** [cube.coords(dimensions=dims)]. *)
Definition coords_on (cube : Cube) (dims : list nat) : list Coord :=
  map fst (filter (fun cd => same_dims (snd cd) dims) (coords_and_dims cube)).

(** Python's [str.find]. *)
Definition find (s sub : String.string) : Z :=
  match String.index 0 sub s with
  | Some i => Z.of_nat i
  | None => (-1)%Z
  end.

(** *** Coordinates *)

Definition minimum (l : list Q) : res Q :=
  match l with
  | [] => Raise (ValueError MsgEmptyReduction)
  | x :: l' => Ok (fold_left Qmin l' x)
  end.

Definition maximum (l : list Q) : res Q :=
  match l with
  | [] => Raise (ValueError MsgEmptyReduction)
  | x :: l' => Ok (fold_left Qmax l' x)
  end.

(** [Coord.collapsed()]: one point, the middle of the range of the bounds
    (of the points when there are no bounds), with that range as bounds.
    iris casts the point to the type of the coordinate's points (the
    middle 3/2 of integer points is 1 there); the embedding has one type
    of number, and the point is the middle itself. *)
Definition coord_collapsed (c : Coord) : res Coord :=
  let item := match bounds c with
              | Some b => flat_map (fun p => [fst p; snd p]) b
              | None => points c
              end in
  lower <- minimum item ;;
  upper <- maximum item ;;
  Ok (mk_coord (name c) [(lower + upper) * (1 # 2)] (Some [(lower, upper)])).

Fixpoint diff (l : list Q) : list Q :=
  match l with
  | x :: ((y :: _) as l') => (y - x) :: diff l'
  | _ => []
  end.

(** [iris.util.monotonic(array, strict=True)] for an array of two or
    more elements: all the steps upwards or all the steps downwards, and
    none of them zero. *)
Definition monotonic (l : list Q) : bool :=
  forallb (fun d => Np.Qltb 0 d) (diff l) || forallb (fun d => Np.Qltb d 0) (diff l).

(** [Coord.is_monotonic()]: a coordinate of one point is monotonic; any
    other is when its points are strictly monotonic and, if it has
    bounds, its lower bounds and its upper bounds are too. *)
Definition is_monotonic (c : Coord) : bool :=
  if (length (points c) =? 1)%nat then true
  else monotonic (points c)
       && match bounds c with
          | Some b => monotonic (map fst b) && monotonic (map snd b)
          | None => true
          end.

(** [Coord.guess_bounds()] with [bound_position = 0.5]: the coordinate
    with the bounds it is given. *)
Definition guess_bounds (c : Coord) : res Coord :=
  if negb (is_monotonic c) then Raise (ValueError MsgNotMonotonic)
  else if (length (points c) <? 2)%nat then Raise (ValueError MsgGuessBoundsLength)
  else match bounds c with
       | Some _ => Raise (ValueError MsgHasBounds)
       | None =>
           let diffs := diff (points c) in
           let before := hd 0 diffs :: diffs in
           let after := diffs ++ [last diffs 0] in
           let min_bounds := map (fun p => fst p - snd p * (1 # 2)) (combine (points c) before) in
           let max_bounds := map (fun p => fst p + snd p * (1 # 2)) (combine (points c) after) in
           Ok (mk_coord (name c) (points c) (Some (combine min_bounds max_bounds)))
       end.

(** The [points] setter. *)
Definition set_points (c : Coord) (pts : list Q) : res Coord :=
  if (length pts =? length (points c))%nat
  then Ok (mk_coord (name c) pts (bounds c))
  else Raise (ValueError MsgPointsShape).

Definition with_coord (cube : Cube) (k : nat) (c : Coord) : Cube :=
  mk_cube (data cube)
          (replace_nth k (c, snd (nth k (coords_and_dims cube) (c, []))) (coords_and_dims cube)).

(** *** Reductions *)

Fixpoint sum (l : list Q) : Q :=
  match l with
  | [] => 0
  | x :: l' => x + sum l'
  end.

(** [np.ma.average(a, axis, weights)] for weights of the shape of [a] or
    none.  A zero sum of weights (numpy: a masked or non-finite value)
    has no counterpart in exact arithmetic and raises. *)
Definition average (a : Nd.ndarray) (axis : Z) (weights : option Nd.ndarray)
  : res Nd.ndarray :=
  ax <- Nd.normalize_axis_index axis (Nd.ndim a) ;;
  let n := nth ax (Nd.shape a) 0%nat in
  let wgt idx := match weights with
                 | Some w => Nd.get w idx
                 | None => 1
                 end in
  if match weights with
     | Some w => negb (same_dims (Nd.shape w) (Nd.shape a))
     | None => false
     end
  then Raise (ValueError MsgAverageShape)
  else
    let out := remove_at ax (Nd.shape a) in
    let scl idx := sum (map (fun k => wgt (insert_at ax k idx)) (range n)) in
    if existsb (fun k => Qeq_bool (scl (Nd.unravel out k)) 0) (range (Nd.prod out))
    then Raise ZeroDivisionError
    else Ok (Nd.tabulate out (fun idx =>
           sum (map (fun k => Nd.get a (insert_at ax k idx) * wgt (insert_at ax k idx))
                    (range n)) / scl idx)).

(** [iris.analysis.Aggregator(name, call_func)] with the keyword
    arguments of the call applied, and [iris.analysis.MEAN] with its
    weights. *)
Inductive aggregator : Type :=
| Aggregator (call_func : Nd.ndarray -> Z -> res Nd.ndarray)
| MEAN (weights : option Nd.ndarray).

(** [iris.util.broadcast_to_shape(array, shape, dim_map)] for a
    one-dimensional array. *)
Definition broadcast_to_shape (array : list Q) (sh : list nat) (dim_map : list nat)
  : res Nd.ndarray :=
  match dim_map with
  | [d] =>
      if (nth d sh 0 =? length array)%nat
      then Ok (Nd.tabulate sh (fun idx => nth (nth d idx 0%nat) array 0))
      else Raise (ValueError MsgBroadcastToShape)
  | _ => Raise (ValueError MsgBroadcastToShape)
  end.

(** The dimensions a coordinate spans once dimension [d] is gone. *)
Definition drop_dim (d : nat) (dims : list nat) : list nat :=
  map (fun x => if (d <? x)%nat then pred x else x)
      (filter (fun x => negb (x =? d)%nat) dims).

(** [cube.collapsed(coord, aggregator, **kwargs)]: the data are transposed
    so that the collapsed dimension is the last one, the aggregator is
    called with [axis=-1], and every coordinate on the collapsed
    dimension is collapsed.  The result is a new cube.  Its coordinates
    are held here in the order of the input's; the order in which iris
    lists them (a collapsed dimension coordinate becomes a scalar
    coordinate, listed after the dimension coordinates) is not kept
    track of. *)
Definition collapsed (cube : Cube) (nm : String.string) (agg : aggregator) : res Cube :=
  dims_to_collapse <- coord_dims cube nm ;;
  match dims_to_collapse with
  | [] => Raise CoordinateCollapseError
  | [d] =>
      new_coords <-
        mapM (fun cd : Coord * list nat =>
                if existsb (Nat.eqb d) (snd cd)
                then c <- coord_collapsed (fst cd) ;; Ok (c, drop_dim d (snd cd))
                else Ok (fst cd, drop_dim d (snd cd)))
             (coords_and_dims cube) ;;
      let untouched_dims := filter (fun x => negb (x =? d)%nat) (range (Nd.ndim (data cube))) in
      let dims := untouched_dims ++ [d] in
      let unrolled_data := Nd.transpose (data cube) dims in
      data_result <-
        match agg with
        | Aggregator call_func => call_func unrolled_data (-1)%Z
        | MEAN weights =>
            average unrolled_data (-1)%Z
                    (option_map (fun w => Nd.transpose w dims) weights)
        end ;;
      if same_dims (Nd.shape data_result) (remove_at d (shape cube))
      then Ok (mk_cube data_result new_coords)
      else Raise (ValueError MsgCubeDataShape)
  | _ => Raise CoordinateMultiDimError
  end.

(** [cube[..., k, ...]] with [k] at dimension [d]: a new cube. *)
Definition index_coord (d k : nat) (cd : Coord * list nat) : Coord * list nat :=
  if existsb (Nat.eqb d) (snd cd)
  then (mk_coord (name (fst cd))
                 [nth k (points (fst cd)) 0]
                 (option_map (fun b => [nth k b (0, 0)]) (bounds (fst cd))),
        drop_dim d (snd cd))
  else (fst cd, drop_dim d (snd cd)).

Definition index_cube (cube : Cube) (d k : nat) : Cube :=
  mk_cube (Nd.tabulate (remove_at d (shape cube))
                       (fun idx => Nd.get (data cube) (insert_at d k idx)))
          (map (index_coord d k) (coords_and_dims cube)).

(** The number of cubes [cube.slices_over(coord)] yields and the [k]-th
    of them. *)
Definition slices_over_count (cube : Cube) (nm : String.string) : res nat :=
  dims <- coord_dims cube nm ;;
  match dims with
  | [] => Ok 1%nat
  | [d] => Ok (nth d (shape cube) 0%nat)
  | _ => Raise CoordinateMultiDimError
  end.

Definition slice_over (cube : Cube) (nm : String.string) (k : nat) : res Cube :=
  dims <- coord_dims cube nm ;;
  match dims with
  | [] => Ok cube
  | [d] => Ok (index_cube cube d k)
  | _ => Raise CoordinateMultiDimError
  end.

End iris_cube.

(** ** Objects shared between caller and callee

    [process] is handed the caller's cube, and what it returns is that
    very object or a cube it has built.  A run is described by the state
    of the caller's cube after it, the warnings issued, and the value
    returned or the exception raised. *)

Inductive cube_ref : Type :=
| TheInput                               (* the object the caller passed *)
| Fresh (c : iris_cube.Cube).            (* an object built during the call *)

Inductive warning : Type :=
| ScalarCoordWarning.  (* 'Trying to blend across a scalar coordinate with only one value. Returning original cube' *)

Record outcome (A : Type) : Type := mk_outcome {
  input_after : iris_cube.Cube;
  warned : list warning;
  returned : res A }.

Arguments mk_outcome {A} input_after warned returned.
Arguments input_after {A} o.
Arguments warned {A} o.
Arguments returned {A} o.

(** The cube a reference stands for, given the state of the caller's
    cube. *)
Definition deref (input : iris_cube.Cube) (r : cube_ref) : iris_cube.Cube :=
  match r with
  | TheInput => input
  | Fresh c => c
  end.

(** Writing the coordinate at position [k] of [r.coords()]. *)
Definition write_coord (input : iris_cube.Cube) (r : cube_ref) (k : nat)
    (c : iris_cube.Coord) : iris_cube.Cube * cube_ref :=
  match r with
  | TheInput => (iris_cube.with_coord input k c, TheInput)
  | Fresh cube => (input, Fresh (iris_cube.with_coord cube k c))
  end.

(** ** WeightedBlendAcrossWholeDimension *)

Module WeightedBlendAcrossWholeDimension.

Import iris_cube.

Record plugin : Type := mk_plugin {
  coord : String.string;
  coord_adjust : option (list Q -> list Q) }.

(** The scan for percentile coordinates: how many there are and the last
    one found. *)
Definition scan_percentile (cube : Cube) : nat * option Coord :=
  fold_left (fun st c =>
               if (find (name c) "percentile"%string >=? 0)%Z
               then (S (fst st), Some c) else st)
            (coords cube) (0, None).

Definition check_percentile (cube : Cube) : res (option Coord) :=
  let (perc_found, perc_coord) := scan_percentile cube in
  if perc_found =? 1 then
    match perc_coord with
    | Some pc =>
        perc_dim <- coord_dims cube (name pc) ;;
        match perc_dim with
        | [] => Raise (ValueError MsgPercentileNotDimension)
        | _ =>
            if length (points pc) <? 2
            then Raise (ValueError MsgPercentileTooFewPoints)
            else Ok perc_coord
        end
    | None => Ok perc_coord
    end
  else if 1 <? perc_found then Raise (ValueError MsgSeveralPercentileCoords)
  else Ok perc_coord.

Definition check_weights (self : plugin) (cube : Cube) (weights : option (list Q))
  : res unit :=
  match weights with
  | Some w =>
      c <- iris_cube.coord cube (coord self) ;;
      if negb (length w =? length (points c))
      then Raise (ValueError MsgWeightsShape)
      else Ok tt
  | None => Ok tt
  end.

(** [np.ones(num) / float(num)]. *)
Definition equal_weights (num : nat) : list Q :=
  repeat (1 / inject_Z (Z.of_nat num))%Q num.

(** [process] up to the adjustment of the coordinates: the cube
    returned and the warnings issued. *)
Definition blend (self : plugin) (cube : Cube) (weights : option (list Q))
  : res (cube_ref * list warning) :=
  perc_coord <- check_percentile cube ;;
  _ <- check_weights self cube weights ;;
  coord_dim <- coord_dims cube (coord self) ;;
  match coord_dim with
  | [] => Ok (TheInput, [ScalarCoordWarning])
  | _ =>
      match perc_coord with
      | Some pc =>
          let percentiles := points pc in
          dims <- coord_dims cube (name pc) ;;
          perc_dim <- match dims with
                      | [d] => Ok d
                      | _ => Raise (ValueError MsgUnpack)
                      end ;;
          weights <- match weights with
                     | Some w => Ok w
                     | None =>
                         c <- iris_cube.coord cube (coord self) ;;
                         Ok (equal_weights (length (points c)))
                     end ;;
          let PERCENTILE_BLEND :=
            Aggregator (fun data axis =>
                          PercentileBlendingAggregator.aggregate
                            data axis percentiles weights (Z.of_nat perc_dim)) in
          result <- collapsed cube (coord self) PERCENTILE_BLEND ;;
          Ok (Fresh result, [])
      | None =>
          weights_array <-
            match weights with
            | Some w =>
                a <- broadcast_to_shape w (shape cube) coord_dim ;; Ok (Some a)
            | None => Ok None
            end ;;
          result <- collapsed cube (coord self) (MEAN weights_array) ;;
          Ok (Fresh result, [])
      end
  end.

(** [for crd in result.coords(): ...]: [ks] are the positions still to
    visit, [cube] is the state of the caller's cube. *)
Fixpoint adjust_coords (f : list Q -> list Q) (coord_dim : list nat)
    (ks : list nat) (cube : Cube) (result : cube_ref) : Cube * res cube_ref :=
  match ks with
  | [] => (cube, Ok result)
  | k :: ks' =>
      match nth_error (coords (deref cube result)) k with
      | None => adjust_coords f coord_dim ks' cube result
      | Some crd =>
          match coord_dims cube (name crd) with
          | Raise e => (cube, Raise e)
          | Ok dims =>
              if same_dims dims coord_dim then
                match iris_cube.coord cube (name crd) with
                | Raise e => (cube, Raise e)
                | Ok c =>
                    let pnts := points c in
                    match set_points crd (f pnts) with
                    | Raise e => (cube, Raise e)
                    | Ok crd' =>
                        let (cube', result') := write_coord cube result k crd' in
                        adjust_coords f coord_dim ks' cube' result'
                    end
                end
              else adjust_coords f coord_dim ks' cube result
          end
      end
  end.

(** [process] on a cube: the [isinstance] check of its first lines holds
    by typing. *)
Definition process (self : plugin) (cube : Cube) (weights : option (list Q))
  : outcome cube_ref :=
  match blend self cube weights with
  | Raise e => mk_outcome cube [] (Raise e)
  | Ok (result, ws) =>
      match coord_adjust self with
      | None => mk_outcome cube ws (Ok result)
      | Some f =>
          match coord_dims cube (coord self) with
          | Raise e => mk_outcome cube ws (Raise e)
          | Ok coord_dim =>
              let (cube', r) :=
                adjust_coords f coord_dim
                              (range (length (coords (deref cube result))))
                              cube result in
              mk_outcome cube' ws r
          end
      end
  end.

End WeightedBlendAcrossWholeDimension.

(** ** TriangularWeightedBlendAcrossAdjacentPoints *)

Module TriangularWeightedBlendAcrossAdjacentPoints.

Import iris_cube.

Record plugin : Type := mk_plugin {
  coord : String.string;
  width : Q;
  parameter_units : String.string }.

Section Process.

(** The two collaborators the file imports: the weights of
    [ChooseDefaultWeightsTriangular(width, units).process(cube, coord, point)]
    and [concatenate_cubes].  Both read the cubes they are given and
    change none. *)
Variable triangular_weights :
  Q -> String.string -> Cube -> String.string -> Q -> res (list Q).
Variable concatenate_cubes : list Cube -> res Cube.

(** [correct_collapsed_coordinates(orig_cube, new_cube, coords_to_correct)];
    [cube] is the state of the caller's cube, [new_cube] a reference. *)
Fixpoint correct_collapsed_coordinates (orig_cube : Cube) (cube : Cube)
    (new_cube : cube_ref) (coords_to_correct : list String.string)
  : Cube * res cube_ref :=
  match coords_to_correct with
  | [] => (cube, Ok new_cube)
  | nm :: rest =>
      match lookup (deref cube new_cube) nm, iris_cube.coord orig_cube nm with
      | Raise e, _ => (cube, Raise e)
      | _, Raise e => (cube, Raise e)
      | Ok (new_coord, _), Ok old_coord =>
          let k := position_where (named nm) (coords_and_dims (deref cube new_cube)) in
          match set_points new_coord (points old_coord) with
          | Raise e => (cube, Raise e)
          | Ok c =>
              let c' := match bounds old_coord with
                        | Some b => mk_coord (name c) (points c) (Some b)
                        | None => c
                        end in
              let (cube', new_cube') := write_coord cube new_cube k c' in
              correct_collapsed_coordinates orig_cube cube' new_cube' rest
          end
      end
  end.

(** [for coord in coords_to_correct: cube.coord(coord).guess_bounds()]. *)
Fixpoint guess_all_bounds (cube : Cube) (coords_to_correct : list String.string)
  : Cube * res unit :=
  match coords_to_correct with
  | [] => (cube, Ok tt)
  | nm :: rest =>
      match iris_cube.coord cube nm with
      | Raise e => (cube, Raise e)
      | Ok c =>
          match guess_bounds c with
          | Raise e => (cube, Raise e)
          | Ok c' =>
              let k := position_where (named nm) (coords_and_dims cube) in
              guess_all_bounds (with_coord cube k c') rest
          end
      end
  end.

(** [for cube_slice in cube.slices_over(self.coord): ...]: [ks] are the
    slices still to visit, [result] the cubes appended so far. *)
Fixpoint blend_slices (self : plugin) (coords_to_correct : list String.string)
    (ks : list nat) (cube : Cube) (ws : list warning) (result : list cube_ref)
  : outcome (list cube_ref) :=
  match ks with
  | [] => mk_outcome cube ws (Ok result)
  | k :: ks' =>
      match
        (cube_slice <- slice_over cube (coord self) k ;;
         c <- iris_cube.coord cube_slice (coord self) ;;
         point <- match points c with
                  | p :: _ => Ok p
                  | [] => Raise IndexError
                  end ;;
         weights <- triangular_weights (width self) (parameter_units self)
                                       cube (coord self) point ;;
         Ok (cube_slice, weights))
      with
      | Raise e => mk_outcome cube ws (Raise e)
      | Ok (cube_slice, weights) =>
          let BlendingPlugin :=
            WeightedBlendAcrossWholeDimension.mk_plugin (coord self) None in
          let o := WeightedBlendAcrossWholeDimension.process
                     BlendingPlugin cube (Some weights) in
          match returned o with
          | Raise e => mk_outcome (input_after o) (ws ++ warned o) (Raise e)
          | Ok blended_cube =>
              match correct_collapsed_coordinates
                      cube_slice (input_after o) blended_cube coords_to_correct with
              | (cube', Raise e) => mk_outcome cube' (ws ++ warned o) (Raise e)
              | (cube', Ok blended_cube') =>
                  blend_slices self coords_to_correct ks' cube'
                               (ws ++ warned o) (result ++ [blended_cube'])
              end
          end
      end
  end.

Definition process (self : plugin) (cube : Cube) : outcome Cube :=
  match coord_dims cube (coord self) with
  | Raise e => mk_outcome cube [] (Raise e)
  | Ok dimension_to_collapse =>
      let coords_to_correct := map name (coords_on cube dimension_to_collapse) in
      match guess_all_bounds cube coords_to_correct with
      | (cube1, Raise e) => mk_outcome cube1 [] (Raise e)
      | (cube1, Ok _) =>
          match slices_over_count cube1 (coord self) with
          | Raise e => mk_outcome cube1 [] (Raise e)
          | Ok n =>
              let o := blend_slices self coords_to_correct (range n) cube1 [] [] in
              match returned o with
              | Raise e => mk_outcome (input_after o) (warned o) (Raise e)
              | Ok result =>
                  mk_outcome (input_after o) (warned o)
                             (concatenate_cubes (map (deref (input_after o)) result))
              end
          end
      end
  end.

End Process.

End TriangularWeightedBlendAcrossAdjacentPoints.

(** ** The percentile blend in IEEE doubles

    [blend_percentiles] and the numpy functions it calls once more, with
    the numbers the program computes with: binary64 floating-point
    numbers, Rocq's primitive [float], whose operations round to nearest
    and overflow to an infinity as the machine's do.  The definitions
    are those of [Np] and of [PercentileBlendingAggregator] with the
    operations and the comparisons ([<], [>], [>=]) of doubles, and with
    the test of [arr_interp] for a NaN query point.  [sort] orders an
    array that holds no NaN ([np.sort] puts NaN last). *)

Module Binary64.

Import PrimFloat.

Local Open Scope float_scope.

(** [arr[i]] for a C index [i]. *)
Definition at_ (arr : list float) (i : Z) : float := nth (Z.to_nat i) arr 0.

Definition len (arr : list float) : Z := Z.of_nat (length arr).

(** [np.sort] of a one-dimensional array: ascending. *)
Fixpoint insert_sorted (x : float) (l : list float) : list float :=
  match l with
  | [] => [x]
  | y :: l' => if x <=? y then x :: l else y :: insert_sorted x l'
  end.

Fixpoint sort (l : list float) : list float :=
  match l with
  | [] => []
  | x :: l' => insert_sorted x (sort l')
  end.

(** [ndarray.flatten()] of a two-dimensional array held as its rows. *)
Definition flatten (m : list (list float)) : list float := concat m.

(** *** [np.interp] *)

(** [for (i = i0; i < len && key >= arr[i]; i++); return i - 1;] *)
Fixpoint linear_scan (key : float) (rest : list float) (i : Z) : Z :=
  match rest with
  | [] => (i - 1)%Z
  | a :: rest' =>
      if a <=? key then linear_scan key rest' (i + 1)%Z else (i - 1)%Z
  end.

Definition linear_search (key : float) (arr : list float) (i0 : Z) : Z :=
  linear_scan key (skipn (Z.to_nat i0) arr) i0.

(** [while (imin < imax) { imid = imin + ((imax - imin) >> 1);
       if (key >= arr[imid]) imin = imid + 1; else imax = imid; }
     return imin - 1;] *)
Fixpoint bisect (fuel : nat) (key : float) (arr : list float) (imin imax : Z)
  : Z :=
  match fuel with
  | O => (imin - 1)%Z
  | S fuel' =>
      if (imin <? imax)%Z then
        let imid := (imin + Z.shiftr (imax - imin) 1)%Z in
        if at_ arr imid <=? key
        then bisect fuel' key arr (imid + 1)%Z imax
        else bisect fuel' key arr imin imid
      else (imin - 1)%Z
  end.

Definition binary_search_with_guess (key : float) (arr : list float)
    (guess : Z) : Z :=
  let n := len arr in
  if at_ arr (n - 1) <? key then n
  else if key <? at_ arr 0 then (-1)%Z
  else if (n <=? 4)%Z then linear_search key arr 1
  else
    let guess := if (guess >? n - 3)%Z then (n - 3)%Z else guess in
    let guess := if (guess <? 1)%Z then 1%Z else guess in
    let run := bisect (S (length arr)) key arr in
    if key <? at_ arr guess then
      if key <? at_ arr (guess - 1) then
        let imax := (guess - 1)%Z in
        if (guess >? Np.LIKELY_IN_CACHE_SIZE)%Z
           && (at_ arr (guess - Np.LIKELY_IN_CACHE_SIZE) <=? key)
        then run (guess - Np.LIKELY_IN_CACHE_SIZE)%Z imax
        else run 0%Z imax
      else (guess - 1)%Z
    else if key <? at_ arr (guess + 1) then guess
    else if key <? at_ arr (guess + 2) then (guess + 1)%Z
    else
      let imin := (guess + 2)%Z in
      if (guess <? n - Np.LIKELY_IN_CACHE_SIZE - 1)%Z
         && (key <? at_ arr (guess + Np.LIKELY_IN_CACHE_SIZE))
      then run imin (guess + Np.LIKELY_IN_CACHE_SIZE)%Z
      else run imin n.

(** The value at one query point, given the index [j] found for it:
    [slope = (dy[j+1] - dy[j]) / (dx[j+1] - dx[j]);
     dres[i] = slope*(x_val - dx[j]) + dy[j];] *)
Definition interp_at (xp fp : list float) (x_val : float) (j : Z) : float :=
  let lenxp := len xp in
  if (j =? -1)%Z then at_ fp 0
  else if (j =? lenxp)%Z then at_ fp (lenxp - 1)
  else if (j =? lenxp - 1)%Z then at_ fp j
  else
    let slope := (at_ fp (j + 1) - at_ fp j) / (at_ xp (j + 1) - at_ xp j) in
    slope * (x_val - at_ xp j) + at_ fp j.

(** The loop over the query points; a NaN query point is answered by
    itself and leaves the guess as it is. *)
Fixpoint interp_loop (xp fp : list float) (xs : list float) (j : Z)
  : list float :=
  match xs with
  | [] => []
  | x_val :: xs' =>
      if is_nan x_val then x_val :: interp_loop xp fp xs' j
      else
        let j' := binary_search_with_guess x_val xp j in
        interp_at xp fp x_val j' :: interp_loop xp fp xs' j'
  end.

Definition interp (x xp fp : list float) : res (list float) :=
  if (len xp =? 0)%Z then Raise (ValueError MsgInterpEmpty)
  else if negb (len fp =? len xp)%Z then Raise (ValueError MsgInterpLength)
  else
    let lval := at_ fp 0 in
    let rval := at_ fp (len xp - 1) in
    if (len xp =? 1)%Z then
      let xp_val := at_ xp 0 in
      let fp_val := at_ fp 0 in
      Ok (map (fun x_val =>
                 if x_val <? xp_val then lval
                 else if xp_val <? x_val then rval else fp_val) x)
    else Ok (interp_loop xp fp x 0).

(** [a += b] on one-dimensional arrays, [b] broadcast when it has one
    element. *)
Definition iadd (a b : list float) : res (list float) :=
  if (length b =? length a)%nat
  then Ok (map (fun p => fst p + snd p) (combine a b))
  else match b with
       | [b0] => Ok (map (fun x => x + b0) a)
       | _ => Raise (ValueError MsgBroadcast)
       end.

(** [v * s] for a scalar [s]. *)
Definition scale (v : list float) (s : float) : list float :=
  map (fun x => x * s) v.

(** [np.zeros(n)]. *)
Definition zeros (n : nat) : list float := repeat 0 n.

(** *** PercentileBlendingAggregator.blend_percentiles *)

(** [weights[j]] for [j >= 0]. *)
Definition weight_at (weights : list float) (j : nat) : res float :=
  match nth_error weights j with
  | Some w => Ok w
  | None => Raise IndexError
  end.

(** The body of the inner loop, for one [i] and one [j]: the new value of
    [combined_pdf[i]]. *)
Definition blend_step (perc_values : list (list float))
    (percentiles weights : list float) (i : nat) (acc : list float) (j : nat)
  : res (list float) :=
  recalc_values_in_pdf <-
    (if (i =? j)%nat then Ok percentiles
     else interp (nth i perc_values []) (nth j perc_values []) percentiles) ;;
  w <- weight_at weights j ;;
  iadd acc (scale recalc_values_in_pdf w).

(** [for j in range(0, num)] for one [i], from the row of zeros. *)
Fixpoint blend_row (perc_values : list (list float))
    (percentiles weights : list float) (i : nat) (acc : list float)
    (js : list nat) : res (list float) :=
  match js with
  | [] => Ok acc
  | j :: js' =>
      acc' <- blend_step perc_values percentiles weights i acc j ;;
      blend_row perc_values percentiles weights i acc' js'
  end.

Definition blend_percentiles (perc_values : list (list float))
    (percentiles weights : list float) : res (list float) :=
  let num := length perc_values in
  combined_pdf <-
    mapM (fun i => blend_row perc_values percentiles weights i
                     (zeros (length percentiles)) (range num))
         (range num) ;;
  let combined_perc_thres_data := sort (flatten perc_values) in
  let combined_perc_values := sort (flatten combined_pdf) in
  interp percentiles combined_perc_values combined_perc_thres_data.

End Binary64.

(** * Specification vocabulary *)

Module Spec.

Import iris_cube.
Import WeightedBlendAcrossWholeDimension.

Local Open Scope Q_scope.

(** ** Lists of numbers *)

(** Non-decreasing and strictly increasing lists, by position. *)
Definition nondecreasing (l : list Q) : Prop :=
  forall i j : nat, (i <= j < length l)%nat -> nth i l 0 <= nth j l 0.


(** The same, decided. *)
Fixpoint nondecreasingb (l : list Q) : bool :=
  match l with
  | x :: ((y :: _) as l') => Qle_bool x y && nondecreasingb l'
  | _ => true
  end.



(** [lo] is the smallest, [hi] the largest entry of [l]. *)
Definition is_minimum (lo : Q) (l : list Q) : Prop :=
  In lo l /\ forall e, In e l -> lo <= e.

Definition is_maximum (hi : Q) (l : list Q) : Prop :=
  In hi l /\ forall e, In e l -> e <= hi.

(** The sum of a list of numbers. *)
Definition total (l : list Q) : Q := fold_right Qplus 0 l.

(** How many elements of [l] are at most [x], and how many are below. *)
Definition count_le (x : Q) (l : list Q) : nat :=
  length (filter (fun e => Qle_bool e x) l).

Definition count_lt (x : Q) (l : list Q) : nat :=
  length (filter (fun e => Np.Qltb e x) l).

(** ** The index search of [np.interp] *)

(** Where a search may stop: [arr[j] <= key < arr[j+1]], the second
    bound only when [j] is not the last index. *)
Definition located (arr : list Q) (key : Q) (j : Z) : Prop :=
  (0 <= j < Np.len arr)%Z /\ Np.at_ arr j <= key /\
  ((j + 1 < Np.len arr)%Z -> key < Np.at_ arr (j + 1)).

(** What the search answers on an ascending array: [len] above the last
    element, [-1] below the first, and otherwise an index [j] with
    [arr[j] <= key < arr[j+1]]. *)
Definition index_for (arr : list Q) (key : Q) (j : Z) : Prop :=
  (Np.at_ arr (Np.len arr - 1) < key /\ j = Np.len arr) \/
  (key < Np.at_ arr 0 /\ j = (-1)%Z) \/
  located arr key j.

(** [v] is a value [np.interp] may give at [x]. *)
Definition interp_value (xp fp : list Q) (x v : Q) : Prop :=
  exists j : Z, index_for xp x j /\ v = Np.interp_at xp fp x j.

(** ** The blend *)

(** The probabilities of slice [i]'s values in slice [j], the
    [recalc_values_in_pdf] of [blend_percentiles]. *)
Definition recalc (perc_values : list (list Q)) (percentiles : list Q)
    (i j : nat) : res (list Q) :=
  if (i =? j)%nat then Ok percentiles
  else Np.interp (nth i perc_values []) (nth j perc_values []) percentiles.

(** ** Cubes *)

(** The coordinates whose name contains "percentile", with their
    dimensions. *)
Definition is_percentile (c : Coord) : bool :=
  (find (name c) "percentile" >=? 0)%Z.

Definition percentile_coords (cube : Cube) : list (Coord * list nat) :=
  filter (fun cd => is_percentile (fst cd)) (coords_and_dims cube).

(** One step of the scan for percentile coordinates. *)
Definition scan_step (st : nat * option Coord) (c : Coord) : nat * option Coord :=
  if (find (name c) "percentile" >=? 0)%Z then (S (fst st), Some c) else st.

(** The errors of the specification's taxonomy. *)
Definition PercentileDimensionError (e : exn) : Prop :=
  e = ValueError MsgSeveralPercentileCoords \/
  e = ValueError MsgPercentileNotDimension \/
  e = ValueError MsgPercentileTooFewPoints.

Definition WeightShapeMismatch (e : exn) : Prop :=
  e = ValueError MsgWeightsShape.

(** The errors raised by the checks at the head of [process]. *)
Definition check_error (e : exn) : bool :=
  match e with
  | ValueError MsgSeveralPercentileCoords
  | ValueError MsgPercentileNotDimension
  | ValueError MsgPercentileTooFewPoints
  | ValueError MsgWeightsShape => true
  | _ => false
  end.

(** An aggregator that raises none of the errors of the checks. *)
Definition quiet (agg : aggregator) : Prop :=
  match agg with
  | Aggregator call_func =>
      forall data axis e, call_func data axis = Raise e -> check_error e = false
  | MEAN _ => True
  end.

(** The branch of [process] for a cube without percentile coordinate:
    the weights check, the scalar case and the weighted mean. *)
Definition mean_mode (self : plugin) (cube : Cube) (weights : option (list Q))
  : res (cube_ref * list warning) :=
  (_ <- check_weights self cube weights ;;
   coord_dim <- coord_dims cube (coord self) ;;
   match coord_dim with
   | [] => Ok (TheInput, [ScalarCoordWarning])
   | _ =>
       weights_array <-
         match weights with
         | Some w =>
             a <- broadcast_to_shape w (shape cube) coord_dim ;; Ok (Some a)
         | None => Ok None
         end ;;
       result <- collapsed cube (coord self) (MEAN weights_array) ;;
       Ok (Fresh result, [])
   end)%res.

(** Two states of a cube that differ at most in the points of
    coordinates. *)
Definition same_coord_but_points (cd cd' : Coord * list nat) : Prop :=
  name (fst cd') = name (fst cd) /\ bounds (fst cd') = bounds (fst cd) /\
  snd cd' = snd cd.

Definition same_but_points (cube cube' : Cube) : Prop :=
  data cube' = data cube /\
  Forall2 same_coord_but_points (coords_and_dims cube) (coords_and_dims cube').

(** A coordinate of the caller's cube after the sliding-window blend: as
    it was, or a coordinate spanning [dims] that has been given the
    bounds [guess_bounds] computes. *)
Definition unchanged_or_guessed (dims : list nat)
    (cd cd' : iris_cube.Coord * list nat) : Prop :=
  cd' = cd \/
  (snd cd = dims /\ snd cd' = dims /\
   iris_cube.guess_bounds (fst cd) = Ok (fst cd')).

Definition same_but_guessed_bounds (dims : list nat)
    (cube cube' : iris_cube.Cube) : Prop :=
  iris_cube.data cube' = iris_cube.data cube /\
  Forall2 (unchanged_or_guessed dims)
          (iris_cube.coords_and_dims cube) (iris_cube.coords_and_dims cube').

(** The weighted arithmetic mean along dimension [d] of [a], at the index
    [idx] into the other dimensions: the sum of value times weight
    divided by the sum of the weights. *)
Definition weighted_mean (a : Nd.ndarray) (d : nat) (w : list Q) (idx : list nat)
  : Q :=
  total (map (fun k => Nd.get a (insert_at d k idx) * nth k w 0)
             (range (length w)))
  / total w.

(** The weights of the mean: those given, or equal ones. *)
Definition weights_or_equal (n : nat) (weights : option (list Q)) : list Q :=
  match weights with
  | Some w => w
  | None => repeat 1 n
  end.

(** ** Corrected coordinates *)

(** A coordinate of the new cube before and after
    [correct_collapsed_coordinates]: one named in [names] has the points
    of the coordinate of that name of [orig], and its bounds when that
    one has some; any other is as it was. *)
Definition corrected_coord (orig : Cube) (names : list String.string)
    (cd cd' : Coord * list nat) : Prop :=
  name (fst cd') = name (fst cd) /\ snd cd' = snd cd /\
  if existsb (String.eqb (name (fst cd))) names
  then exists oc,
         iris_cube.coord orig (name (fst cd)) = Ok oc /\
         points (fst cd') = points oc /\
         bounds (fst cd') = match bounds oc with
                            | Some b => Some b
                            | None => bounds (fst cd)
                            end
  else fst cd' = fst cd.

(** One round of that loop, for the name [nm] and the coordinate [oc] of
    that name of [orig]. *)
Definition corrected_step (nm : String.string) (oc : Coord)
    (cd cd' : Coord * list nat) : Prop :=
  (named nm cd = false /\ cd' = cd) \/
  (named nm cd = true /\ name (fst cd') = name (fst cd) /\ snd cd' = snd cd /\
   points (fst cd') = points oc /\
   bounds (fst cd') = match bounds oc with
                      | Some b => Some b
                      | None => bounds (fst cd)
                      end).

(** ** The coordinates of a blended cube *)

(** A coordinate of the input and the one [cube.collapsed] gives the
    result at the same position, [d] being the collapsed dimension. *)
Definition collapsed_coord (d : nat) (cd cd' : Coord * list nat) : Prop :=
  snd cd' = drop_dim d (snd cd) /\
  if existsb (Nat.eqb d) (snd cd)
  then coord_collapsed (fst cd) = Ok (fst cd')
  else fst cd' = fst cd.

(** The numbers a coordinate extends over: its bounds, or its points when
    it has no bounds. *)
Definition extent (c : Coord) : list Q :=
  match bounds c with
  | Some b => flat_map (fun p => [fst p; snd p]) b
  | None => points c
  end.

(** A coordinate of the input and the coordinate [process] makes of it,
    [d] being the blend dimension: one that does not span [d] is kept;
    one that spans [d] keeps its name and, when [d] is the one dimension
    it spans, has one point and has as bounds the least and the greatest
    number of its extent. *)
Definition blended_coord (d : nat) (cd cd' : Coord * list nat) : Prop :=
  name (fst cd') = name (fst cd) /\ snd cd' = drop_dim d (snd cd) /\
  if existsb (Nat.eqb d) (snd cd)
  then snd cd = [d] ->
       length (points (fst cd')) = 1%nat /\
       exists lower upper,
         minimum (extent (fst cd)) = Ok lower /\
         maximum (extent (fst cd)) = Ok upper /\
         bounds (fst cd') = Some [(lower, upper)]
  else fst cd' = fst cd.

(** Whether the loop over the coordinates of the result adjusts the one
    named [nm]: [cube.coord_dims(crd.name()) == coord_dim]. *)
Definition adjusts (cube : Cube) (coord_dim : list nat) (nm : String.string)
  : bool :=
  match coord_dims cube nm with
  | Ok dims => same_dims dims coord_dim
  | Raise _ => false
  end.

(** ** The slices [aggregate] blends *)

(** The matrix blended for the values at [idx], an index into the array
    without the blend axis [ax]: row [s], column [l] holds the element
    of [data] at [idx] with [s] put in at the blend axis and [l] at the
    percentile axis [pd]. *)
Definition blend_rows (data : Nd.ndarray) (ax pd : nat) (idx : list nat)
  : list (list Q) :=
  map (fun s =>
         map (fun l => Nd.get data (replace_nth pd l (insert_at ax s idx)))
             (range (nth pd (Nd.shape data) 0%nat)))
      (range (nth ax (Nd.shape data) 0%nat)).

(** ** A change of units *)


End Spec.

Import Spec.


(** * Sample inputs *)

Module Sample.

Import iris_cube.

Local Open Scope Q_scope.

Definition q (n : Z) : Q := inject_Z n.

(** An array of shape (time=3, percentile=5, lat=2, lon=2). *)
Definition field : Nd.ndarray :=
  Nd.tabulate [3; 5; 2; 2]%nat
              (fun idx => q (Z.of_nat (Nd.ravel [3; 5; 2; 2]%nat idx))).

Definition five_levels : list Q := [q 10; q 30; q 50; q 70; q 90].
Definition three_weights : list Q := [1 # 3; 1 # 3; 1 # 3].

(** Percentile values and levels. *)
Definition levels : list Q := [q 25; q 50; q 75].
Definition row : list Q := [q 10; q 20; q 30].
Definition halves : list Q := [1 # 2; 1 # 2].
Definition two_slices : list (list Q) := [[q 10; q 20; q 30]; [q 15; q 18; q 40]].
Definition uneven : list Q := [3 # 10; 7 # 10].

Definition blended_two_slices : list Q :=
  Eval vm_compute in
    match PercentileBlendingAggregator.blend_percentiles two_slices levels uneven with
    | Ok r => r
    | Raise _ => []
    end.

(** Cubes. *)
Definition time : Coord := mk_coord "time" [q 0; q 1; q 2] None.
Definition forecast_period : Coord := mk_coord "forecast_period" [q 5] None.
Definition latitude : Coord := mk_coord "latitude" [q 0; q 1; q 2] None.
Definition percentile : Coord :=
  mk_coord "percentile_over_realization" [q 10; q 50; q 90] None.
Definition percentile_scalar : Coord :=
  mk_coord "percentile_over_realization" [q 50] None.
Definition percentile_too : Coord :=
  mk_coord "percentile_over_time" [q 10; q 50; q 90] None.

(** Values 1, 2, 3 along time. *)
Definition series : Cube :=
  mk_cube (Nd.mk_ndarray [3]%nat [q 1; q 2; q 3]) [(time, [0%nat])].

(** Two percentile coordinates. *)
Definition two_percentiles : Cube :=
  mk_cube (Nd.zeros [3; 3; 3]%nat)
          [(time, [0%nat]); (percentile, [1%nat]); (percentile_too, [2%nat])].

(** A scalar forecast period. *)
Definition one_period : Cube :=
  mk_cube (Nd.mk_ndarray [3]%nat [q 1; q 2; q 3])
          [(latitude, [0%nat]); (forecast_period, [])].

(** A scalar forecast period and a scalar percentile. *)
Definition one_period_one_percentile : Cube :=
  mk_cube (Nd.mk_ndarray [3]%nat [q 1; q 2; q 3])
          [(latitude, [0%nat]); (forecast_period, []); (percentile_scalar, [])].

Definition blend_time : WeightedBlendAcrossWholeDimension.plugin :=
  WeightedBlendAcrossWholeDimension.mk_plugin "time" None.

Definition blend_period : WeightedBlendAcrossWholeDimension.plugin :=
  WeightedBlendAcrossWholeDimension.mk_plugin "forecast_period" None.

(** [coord_adjust = lambda pnts: pnts + 1]. *)
Definition blend_period_adjusted : WeightedBlendAcrossWholeDimension.plugin :=
  WeightedBlendAcrossWholeDimension.mk_plugin
    "forecast_period" (Some (map (fun x => x + 1))).

(** Weights 0.2, 0.3, 0.5. *)
Definition two_three_five : list Q := [2 # 10; 3 # 10; 5 # 10].

(** The sliding-window blend over time, and stand-ins for the weights of
    the triangular weights plugin and for [concatenate_cubes]. *)
Definition blend_window : TriangularWeightedBlendAcrossAdjacentPoints.plugin :=
  TriangularWeightedBlendAcrossAdjacentPoints.mk_plugin "time" 1 "hours".

Definition thirds (width : Q) (units : String.string) (cube : Cube)
    (coord : String.string) (point : Q) : res (list Q) :=
  Ok three_weights.

Definition first_cube (cubes : list Cube) : res Cube :=
  match cubes with
  | c :: _ => Ok c
  | [] => Raise (ValueError MsgEmptyReduction)
  end.

(** [time] with the bounds [guess_bounds] gives it. *)
Definition time_with_bounds : Coord :=
  mk_coord "time" [q 0; q 1; q 2]
           (Some [(-1 # 2, 1 # 2); (1 # 2, 3 # 2); (3 # 2, 5 # 2)]).

(** The coordinate of one slice of a cube along time, and what the blend
    makes of the time coordinate. *)
Definition time_of_slice : Coord :=
  mk_coord "time" [q 1] (Some [(1 # 2, 3 # 2)]).
Definition time_collapsed : Coord :=
  mk_coord "time" [q 1] (Some [(-1 # 2, 5 # 2)]).

Definition one_slice : Cube :=
  mk_cube (Nd.mk_ndarray [] [q 2]) [(time_of_slice, [])].
Definition one_blend : Cube :=
  mk_cube (Nd.mk_ndarray [] [q 2]) [(time_collapsed, [])].

(** [coord_adjust = lambda pnts: pnts[len(pnts) // 2]]. *)
Definition blend_time_middle : WeightedBlendAcrossWholeDimension.plugin :=
  WeightedBlendAcrossWholeDimension.mk_plugin
    "time" (Some (fun pnts => [nth (length pnts / 2) pnts 0])).

(** Percentiles 10, 50, 90 at two times: shape (percentile=3, time=2) and
    shape (time=2, percentile=3). *)
Definition two_times : Coord := mk_coord "time" [q 0; q 1] None.

Definition percentiles_then_time : Cube :=
  mk_cube (Nd.mk_ndarray [3; 2]%nat [q 1; q 3; q 2; q 4; q 5; q 7])
          [(percentile, [0%nat]); (two_times, [1%nat])].

Definition time_then_percentiles : Cube :=
  mk_cube (Nd.mk_ndarray [2; 3]%nat [q 1; q 2; q 5; q 3; q 4; q 7])
          [(two_times, [0%nat]); (percentile, [1%nat])].


(** Doubles.  [0x1p+1023] is 2^1023, about 8.99e307; [0x1.4p+1023] and
    [0x1.8p+1023] are 1.25 and 1.5 times that; the largest double is
    just below 2^1024.  Two slices with values on both sides of zero,
    2^1024 apart. *)
Module Doubles.

Import PrimFloat.

Local Open Scope float_scope.

Definition wide_slices : list (list float) :=
  [[-0x1p+1023; 0x1p+1023; 0x1.8p+1023];
   [-0x1.8p+1023; -0x1.4p+1023; 0x1p+1023]].

Definition quartiles : list float := [25; 50; 75].

Definition halves : list float := [0.5; 0.5].

End Doubles.

End Sample.

(** * Properties *)

(** ** Sorted lists of numbers *)

Section Order.

Local Open Scope Q_scope.

Lemma Qltb_lt (x y : Q) : Np.Qltb x y = true <-> x < y.
Proof.
  unfold Np.Qltb. rewrite negb_true_iff.
  split; intro H.
  - apply Qnot_le_lt. intro Hle. apply Qle_bool_iff in Hle. congruence.
  - destruct (Qle_bool y x) eqn:E; [|reflexivity].
    apply Qle_bool_iff in E. exfalso. apply (Qlt_not_le _ _ H E).
Qed.

Lemma Qltb_ge (x y : Q) : Np.Qltb x y = false <-> y <= x.
Proof.
  unfold Np.Qltb. rewrite negb_false_iff. apply Qle_bool_iff.
Qed.

Lemma Qle_bool_lt (x y : Q) : Qle_bool x y = false <-> y < x.
Proof.
  rewrite <- Qltb_lt. unfold Np.Qltb. rewrite negb_true_iff. reflexivity.
Qed.


Lemma nondecreasing_cons (x : Q) (l : list Q) :
  nondecreasing (x :: l) <-> (forall y, In y l -> x <= y) /\ nondecreasing l.
Proof.
  split.
  - intros H. split.
    + intros y Hy. destruct (In_nth _ _ 0 Hy) as (k & Hk & <-).
      apply (H 0%nat (S k)). simpl. lia.
    + intros i j Hij. apply (H (S i) (S j)). simpl. lia.
  - intros [Hx Hl] i j Hij. simpl in Hij.
    destruct i as [|i], j as [|j]; simpl; try lia.
    + apply Qle_refl.
    + apply Hx, nth_In. lia.
    + apply Hl. lia.
Qed.

Lemma nondecreasing_nil : nondecreasing [].
Proof. intros i j Hij. simpl in Hij. lia. Qed.

(** *** [np.sort] *)

Lemma insert_sorted_perm (x : Q) (l : list Q) :
  Permutation (Np.insert_sorted x l) (x :: l).
Proof.
  induction l as [|y l IH]; simpl.
  - reflexivity.
  - destruct (Qle_bool x y).
    + reflexivity.
    + rewrite IH. apply perm_swap.
Qed.

Lemma sort_perm (l : list Q) : Permutation (Np.sort l) l.
Proof.
  induction l as [|x l IH]; simpl.
  - reflexivity.
  - rewrite insert_sorted_perm. now apply perm_skip.
Qed.

Lemma sort_length (l : list Q) : length (Np.sort l) = length l.
Proof. apply Permutation_length, sort_perm. Qed.

Lemma sort_In (l : list Q) (x : Q) : In x (Np.sort l) <-> In x l.
Proof.
  split; apply Permutation_in; [|symmetry]; apply sort_perm.
Qed.

Lemma insert_sorted_nondecreasing (x : Q) (l : list Q) :
  nondecreasing l -> nondecreasing (Np.insert_sorted x l).
Proof.
  induction l as [|y l IH]; simpl; intros Hl.
  - apply nondecreasing_cons. split; [intros ? []|apply nondecreasing_nil].
  - destruct (Qle_bool x y) eqn:E.
    + apply Qle_bool_iff in E.
      apply nondecreasing_cons. split; [|exact Hl].
      apply nondecreasing_cons in Hl. destruct Hl as [Hy _].
      intros z [<-|Hz]; [exact E|].
      apply Qle_trans with y; auto.
    + apply Qle_bool_lt in E.
      apply nondecreasing_cons in Hl. destruct Hl as [Hy Hl].
      apply nondecreasing_cons. split; [|auto].
      intros z Hz.
      apply (Permutation_in _ (insert_sorted_perm x l)) in Hz.
      destruct Hz as [<-|Hz]; [now apply Qlt_le_weak|auto].
Qed.

Lemma sort_nondecreasing (l : list Q) : nondecreasing (Np.sort l).
Proof.
  induction l as [|x l IH]; simpl.
  - apply nondecreasing_nil.
  - now apply insert_sorted_nondecreasing.
Qed.

End Order.

(** ** The index search of [np.interp] *)

Section Search.

Local Open Scope Q_scope.

Variable arr : list Q.
Variable key : Q.


Lemma at_mono (i j : Z) :
  nondecreasing arr -> (0 <= i <= j)%Z -> (j < Np.len arr)%Z ->
  Np.at_ arr i <= Np.at_ arr j.
Proof.
  intros Hs Hij Hj. unfold Np.at_, Np.len in *. apply Hs. lia.
Qed.

Lemma skipn_cons_nth (n : nat) (l : list Q) (a : Q) (rest : list Q) :
  skipn n l = a :: rest ->
  nth n l 0 = a /\ skipn (S n) l = rest /\ (n < length l)%nat.
Proof.
  revert l. induction n as [|n IH]; intros [|y l] H; simpl in *; try discriminate.
  - inversion H. subst. repeat split. lia.
  - destruct (IH _ H) as (H1 & H2 & H3). repeat split; auto. lia.
Qed.

Lemma linear_scan_spec (rest : list Q) (i : Z) :
  (0 <= i <= Np.len arr)%Z -> skipn (Z.to_nat i) arr = rest ->
  let r := Np.linear_scan key rest i in
  (i - 1 <= r < Np.len arr)%Z /\
  ((i <= r)%Z -> Np.at_ arr r <= key) /\
  ((r + 1 < Np.len arr)%Z -> key < Np.at_ arr (r + 1)).
Proof.
  revert i. induction rest as [|a rest IH]; intros i Hi Hskip; simpl.
  - assert (length arr <= Z.to_nat i)%nat as Hlen.
    { destruct (Nat.le_gt_cases (length arr) (Z.to_nat i)) as [|Hlt]; auto.
      apply (f_equal (@Datatypes.length Q)) in Hskip.
      rewrite length_skipn in Hskip. simpl in Hskip. lia. }
    unfold Np.len in *. repeat split; try lia.
  - destruct (skipn_cons_nth _ _ _ _ Hskip) as (Hnth & Hrest & Hlt).
    assert (Np.at_ arr i = a) as Hat by exact Hnth.
    unfold Np.len in *.
    destruct (Qle_bool a key) eqn:E.
    + apply Qle_bool_iff in E.
      specialize (IH (i + 1)%Z).
      replace (Z.to_nat (i + 1)) with (S (Z.to_nat i)) in IH by lia.
      destruct IH as (H1 & H2 & H3); [lia|exact Hrest|].
      repeat split; try lia; auto.
      intros Hle. destruct (Z.eq_dec (Np.linear_scan key rest (i + 1)) i) as [->|Hne].
      * now rewrite Hat.
      * apply H2. lia.
    + apply Qle_bool_lt in E. repeat split; try lia.
      intros _. replace (i - 1 + 1)%Z with i by lia. now rewrite Hat.
Qed.

Lemma bisect_spec (fuel : nat) (imin imax : Z) :
  (0 <= imin <= imax)%Z -> (imax - imin < Z.of_nat fuel)%Z ->
  let r := Np.bisect fuel key arr imin imax in
  (imin - 1 <= r <= imax - 1)%Z /\
  ((imin <= r)%Z -> Np.at_ arr r <= key) /\
  ((r + 1 < imax)%Z -> key < Np.at_ arr (r + 1)).
Proof.
  revert imin imax. induction fuel as [|fuel IH]; intros imin imax Hb Hf; [lia|].
  cbn [Np.bisect].
  destruct (imin <? imax)%Z eqn:Elt.
  - apply Z.ltb_lt in Elt.
    rewrite Z.shiftr_div_pow2 by lia. change (2 ^ 1)%Z with 2%Z.
    set (imid := (imin + (imax - imin) / 2)%Z).
    assert (imin <= imid < imax)%Z as Hmid.
    { unfold imid. split.
      - assert (0 <= (imax - imin) / 2)%Z by (apply Z.div_pos; lia). lia.
      - assert ((imax - imin) / 2 < imax - imin)%Z by (apply Z.div_lt; lia). lia. }
    destruct (Qle_bool (Np.at_ arr imid) key) eqn:E.
    + apply Qle_bool_iff in E.
      destruct (IH (imid + 1)%Z imax) as (H1 & H2 & H3); [lia|lia|].
      repeat split; try lia; auto.
      intros Hle.
      destruct (Z.eq_dec (Np.bisect fuel key arr (imid + 1) imax) imid) as [->|Hne];
        [exact E|apply H2; lia].
    + apply Qle_bool_lt in E.
      destruct (IH imin imid) as (H1 & H2 & H3); [lia|lia|].
      repeat split; try lia; auto.
      intros Hlt.
      destruct (Z.eq_dec (Np.bisect fuel key arr imin imid + 1) imid) as [->|Hne];
        [exact E|apply H3; lia].
  - apply Z.ltb_ge in Elt. repeat split; try lia.
Qed.

Lemma binary_search_with_guess_spec (guess : Z) :
  nondecreasing arr -> arr <> [] ->
  index_for arr key (Np.binary_search_with_guess key arr guess).
Proof.
  intros Hs Hne.
  assert (0 < Np.len arr)%Z as Hlen.
  { unfold Np.len. destruct arr; [congruence|simpl; lia]. }
  unfold Np.binary_search_with_guess, index_for.
  destruct (Np.Qltb (Np.at_ arr (Np.len arr - 1)) key) eqn:Ehi.
  { left. split; [now apply Qltb_lt|reflexivity]. }
  destruct (Np.Qltb key (Np.at_ arr 0)) eqn:Elo.
  { right. left. split; [now apply Qltb_lt|reflexivity]. }
  right. right.
  apply Qltb_ge in Ehi, Elo.
  destruct (Np.len arr <=? 4)%Z eqn:E4.
  { unfold Np.linear_search.
    destruct (linear_scan_spec (skipn (Z.to_nat 1) arr) 1) as (H1 & H2 & H3);
      [lia|reflexivity|].
    unfold located. repeat split; try lia; auto.
    destruct (Z.eq_dec (Np.linear_scan key (skipn (Z.to_nat 1) arr) 1) 0) as [->|Hn];
      [exact Elo|apply H2; lia]. }
  apply Z.leb_gt in E4.
  set (g1 := if (guess >? Np.len arr - 3)%Z then (Np.len arr - 3)%Z else guess).
  set (g := if (g1 <? 1)%Z then 1%Z else g1).
  assert (1 <= g <= Np.len arr - 3)%Z as Hg.
  { unfold g, g1. destruct (guess >? Np.len arr - 3)%Z eqn:Ea.
    - destruct (Np.len arr - 3 <? 1)%Z eqn:Eb; [apply Z.ltb_lt in Eb|]; lia.
    - rewrite Z.gtb_ltb in Ea. apply Z.ltb_ge in Ea.
      destruct (guess <? 1)%Z eqn:Eb; [|apply Z.ltb_ge in Eb]; lia. }
  clearbody g. clear g1.
  assert (forall imin imax : Z,
            (0 <= imin <= imax)%Z -> (imax <= Np.len arr)%Z ->
            ((0 < imin)%Z -> Np.at_ arr (imin - 1) <= key) ->
            ((imax < Np.len arr)%Z -> key < Np.at_ arr imax) ->
            located arr key (Np.bisect (S (length arr)) key arr imin imax)) as Hrun.
  { intros imin imax Hb Hmax Hleft Hright.
    destruct (bisect_spec (S (length arr)) imin imax) as (H1 & H2 & H3);
      [lia|unfold Np.len in *; lia|].
    set (r := Np.bisect (S (length arr)) key arr imin imax) in *.
    assert (0 <= r)%Z as Hr0.
    { destruct (Z_lt_le_dec r 0) as [Hneg|]; [|assumption].
      assert (r = -1)%Z as Hr by lia.
      exfalso. apply (Qlt_not_le key (Np.at_ arr 0)); [|exact Elo].
      destruct (Z.eq_dec imax 0) as [H0|H0].
      - rewrite <- H0. apply Hright. lia.
      - replace 0%Z with (r + 1)%Z by lia. apply H3. lia. }
    unfold located. repeat split; try lia.
    - destruct (Z.eq_dec r (imin - 1)) as [He|Hn].
      + rewrite He. apply Hleft. lia.
      + apply H2. lia.
    - intros Hlt. destruct (Z.eq_dec (r + 1) imax) as [He|Hn].
      + rewrite He. apply Hright. lia.
      + apply H3. lia. }
  unfold Np.LIKELY_IN_CACHE_SIZE.
  destruct (Np.Qltb key (Np.at_ arr g)) eqn:E0.
  - apply Qltb_lt in E0.
    destruct (Np.Qltb key (Np.at_ arr (g - 1))) eqn:E1.
    + apply Qltb_lt in E1.
      destruct ((g >? 8)%Z && Qle_bool (Np.at_ arr (g - 8)) key) eqn:E2.
      * apply andb_true_iff in E2. destruct E2 as [Eg E2].
        rewrite Z.gtb_ltb in Eg. apply Z.ltb_lt in Eg. apply Qle_bool_iff in E2.
        assert (g - 8 <= g - 1)%Z as Hord.
        { destruct (Z_le_gt_dec (g - 8) (g - 1)); [assumption|lia]. }
        apply Hrun; try lia; auto.
        intros _. apply Qle_trans with (Np.at_ arr (g - 8)); [|exact E2].
        apply at_mono; auto; lia.
      * apply Hrun; try lia; auto.
    + apply Qltb_ge in E1.
      unfold located. repeat split; try lia; auto.
      intros _. now replace (g - 1 + 1)%Z with g by lia.
  - apply Qltb_ge in E0.
    destruct (Np.Qltb key (Np.at_ arr (g + 1))) eqn:E1.
    { apply Qltb_lt in E1. unfold located. repeat split; try lia; auto. }
    apply Qltb_ge in E1.
    destruct (Np.Qltb key (Np.at_ arr (g + 2))) eqn:E2.
    { apply Qltb_lt in E2. unfold located. repeat split; try lia; auto.
      intros _. now replace (g + 1 + 1)%Z with (g + 2)%Z by lia. }
    apply Qltb_ge in E2.
    destruct ((g <? Np.len arr - 8 - 1)%Z && Np.Qltb key (Np.at_ arr (g + 8))) eqn:E3.
    + apply andb_true_iff in E3. destruct E3 as [Eg E3].
      apply Z.ltb_lt in Eg. apply Qltb_lt in E3.
      apply Hrun; try lia; auto.
      intros _. now replace (g + 2 - 1)%Z with (g + 1)%Z by lia.
    + apply Hrun; try lia; auto.
      intros _. now replace (g + 2 - 1)%Z with (g + 1)%Z by lia.
Qed.

End Search.

(** ** [np.interp] on ascending sample points *)

Section Interp.

Local Open Scope Q_scope.

(** Linear interpolation between [(c, a)] and [(d, b)]. *)
Lemma lerp_bounds (a b c d x : Q) :
  a <= b -> c <= x -> x < d ->
  a <= (b - a) / (d - c) * (x - c) + a <= b.
Proof.
  intros Hab Hcx Hxd.
  set (s := (b - a) / (d - c)).
  assert (s * (d - c) == b - a) as Hs by (unfold s; field; lra).
  assert (0 <= s) as Hs0 by (apply Qle_shift_div_l; lra).
  split; nra.
Qed.

Lemma lerp_mono (a b c d x x' : Q) :
  a <= b -> c <= x -> x <= x' -> x' < d ->
  (b - a) / (d - c) * (x - c) + a <= (b - a) / (d - c) * (x' - c) + a.
Proof.
  intros Hab Hcx Hxx Hxd.
  set (s := (b - a) / (d - c)).
  assert (0 <= s) as Hs0 by (apply Qle_shift_div_l; lra).
  nra.
Qed.

Variables xp fp : list Q.
Hypothesis xp_ascending : nondecreasing xp.
Hypothesis xp_nonempty : xp <> [].

Lemma len_pos : (0 < Np.len xp)%Z.
Proof. unfold Np.len. destruct xp; [congruence|simpl; lia]. Qed.

Lemma interp_loop_values (xs : list Q) (j : Z) :
  Forall2 (interp_value xp fp) xs (Np.interp_loop xp fp xs j).
Proof.
  revert j. induction xs as [|x xs IH]; intros j; simpl; constructor.
  - exists (Np.binary_search_with_guess x xp j). split; [|reflexivity].
    now apply binary_search_with_guess_spec.
  - apply IH.
Qed.

Lemma interp_values (x r : list Q) :
  Np.interp x xp fp = Ok r -> Forall2 (interp_value xp fp) x r.
Proof.
  pose proof len_pos as Hpos.
  unfold Np.interp.
  destruct (Np.len xp =? 0)%Z eqn:E0; [discriminate|].
  destruct (negb (Np.len fp =? Np.len xp)%Z) eqn:E1; [discriminate|].
  destruct (Np.len xp =? 1)%Z eqn:E2; intros H; inversion H; subst; clear H.
  - apply Z.eqb_eq in E2.
    induction x as [|x0 x IH]; simpl; constructor; auto.
    destruct (Np.Qltb x0 (Np.at_ xp 0)) eqn:Ea.
    + exists (-1)%Z. split.
      * right. left. split; [now apply Qltb_lt|reflexivity].
      * reflexivity.
    + destruct (Np.Qltb (Np.at_ xp 0) x0) eqn:Eb.
      * exists (Np.len xp). split.
        -- left. rewrite E2. split; [now apply Qltb_lt|reflexivity].
        -- unfold Np.interp_at. rewrite E2. reflexivity.
      * exists 0%Z. split.
        -- right. right. apply Qltb_ge in Ea, Eb.
           unfold located. rewrite E2. repeat split; try lia; auto.
        -- unfold Np.interp_at. rewrite E2. reflexivity.
  - apply interp_loop_values.
Qed.

Lemma interp_length (x r : list Q) :
  Np.interp x xp fp = Ok r -> length r = length x.
Proof.
  intros H. apply interp_values in H. symmetry. eapply Forall2_length; eauto.
Qed.

Hypothesis fp_length : length fp = length xp.
Hypothesis fp_ascending : nondecreasing fp.

Lemma fp_mono (i j : Z) :
  (0 <= i <= j)%Z -> (j < Np.len xp)%Z -> Np.at_ fp i <= Np.at_ fp j.
Proof.
  intros Hij Hj. apply at_mono; auto.
  unfold Np.len in *. rewrite fp_length. exact Hj.
Qed.

(** Inside a segment the value lies between the values at its ends. *)
Lemma located_value (x : Q) (j : Z) :
  located xp x j ->
  Np.at_ fp j <= Np.interp_at xp fp x j /\
  ((j + 1 < Np.len xp)%Z -> Np.interp_at xp fp x j <= Np.at_ fp (j + 1)).
Proof.
  intros (Hj & Hle & Hlt).
  unfold Np.interp_at.
  destruct (j =? -1)%Z eqn:E1; [apply Z.eqb_eq in E1; lia|].
  destruct (j =? Np.len xp)%Z eqn:E2; [apply Z.eqb_eq in E2; lia|].
  destruct (j =? Np.len xp - 1)%Z eqn:E3.
  - apply Z.eqb_eq in E3. split; [apply Qle_refl|lia].
  - apply Z.eqb_neq in E3.
    assert (j + 1 < Np.len xp)%Z as Hj1 by lia.
    destruct (lerp_bounds (Np.at_ fp j) (Np.at_ fp (j + 1))
                          (Np.at_ xp j) (Np.at_ xp (j + 1)) x) as [Ha Hb]; auto.
    apply fp_mono; lia.
Qed.

Lemma interp_value_bounds (x v : Q) :
  interp_value xp fp x v ->
  Np.at_ fp 0 <= v <= Np.at_ fp (Np.len xp - 1).
Proof.
  pose proof len_pos as Hpos.
  intros (j & [[Hx ->]|[[Hx ->]|Hloc]] & ->).
  - unfold Np.interp_at.
    destruct (Np.len xp =? -1)%Z eqn:E1; [apply Z.eqb_eq in E1; lia|].
    rewrite Z.eqb_refl. split; [apply fp_mono; lia|apply Qle_refl].
  - unfold Np.interp_at. simpl. split; [apply Qle_refl|apply fp_mono; lia].
  - destruct (located_value _ _ Hloc) as [Ha Hb].
    destruct Hloc as (Hj & _).
    split.
    + apply Qle_trans with (Np.at_ fp j); [apply fp_mono; lia|exact Ha].
    + destruct (Z.eq_dec j (Np.len xp - 1)) as [He|Hn].
      * unfold Np.interp_at.
        destruct (j =? -1)%Z eqn:E1; [apply Z.eqb_eq in E1; lia|].
        destruct (j =? Np.len xp)%Z eqn:E2; [apply Z.eqb_eq in E2; lia|].
        apply Z.eqb_eq in He. rewrite He. apply Z.eqb_eq in He. rewrite He.
        apply Qle_refl.
      * apply Qle_trans with (Np.at_ fp (j + 1)); [apply Hb; lia|apply fp_mono; lia].
Qed.

Lemma interp_value_mono (x x' v v' : Q) :
  x <= x' -> interp_value xp fp x v -> interp_value xp fp x' v' -> v <= v'.
Proof.
  pose proof len_pos as Hpos.
  intros Hxx Hv Hv'.
  pose proof (interp_value_bounds _ _ Hv) as Bv.
  pose proof (interp_value_bounds _ _ Hv') as Bv'.
  destruct Hv as (j & Hj & Ev). destruct Hv' as (j' & Hj' & Ev').
  assert (Np.at_ xp 0 <= Np.at_ xp (Np.len xp - 1)) as Hends
      by (apply at_mono; auto; lia).
  destruct Hj' as [[Hx' ->]|[[Hx' ->]|Hloc']].
  { (* x' beyond the last sample point *)
    subst v'. unfold Np.interp_at.
    destruct (Np.len xp =? -1)%Z eqn:E1; [apply Z.eqb_eq in E1; lia|].
    rewrite Z.eqb_refl. apply Bv. }
  { (* x' below the first sample point: so is x *)
    destruct Hj as [[Hx ->]|[[Hx ->]|Hloc]].
    - exfalso. lra.
    - subst. apply Qle_refl.
    - exfalso. destruct Hloc as (Hj & Hle & _).
      assert (Np.at_ xp 0 <= Np.at_ xp j) by (apply at_mono; auto; lia). lra. }
  destruct Hj as [[Hx ->]|[[Hx ->]|Hloc]].
  { (* x beyond the last sample point: x' is at the last index *)
    destruct Hloc' as (Hj' & Hle' & Hlt').
    destruct (Z.eq_dec j' (Np.len xp - 1)) as [He|Hn].
    - subst v v'. unfold Np.interp_at.
      destruct (Np.len xp =? -1)%Z eqn:E1; [apply Z.eqb_eq in E1; lia|].
      rewrite Z.eqb_refl.
      destruct (j' =? -1)%Z eqn:E2; [apply Z.eqb_eq in E2; lia|].
      destruct (j' =? Np.len xp)%Z eqn:E3; [apply Z.eqb_eq in E3; lia|].
      apply Z.eqb_eq in He. rewrite He. apply Z.eqb_eq in He. rewrite He.
      apply Qle_refl.
    - exfalso.
      assert (x' < Np.at_ xp (j' + 1)) by (apply Hlt'; lia).
      assert (Np.at_ xp (j' + 1) <= Np.at_ xp (Np.len xp - 1))
        by (apply at_mono; auto; lia).
      lra. }
  { subst v. unfold Np.interp_at at 1. simpl. apply Bv'. }
  (* both inside the range of the sample points *)
  destruct (located_value _ _ Hloc) as [Ha Hb].
  destruct (located_value _ _ Hloc') as [Ha' Hb'].
  destruct Hloc as (Hj & Hle & Hlt). destruct Hloc' as (Hj' & Hle' & Hlt').
  destruct (Z.compare_spec j j') as [He|Hjj|Hjj].
  - subst j'. subst v v'. unfold Np.interp_at.
    destruct (j =? -1)%Z eqn:E1; [apply Qle_refl|].
    destruct (j =? Np.len xp)%Z eqn:E2; [apply Qle_refl|].
    destruct (j =? Np.len xp - 1)%Z eqn:E3; [apply Qle_refl|].
    apply Z.eqb_neq in E3.
    apply lerp_mono; auto.
    + apply fp_mono; lia.
    + apply Hlt'. lia.
  - subst v v'.
    apply Qle_trans with (Np.at_ fp (j + 1)); [apply Hb; lia|].
    apply Qle_trans with (Np.at_ fp j'); [apply fp_mono; lia|exact Ha'].
  - exfalso.
    assert (x' < Np.at_ xp (j' + 1)) by (apply Hlt'; lia).
    assert (Np.at_ xp (j' + 1) <= Np.at_ xp j) by (apply at_mono; auto; lia).
    lra.
Qed.

End Interp.

(** ** Counting the elements below a bound *)

Section Counting.

Local Open Scope Q_scope.

Lemma Qle_bool_proper (a b c d : Q) :
  a == b -> c == d -> Qle_bool a c = Qle_bool b d.
Proof.
  intros Hab Hcd.
  destruct (Qle_bool a c) eqn:E1, (Qle_bool b d) eqn:E2; auto.
  - apply Qle_bool_iff in E1. apply Qle_bool_lt in E2. exfalso. lra.
  - apply Qle_bool_iff in E2. apply Qle_bool_lt in E1. exfalso. lra.
Qed.

Lemma Qltb_proper (a b c d : Q) :
  a == b -> c == d -> Np.Qltb a c = Np.Qltb b d.
Proof.
  intros Hab Hcd. unfold Np.Qltb. f_equal. now apply Qle_bool_proper.
Qed.

Lemma count_le_cons (x a : Q) (l : list Q) :
  count_le x (a :: l) = ((if Qle_bool a x then 1 else 0) + count_le x l)%nat.
Proof. unfold count_le. simpl. now destruct (Qle_bool a x). Qed.

Lemma count_lt_cons (x a : Q) (l : list Q) :
  count_lt x (a :: l) = ((if Np.Qltb a x then 1 else 0) + count_lt x l)%nat.
Proof. unfold count_lt. simpl. now destruct (Np.Qltb a x). Qed.




Lemma count_lt_le (x : Q) (l : list Q) : (count_lt x l <= count_le x l)%nat.
Proof.
  induction l as [|a l IH]; [apply Nat.le_refl|].
  rewrite count_le_cons, count_lt_cons.
  destruct (Np.Qltb a x) eqn:E1, (Qle_bool a x) eqn:E2; try lia.
  apply Qltb_lt in E1. apply Qle_bool_lt in E2. exfalso. lra.
Qed.


















End Counting.

(** ** [np.interp] at the sample points *)

Section Knots.

Local Open Scope Q_scope.

Lemma Forall2_nth_rel {A B : Type} (R : A -> B -> Prop) (l : list A) (l' : list B)
    (k : nat) (d : A) (d' : B) :
  Forall2 R l l' -> (k < length l)%nat -> R (nth k l d) (nth k l' d').
Proof.
  intros H. revert k. induction H as [|a b l l' Hab _ IH]; intros k Hk; simpl in Hk.
  - lia.
  - destruct k as [|k]; simpl; [exact Hab|apply IH; lia].
Qed.


Lemma interp_ok (x xp fp : list Q) :
  xp <> [] -> length fp = length xp -> exists r, Np.interp x xp fp = Ok r.
Proof.
  intros Hne Hlen. unfold Np.interp, Np.len.
  destruct (Z.of_nat (length xp) =? 0)%Z eqn:E0.
  { apply Z.eqb_eq in E0. destruct xp; [congruence|simpl in E0; lia]. }
  rewrite Hlen, Z.eqb_refl. simpl.
  destruct (Z.of_nat (length xp) =? 1)%Z; eauto.
Qed.

Variables xp fp : list Q.
Hypothesis xp_ascending : nondecreasing xp.
Hypothesis xp_nonempty : xp <> [].




End Knots.

(** ** The blend of percentiles *)

Section Blend.

Local Open Scope Q_scope.

Import PercentileBlendingAggregator.



Lemma mapM_Forall {A B : Type} (f : A -> res B) (P : B -> Prop) (l : list A) :
  (forall a, In a l -> exists b, f a = Ok b /\ P b) ->
  exists bs, mapM f l = Ok bs /\ length bs = length l /\ Forall P bs.
Proof.
  induction l as [|a l IH]; intros H; simpl.
  - exists []. repeat split. constructor.
  - destruct (H a (or_introl eq_refl)) as (b & Hb & Pb).
    destruct IH as (bs & Hbs & Hlen & HP); [intros; apply H; now right|].
    exists (b :: bs). rewrite Hb, Hbs. simpl. repeat split; auto.
Qed.

Lemma map_nth_range (w : list Q) :
  map (fun j => nth j w 0) (seq 0 (length w)) = w.
Proof.
  induction w as [|a w IH]; [reflexivity|].
  simpl. f_equal. rewrite <- seq_shift, map_map. exact IH.
Qed.

Lemma length_concat_rows (rows : list (list Q)) (n : nat) :
  Forall (fun row => length row = n) rows ->
  length (concat rows) = (length rows * n)%nat.
Proof.
  induction 1 as [|row rows Hrow _ IH]; [reflexivity|].
  simpl. rewrite length_app, IH, Hrow. reflexivity.
Qed.

Lemma interp_inv (x xp fp r : list Q) :
  Np.interp x xp fp = Ok r -> xp <> [] /\ length fp = length xp.
Proof.
  unfold Np.interp, Np.len.
  destruct (Z.of_nat (length xp) =? 0)%Z eqn:E0; [discriminate|].
  destruct (Z.of_nat (length fp) =? Z.of_nat (length xp))%Z eqn:E1;
    [|discriminate].
  intros _. apply Z.eqb_neq in E0. apply Z.eqb_eq in E1.
  split; [|lia]. intros ->. now apply E0.
Qed.

Lemma nth_iadd (acc v : list Q) :
  length v = length acc ->
  exists acc', Np.iadd acc v = Ok acc' /\ length acc' = length acc /\
               forall k : nat, (k < length acc)%nat ->
                 nth k acc' 0 = nth k acc 0 + nth k v 0.
Proof.
  intros Hlen. unfold Np.iadd.
  rewrite Hlen, Nat.eqb_refl. eexists. split; [reflexivity|]. split.
  - rewrite length_map, length_combine. lia.
  - revert v Hlen. induction acc as [|a acc IH]; intros [|b v] Hlen k Hk;
      simpl in *; try lia.
    destruct k as [|k]; [reflexivity|]. apply IH; lia.
Qed.



Variable perc_values : list (list Q).
Variables percentiles weights : list Q.




End Blend.

Section BlendTheorems.

Local Open Scope Q_scope.

Import PercentileBlendingAggregator.





(** The final interpolation clamps to the sorted values: what
    [blend_percentiles] returns lies between the smallest and the largest
    entry of [perc_values]. *)
Lemma result_within_range
    (perc_values : list (list Q)) (percentiles weights r : list Q) (lo hi : Q) :
  blend_percentiles perc_values percentiles weights = Ok r ->
  is_minimum lo (Np.flatten perc_values) ->
  is_maximum hi (Np.flatten perc_values) ->
  Forall (fun v => lo <= v <= hi) r.
Proof.
  unfold blend_percentiles. intros H [_ Hlo] [_ Hhi].
  destruct (mapM _ _) as [cp|e]; [|discriminate]. cbn [bind] in H.
  set (xp := Np.sort (Np.flatten cp)) in *.
  set (fp := Np.sort (Np.flatten perc_values)) in *.
  destruct (interp_inv _ _ _ _ H) as (Hne & Hlen).
  pose proof (interp_values xp fp (sort_nondecreasing _) Hne _ _ H) as Hv.
  assert (0 < length fp)%nat as Hpos
      by (rewrite Hlen; destruct xp; [congruence|simpl; lia]).
  assert (forall v, In v r -> lo <= v <= hi) as Hall; [|now apply Forall_forall].
  intros v Hin.
  assert (exists x, interp_value xp fp x v) as (x & Hx).
  { clear -Hv Hin. induction Hv as [|x0 v0 xs vs H0 _ IH]; [destruct Hin|].
    destruct Hin as [<-|Hin]; eauto. }
  destruct (interp_value_bounds xp fp (sort_nondecreasing _) Hne Hlen
                                (sort_nondecreasing _) x v Hx) as (Ha & Hb).
  split.
  - apply Qle_trans with (Np.at_ fp 0); [|exact Ha].
    apply Hlo. apply sort_In. apply nth_In. unfold fp in Hpos. simpl. lia.
  - apply Qle_trans with (Np.at_ fp (Np.len xp - 1)); [exact Hb|].
    apply Hhi. apply sort_In. apply nth_In. unfold Np.len. fold fp. lia.
Qed.

(** The final interpolation is over two ascending arrays: what
    [blend_percentiles] returns at non-decreasing percentiles is
    non-decreasing. *)
Lemma result_nondecreasing
    (perc_values : list (list Q)) (percentiles weights r : list Q) :
  blend_percentiles perc_values percentiles weights = Ok r ->
  nondecreasing percentiles -> nondecreasing r.
Proof.
  unfold blend_percentiles. intros H Hp.
  destruct (mapM _ _) as [cp|e]; [|discriminate]. cbn [bind] in H.
  set (xp := Np.sort (Np.flatten cp)) in *.
  set (fp := Np.sort (Np.flatten perc_values)) in *.
  destruct (interp_inv _ _ _ _ H) as (Hne & Hlen).
  pose proof (interp_values xp fp (sort_nondecreasing _) Hne _ _ H) as Hv.
  pose proof (Forall2_length Hv) as Hl.
  intros i j Hij.
  apply (interp_value_mono xp fp (sort_nondecreasing _) Hne Hlen
                           (sort_nondecreasing _)
                           (nth i percentiles 0) (nth j percentiles 0)).
  - apply Hp. lia.
  - apply Forall2_nth_rel; [exact Hv|lia].
  - apply Forall2_nth_rel; [exact Hv|lia].
Qed.

End BlendTheorems.

(** ** The blend is defined on well-shaped input *)

Section BlendTotal.

Local Open Scope Q_scope.

Import PercentileBlendingAggregator.

Lemma interp_loop_length (xp fp xs : list Q) (j : Z) :
  length (Np.interp_loop xp fp xs j) = length xs.
Proof.
  revert j. induction xs as [|x xs IH]; intros j; simpl; [reflexivity|].
  now rewrite IH.
Qed.

Lemma interp_result_length (x xp fp r : list Q) :
  Np.interp x xp fp = Ok r -> length r = length x.
Proof.
  unfold Np.interp.
  destruct (Np.len xp =? 0)%Z; [discriminate|].
  destruct (negb (Np.len fp =? Np.len xp)%Z); [discriminate|].
  destruct (Np.len xp =? 1)%Z; intros H; inversion H; subst.
  - apply length_map.
  - apply interp_loop_length.
Qed.

Variable perc_values : list (list Q).
Variables percentiles weights : list Q.
Hypothesis rows_length :
  Forall (fun row => length row = length percentiles) perc_values.
Hypothesis levels : percentiles <> [].
Hypothesis enough_weights : (length perc_values <= length weights)%nat.

Lemma row_length (i : nat) :
  (i < length perc_values)%nat ->
  length (nth i perc_values []) = length percentiles.
Proof.
  intros Hi. rewrite Forall_forall in rows_length.
  apply rows_length, nth_In, Hi.
Qed.

Lemma blend_row_ok (i : nat) (js : list nat) (acc : list Q) :
  (i < length perc_values)%nat ->
  (forall j, In j js -> (j < length perc_values)%nat) ->
  length acc = length percentiles ->
  exists acc',
    blend_row perc_values percentiles weights i acc js = Ok acc' /\
    length acc' = length percentiles.
Proof.
  intros Hi. revert acc. induction js as [|j js IH]; intros acc Hjs Hacc.
  - exists acc. split; [reflexivity|exact Hacc].
  - assert (j < length perc_values)%nat as Hj by (apply Hjs; now left).
    simpl. unfold blend_step.
    assert (exists v,
              (if (i =? j)%nat then Ok percentiles
               else Np.interp (nth i perc_values []) (nth j perc_values [])
                              percentiles) = Ok v /\
              length v = length percentiles) as (v & Hv & Hlv).
    { destruct (i =? j)%nat; [eauto|].
      destruct (interp_ok (nth i perc_values []) (nth j perc_values []) percentiles)
        as (v & Hv).
      - intros E. pose proof (row_length j Hj) as Hl. rewrite E in Hl.
        destruct percentiles; [congruence|discriminate].
      - now rewrite row_length.
      - exists v. split; [exact Hv|].
        rewrite (interp_result_length _ _ _ _ Hv). now apply row_length. }
    rewrite Hv. cbn [bind]. unfold weight_at.
    destruct (nth_error weights j) as [wj|] eqn:Ew;
      [|apply nth_error_None in Ew; lia].
    cbn [bind].
    destruct (nth_iadd acc (Np.scale v wj)) as (acc1 & Hadd & Hlen1 & _).
    { unfold Np.scale. rewrite length_map. congruence. }
    rewrite Hadd. cbn [bind].
    apply IH; [|congruence]. intros j' Hj'. apply Hjs. now right.
Qed.

Theorem blend_percentiles_ok :
  perc_values <> [] ->
  exists r,
    blend_percentiles perc_values percentiles weights = Ok r /\
    length r = length percentiles.
Proof.
  intros Hne. unfold blend_percentiles. cbv zeta.
  destruct (mapM_Forall
              (fun i => blend_row perc_values percentiles weights i
                          (Np.zeros (length percentiles))
                          (range (length perc_values)))
              (fun row => length row = length percentiles)
              (range (length perc_values))) as (cp & Hcp & Hlen & HP).
  { intros i Hi. apply in_seq in Hi.
    apply blend_row_ok; [lia| |apply repeat_length].
    intros j Hj. apply in_seq in Hj. lia. }
  rewrite Hcp. cbn [bind].
  unfold range in Hlen. rewrite length_seq in Hlen.
  destruct (interp_ok percentiles (Np.sort (Np.flatten cp))
                      (Np.sort (Np.flatten perc_values))) as (r & Hr).
  - intros E. apply (f_equal (@Datatypes.length Q)) in E.
    rewrite sort_length in E. unfold Np.flatten in E.
    rewrite (length_concat_rows _ _ HP), Hlen in E. simpl in E.
    destruct perc_values; [congruence|]. destruct percentiles; [congruence|].
    simpl in E. lia.
  - rewrite !sort_length. unfold Np.flatten.
    rewrite (length_concat_rows _ _ HP), (length_concat_rows _ _ rows_length).
    now rewrite Hlen.
  - exists r. split; [exact Hr|]. apply (interp_result_length _ _ _ _ Hr).
Qed.

End BlendTotal.

(** ** The range and the order of the blend *)

Section BlendResult.

Local Open Scope Q_scope.

Import PercentileBlendingAggregator.

(** C9: in exact arithmetic, for a matrix [perc_values] with a smallest
    and a largest entry, every component of a vector [blend_percentiles]
    returns lies between the two; and [blend_percentiles] does return a
    vector when every row is as long as the percentile vector, that
    vector is not empty and there is a weight for every row.  In doubles
    a component can be infinite: see [Binary64.blend_percentiles]. *)
Theorem blend_percentiles_within_range
    (perc_values : list (list Q)) (percentiles weights : list Q) (lo hi : Q) :
  is_minimum lo (Np.flatten perc_values) ->
  is_maximum hi (Np.flatten perc_values) ->
  (forall r, blend_percentiles perc_values percentiles weights = Ok r ->
             Forall (fun v => lo <= v <= hi) r) /\
  (Forall (fun row => length row = length percentiles) perc_values ->
   percentiles <> [] -> (length perc_values <= length weights)%nat ->
   exists r, blend_percentiles perc_values percentiles weights = Ok r).
Proof.
  intros Hlo Hhi. split.
  - intros r Hr.
    exact (result_within_range perc_values percentiles weights r lo hi Hr Hlo Hhi).
  - intros Hrows Hlevels Hweights.
    destruct (blend_percentiles_ok perc_values percentiles weights
                Hrows Hlevels Hweights) as (r & Hr & _); [|eauto].
    intros ->. destruct Hlo as [[] _].
Qed.

(** C10: in exact arithmetic, at a non-decreasing percentile vector, a
    vector [blend_percentiles] returns is non-decreasing; and
    [blend_percentiles] does return a vector when the matrix has a row,
    every row is as long as the percentile vector, that vector is not
    empty and there is a weight for every row.  In doubles a component
    can be infinite and greater than the next: see
    [Binary64.blend_percentiles]. *)
Theorem blend_percentiles_monotone
    (perc_values : list (list Q)) (percentiles weights : list Q) :
  nondecreasing percentiles ->
  (forall r, blend_percentiles perc_values percentiles weights = Ok r ->
             nondecreasing r) /\
  (perc_values <> [] ->
   Forall (fun row => length row = length percentiles) perc_values ->
   percentiles <> [] -> (length perc_values <= length weights)%nat ->
   exists r, blend_percentiles perc_values percentiles weights = Ok r).
Proof.
  intros Hp. split.
  - intros r Hr.
    exact (result_nondecreasing perc_values percentiles weights r Hr Hp).
  - intros Hne Hrows Hlevels Hweights.
    destruct (blend_percentiles_ok perc_values percentiles weights
                Hrows Hlevels Hweights Hne) as (r & Hr & _). eauto.
Qed.

End BlendResult.

(** ** Shapes *)

Section Shapes.

Lemma map_nth_filter_cons (keep : nat -> bool) (x : nat) (l : list nat) (off : nat) :
  map (fun i => nth (i - off) (x :: l) 0) (filter keep (seq off (S (length l)))) =
  (if keep off then [x] else []) ++
  map (fun i => nth (i - S off) l 0) (filter keep (seq (S off) (length l))).
Proof.
  simpl seq. simpl filter.
  assert (map (fun i => nth (i - off) (x :: l) 0) (filter keep (seq (S off) (length l)))
          = map (fun i => nth (i - S off) l 0) (filter keep (seq (S off) (length l))))
    as Htail.
  { apply map_ext_in. intros i Hi. apply filter_In in Hi. destruct Hi as [Hi _].
    apply in_seq in Hi. replace (i - off) with (S (i - S off)) by lia. reflexivity. }
  destruct (keep off).
  - cbn [map app]. rewrite Htail, Nat.sub_diag. reflexivity.
  - cbn [app]. exact Htail.
Qed.

Lemma map_nth_filter_app (keep : nat -> bool) (A R : list nat) (off : nat) :
  map (fun i => nth (i - off) (A ++ R) 0)
      (filter keep (seq off (length (A ++ R)))) =
  map (fun i => nth (i - off) A 0) (filter keep (seq off (length A))) ++
  map (fun i => nth (i - (off + length A)) R 0)
      (filter keep (seq (off + length A) (length R))).
Proof.
  revert off. induction A as [|a A IH]; intros off.
  - simpl. now rewrite Nat.add_0_r.
  - change ((a :: A) ++ R) with (a :: (A ++ R)).
    change (length (a :: A ++ R)) with (S (length (A ++ R))).
    change (length (a :: A)) with (S (length A)).
    rewrite !map_nth_filter_cons, IH, <- app_assoc.
    replace (S off + length A) with (off + S (length A)) by lia. reflexivity.
Qed.

Lemma map_nth_filter_all (keep : nat -> bool) (A : list nat) (off : nat) :
  (forall i, off <= i < off + length A -> keep i = true) ->
  map (fun i => nth (i - off) A 0) (filter keep (seq off (length A))) = A.
Proof.
  revert off. induction A as [|a A IH]; intros off H; [reflexivity|].
  change (length (a :: A)) with (S (length A)).
  rewrite map_nth_filter_cons, H by (simpl; lia).
  simpl. f_equal. apply IH. intros i Hi. apply H. simpl. lia.
Qed.

(** The shape left when two dimensions are taken out. *)
Lemma rest_shape_split (A B C : list nat) (x y : nat) (src : list nat) :
  (forall i, existsb (Nat.eqb i) src = true <->
             i = length A \/ i = length A + 1 + length B) ->
  map (fun ax => nth ax (A ++ x :: B ++ y :: C) 0)
      (filter (fun n => negb (existsb (Nat.eqb n) src))
              (range (length (A ++ x :: B ++ y :: C)))) = A ++ B ++ C.
Proof.
  intros Hsrc. set (keep := fun n => negb (existsb (Nat.eqb n) src)).
  assert (forall i, keep i = true <->
                    i <> length A /\ i <> length A + 1 + length B) as Hkeep.
  { intros i. unfold keep. rewrite negb_true_iff.
    destruct (existsb (Nat.eqb i) src) eqn:E.
    - apply Hsrc in E. split; [discriminate|]. lia.
    - split; [|reflexivity]. intros _.
      split; intros Hi; assert (existsb (Nat.eqb i) src = true) as E'
        by (apply Hsrc; auto); congruence. }
  assert (forall i, keep i = false <->
                    i = length A \/ i = length A + 1 + length B) as Hdrop.
  { intros i. destruct (keep i) eqn:E.
    - apply Hkeep in E. split; [discriminate|lia].
    - split; [|reflexivity]. intros _.
      destruct (Nat.eq_dec i (length A)); auto.
      destruct (Nat.eq_dec i (length A + 1 + length B)); auto.
      assert (keep i = true) by (apply Hkeep; auto). congruence. }
  unfold range.
  transitivity
    (map (fun i => nth (i - 0) (A ++ x :: B ++ y :: C) 0)
         (filter keep (seq 0 (length (A ++ x :: B ++ y :: C))))).
  { apply map_ext. intros i. now rewrite Nat.sub_0_r. }
  rewrite map_nth_filter_app.
  rewrite map_nth_filter_all by (intros i Hi; apply Hkeep; lia).
  f_equal.
  change (length (x :: B ++ y :: C)) with (S (length (B ++ y :: C))).
  rewrite map_nth_filter_cons.
  match goal with
  | |- context [if keep ?i then _ else _] =>
      replace (keep i) with false by (symmetry; apply Hdrop; lia)
  end.
  simpl app at 1.
  rewrite map_nth_filter_app.
  rewrite map_nth_filter_all by (intros i Hi; apply Hkeep; lia).
  f_equal.
  change (length (y :: C)) with (S (length C)).
  rewrite map_nth_filter_cons.
  match goal with
  | |- context [if keep ?i then _ else _] =>
      replace (keep i) with false by (symmetry; apply Hdrop; lia)
  end.
  simpl app at 1.
  apply map_nth_filter_all. intros i Hi. apply Hkeep. lia.
Qed.

Lemma split_at (sh : list nat) (i : nat) :
  i < length sh ->
  sh = firstn i sh ++ nth i sh 0 :: skipn (S i) sh /\ length (firstn i sh) = i.
Proof.
  revert i. induction sh as [|a sh IH]; intros i Hi; simpl in Hi; [lia|].
  destruct i as [|i]; [split; reflexivity|].
  destruct (IH i) as (H1 & H2); [lia|].
  simpl. split; [f_equal; exact H1|now rewrite H2].
Qed.

(** A list with two marked positions. *)
Lemma split_two (sh : list nat) (i j : nat) :
  i < j -> j < length sh ->
  exists A B C,
    sh = A ++ nth i sh 0 :: B ++ nth j sh 0 :: C /\
    length A = i /\ length A + 1 + length B = j.
Proof.
  intros Hij Hj.
  destruct (split_at sh i) as (H1 & H2); [lia|].
  set (T := skipn (S i) sh) in *.
  assert (length T = length sh - S i) as HT by (unfold T; apply length_skipn).
  destruct (split_at T (j - S i)) as (H3 & H4); [lia|].
  assert (nth (j - S i) T 0 = nth j sh 0) as Hn.
  { unfold T. rewrite nth_skipn. f_equal. lia. }
  exists (firstn i sh), (firstn (j - S i) T), (skipn (S (j - S i)) T).
  rewrite <- Hn, <- H3. repeat split; auto. lia.
Qed.

Lemma filter_nonzero_range (n : nat) :
  filter (fun k => negb (existsb (Nat.eqb k) [0])) (range (S n)) = seq 1 n.
Proof.
  unfold range. simpl. apply forallb_filter_id.
  apply forallb_forall. intros k Hk. apply in_seq in Hk.
  simpl. destruct k; [lia|reflexivity].
Qed.

Lemma map_nth_seq_tail (x : nat) (l : list nat) :
  map (fun i => nth i (x :: l) 0) (seq 1 (length l)) = l.
Proof.
  rewrite <- seq_shift, map_map. simpl.
  induction l as [|a l IH]; [reflexivity|].
  simpl. f_equal. rewrite <- seq_shift, map_map. exact IH.
Qed.

End Shapes.

(** ** PercentileBlendingAggregator.aggregate *)

Section Aggregate.

Import PercentileBlendingAggregator.

Lemma normalize_axis_index_nat (k nd : nat) :
  k < nd -> Nd.normalize_axis_index (Z.of_nat k) nd = Ok k.
Proof.
  intros Hk. unfold Nd.normalize_axis_index.
  assert ((- Z.of_nat nd <=? Z.of_nat k)%Z = true) as -> by (apply Z.leb_le; lia).
  assert ((Z.of_nat k <? Z.of_nat nd)%Z = true) as -> by (apply Z.ltb_lt; lia).
  assert ((Z.of_nat k <? 0)%Z = false) as -> by (apply Z.ltb_ge; lia).
  simpl. now rewrite Nat2Z.id.
Qed.

Lemma moveaxis_front (data : Nd.ndarray) (pd ax : nat) :
  pd < Nd.ndim data -> ax < Nd.ndim data -> pd <> ax ->
  Nd.moveaxis data [Z.of_nat pd; Z.of_nat ax] [1%Z; 0%Z] =
  Ok (Nd.transpose data
        (ax :: pd :: filter (fun n => negb (existsb (Nat.eqb n) [pd; ax]))
                            (range (Nd.ndim data)))).
Proof.
  intros Hpd Hax Hne. unfold Nd.moveaxis, Nd.normalize_axis_tuple.
  cbn [mapM]. rewrite !normalize_axis_index_nat by assumption. cbn [bind].
  assert (Nd.has_duplicates [pd; ax] = false) as ->.
  { simpl. apply Nat.eqb_neq in Hne. now rewrite Hne. }
  change 1%Z with (Z.of_nat 1). change 0%Z with (Z.of_nat 0).
  rewrite !normalize_axis_index_nat by lia. cbn [bind].
  reflexivity.
Qed.

Lemma moveaxis_back (a : Nd.ndarray) (dest : nat) :
  dest < Nd.ndim a ->
  Nd.moveaxis a [0%Z] [Z.of_nat dest] =
  Ok (Nd.transpose a (firstn dest (seq 1 (Nd.ndim a - 1)) ++
                      0 :: skipn dest (seq 1 (Nd.ndim a - 1)))).
Proof.
  intros Hd. unfold Nd.moveaxis, Nd.normalize_axis_tuple.
  cbn [mapM]. change 0%Z with (Z.of_nat 0).
  rewrite !normalize_axis_index_nat by lia. cbn [bind Nd.has_duplicates existsb orb].
  cbn [length Nat.eqb negb].
  unfold Nd.moveaxis_order. cbn [combine Nd.sorted_pairs Nd.insert_pair fold_left fst snd].
  unfold Nd.list_insert.
  destruct (Nd.ndim a) as [|n] eqn:E; [lia|].
  rewrite filter_nonzero_range. replace (S n - 1) with n by lia. reflexivity.
Qed.

Lemma slice_last_rows (data : Nd.ndarray) (i : nat) :
  length (Nd.slice_last data i) = nth 0 (Nd.shape data) 0 /\
  Forall (fun row => length row = nth 1 (Nd.shape data) 0) (Nd.slice_last data i).
Proof.
  unfold Nd.slice_last, range. split.
  - now rewrite length_map, length_seq.
  - apply Forall_forall. intros row Hrow. apply in_map_iff in Hrow.
    destruct Hrow as (s & <- & _). now rewrite length_map, length_seq.
Qed.

Lemma set_column_shape (result : Nd.ndarray) (i : nat) (col : list Q) :
  length col = nth 0 (Nd.shape result) 0 ->
  exists r, Nd.set_column result i col = Ok r /\ Nd.shape r = Nd.shape result.
Proof.
  intros Hlen. unfold Nd.set_column. rewrite Hlen, Nat.eqb_refl.
  eexists. split; reflexivity.
Qed.

Lemma aggregate_loop_shape (data : Nd.ndarray) (p w : list Q)
    (result : Nd.ndarray) (ixs : list nat) :
  (forall i, In i ixs ->
     exists col, blend_percentiles (Nd.slice_last data i) p w = Ok col /\
                 length col = nth 0 (Nd.shape result) 0) ->
  exists r, aggregate_loop data p w result ixs = Ok r /\
            Nd.shape r = Nd.shape result.
Proof.
  revert result. induction ixs as [|i ixs IH]; intros result H.
  - exists result. split; reflexivity.
  - destruct (H i (or_introl eq_refl)) as (col & Hcol & Hlen).
    destruct (set_column_shape result i col Hlen) as (r1 & Hr1 & Hs1).
    simpl. rewrite Hcol. cbn [bind]. rewrite Hr1. cbn [bind].
    destruct (IH r1) as (r & Hr & Hs).
    + intros j Hj. rewrite Hs1. apply H. now right.
    + exists r. split; [exact Hr|congruence].
Qed.

(** The shape of the result when the blend dimension comes before the
    percentile dimension and when it comes after. *)
Lemma remove_at_app (A R : list nat) (x : nat) :
  remove_at (length A) (A ++ x :: R) = A ++ R.
Proof.
  unfold remove_at. induction A as [|a A IH]; [reflexivity|].
  simpl. f_equal. exact IH.
Qed.

Lemma insert_app (P S : list nat) (y : nat) :
  firstn (length P) (P ++ S) ++ y :: skipn (length P) (P ++ S) = P ++ y :: S.
Proof.
  rewrite firstn_app, firstn_all, Nat.sub_diag.
  rewrite skipn_app, skipn_all, Nat.sub_diag. simpl. now rewrite app_nil_r.
Qed.

Lemma shape_after_blend (sh : list nat) (ax pd : nat) :
  ax < length sh -> pd < length sh -> ax <> pd ->
  let rest := map (fun d => nth d sh 0)
                  (filter (fun n => negb (existsb (Nat.eqb n) [pd; ax]))
                          (range (length sh))) in
  let dest := if ax <? pd then pd - 1 else pd in
  length rest = length sh - 2 /\ dest < length sh - 1 /\
  firstn dest rest ++ nth pd sh 0 :: skipn dest rest = remove_at ax sh.
Proof.
  intros Hax Hpd Hne.
  assert (forall a b i, existsb (Nat.eqb i) [a; b] = true <-> i = a \/ i = b) as Hex.
  { intros a b i. simpl. rewrite !orb_true_iff, !Nat.eqb_eq. intuition congruence. }
  destruct (Nat.lt_ge_cases ax pd) as [Hlt|Hge].
  - destruct (split_two sh ax pd Hlt Hpd) as (A & B & C & Hsh & HA & HB).
    assert ((ax <? pd) = true) as -> by (now apply Nat.ltb_lt).
    remember (nth pd sh 0) as y eqn:Ey. remember (nth ax sh 0) as x eqn:Ex.
    clear Ex Ey Hax Hpd. subst sh. cbv zeta.
    rewrite (rest_shape_split A B C x y [pd; ax])
      by (intros i; rewrite Hex; lia).
    rewrite !length_app. cbn [length]. rewrite !length_app. cbn [length].
    repeat split; try lia.
    rewrite <- HA, remove_at_app, !app_assoc.
    replace (pd - 1) with (length (A ++ B)) by (rewrite length_app; lia).
    apply insert_app.
  - assert (pd < ax) as Hlt by lia.
    destruct (split_two sh pd ax Hlt Hax) as (A & B & C & Hsh & HA & HB).
    assert ((ax <? pd) = false) as -> by (apply Nat.ltb_ge; lia).
    remember (nth pd sh 0) as y eqn:Ey. remember (nth ax sh 0) as x eqn:Ex.
    clear Ex Ey Hax Hpd. subst sh. cbv zeta.
    rewrite (rest_shape_split A B C y x [pd; ax])
      by (intros i; rewrite Hex; lia).
    rewrite !length_app. cbn [length]. rewrite !length_app. cbn [length].
    repeat split; try lia.
    rewrite <- HA at 1 2. rewrite insert_app.
    replace ax with (length (A ++ y :: B)) by (rewrite length_app; simpl; lia).
    change (A ++ y :: B ++ x :: C) with (A ++ (y :: B) ++ x :: C).
    rewrite (app_assoc A (y :: B)), remove_at_app.
    now rewrite <- app_assoc.
Qed.


End Aggregate.

(** ** The checks of [WeightedBlendAcrossWholeDimension.process] *)

Section Checks.

Import iris_cube.
Import WeightedBlendAcrossWholeDimension.

Lemma scan_count (l : list Coord) (st : nat * option Coord) :
  fst (fold_left scan_step l st) = fst st + length (filter is_percentile l).
Proof.
  revert st. induction l as [|c l IH]; intros st; simpl; [lia|].
  rewrite IH. unfold scan_step, is_percentile.
  destruct (find (name c) "percentile" >=? 0)%Z; simpl; lia.
Qed.

Lemma scan_none (l : list Coord) (st : nat * option Coord) :
  filter is_percentile l = [] -> fold_left scan_step l st = st.
Proof.
  revert st. induction l as [|c l IH]; intros st H; simpl; [reflexivity|].
  simpl in H. unfold scan_step at 2. fold (is_percentile c).
  destruct (is_percentile c); [discriminate|]. now apply IH.
Qed.

Lemma scan_one (l : list Coord) (st : nat * option Coord) (pc : Coord) :
  filter is_percentile l = [pc] ->
  fold_left scan_step l st = (S (fst st), Some pc).
Proof.
  revert st. induction l as [|c l IH]; intros st H; simpl; [discriminate|].
  simpl in H. unfold scan_step at 2. fold (is_percentile c).
  destruct (is_percentile c).
  - inversion H; subst. now rewrite scan_none.
  - now apply IH.
Qed.

Lemma filter_coords (cube : Cube) :
  filter is_percentile (coords cube) = map fst (percentile_coords cube).
Proof.
  unfold coords, percentile_coords.
  induction (coords_and_dims cube) as [|cd l IH]; [reflexivity|].
  simpl. destruct (is_percentile (fst cd)); simpl; now rewrite IH.
Qed.

Lemma scan_percentile_fold (cube : Cube) :
  scan_percentile cube = fold_left scan_step (coords cube) (0, None).
Proof. reflexivity. Qed.

Lemma named_percentile (pc : Coord) (cd : Coord * list nat) :
  is_percentile pc = true -> named (name pc) cd = true ->
  is_percentile (fst cd) = true.
Proof.
  unfold named, is_percentile. intros Hp Hn.
  apply String.eqb_eq in Hn. now rewrite Hn.
Qed.

(** The sole percentile coordinate is found by its name. *)
Lemma lookup_sole (cube : Cube) (pc : Coord) (dims : list nat) :
  percentile_coords cube = [(pc, dims)] ->
  lookup cube (name pc) = Ok (pc, dims).
Proof.
  unfold percentile_coords, lookup. intros H.
  assert (is_percentile pc = true) as Hpc.
  { assert (In (pc, dims) (filter (fun cd => is_percentile (fst cd))
                                  (coords_and_dims cube))) as Hin
        by (rewrite H; now left).
    apply filter_In in Hin. exact (proj2 Hin). }
  assert (filter (named (name pc)) (coords_and_dims cube) = [(pc, dims)]) as ->;
    [|reflexivity].
  induction (coords_and_dims cube) as [|cd l IH]; [discriminate|].
  simpl in H. simpl.
  destruct (named (name pc) cd) eqn:En.
  - rewrite (named_percentile pc cd Hpc En) in H. inversion H; subst.
    f_equal.
    match goal with Hl : filter _ l = [] |- _ => rename Hl into Hnil end.
    clear -Hnil Hpc.
    induction l as [|cd l IH]; [reflexivity|].
    simpl in Hnil. simpl.
    destruct (named (name pc) cd) eqn:En.
    + rewrite (named_percentile pc cd Hpc En) in Hnil. discriminate.
    + destruct (is_percentile (fst cd)); [discriminate|]. now apply IH.
  - destruct (is_percentile (fst cd)) eqn:Ep.
    + inversion H; subst. unfold named in En. simpl in En.
      now rewrite String.eqb_refl in En.
    + now apply IH.
Qed.

Lemma check_percentile_none (cube : Cube) :
  percentile_coords cube = [] -> check_percentile cube = Ok None.
Proof.
  intros H. unfold check_percentile. rewrite scan_percentile_fold.
  rewrite scan_none by (now rewrite filter_coords, H). reflexivity.
Qed.

Lemma check_percentile_several (cube : Cube) :
  1 < length (percentile_coords cube) ->
  check_percentile cube = Raise (ValueError MsgSeveralPercentileCoords).
Proof.
  intros H. unfold check_percentile.
  destruct (scan_percentile cube) as [perc_found perc_coord] eqn:E.
  assert (perc_found = length (percentile_coords cube)) as Hf.
  { change perc_found with (fst (perc_found, perc_coord)). rewrite <- E.
    rewrite scan_percentile_fold, scan_count, filter_coords, length_map.
    reflexivity. }
  assert ((perc_found =? 1) = false) as -> by (apply Nat.eqb_neq; lia).
  assert ((1 <? perc_found) = true) as -> by (apply Nat.ltb_lt; lia).
  reflexivity.
Qed.

Lemma check_percentile_one (cube : Cube) (pc : Coord) (dims : list nat) :
  percentile_coords cube = [(pc, dims)] ->
  check_percentile cube =
  match dims with
  | [] => Raise (ValueError MsgPercentileNotDimension)
  | _ => if length (points pc) <? 2
         then Raise (ValueError MsgPercentileTooFewPoints)
         else Ok (Some pc)
  end.
Proof.
  intros H. unfold check_percentile. rewrite scan_percentile_fold.
  rewrite (scan_one _ _ pc) by (now rewrite filter_coords, H).
  cbn [fst Nat.eqb]. unfold coord_dims. rewrite (lookup_sole cube pc dims H).
  cbn [bind snd]. reflexivity.
Qed.

End Checks.

(** ** Which calls raise the errors of the checks *)

Section Raises.

Import iris_cube.
Import PercentileBlendingAggregator.
Import WeightedBlendAcrossWholeDimension.

Ltac raised H :=
  repeat
    match goal with
    | H' : Ok _ = Raise _ |- _ => discriminate H'
    | H' : Raise _ = Raise _ |- _ => inversion H'; subst; clear H'
    | H' : context [bind ?c _] |- _ =>
        let E := fresh "E" in destruct c eqn:E; cbn [bind] in H'
    | H' : match ?c with _ => _ end = Raise _ |- _ =>
        let E := fresh "E" in destruct c eqn:E
    end;
  try reflexivity; eauto.

Lemma mapM_raises {A B : Type} (f : A -> res B) (l : list A) (e : exn) :
  (forall a e, f a = Raise e -> check_error e = false) ->
  mapM f l = Raise e -> check_error e = false.
Proof.
  intros Hf. induction l as [|a l IH]; simpl; intros H; [discriminate|].
  destruct (f a) eqn:Ea; cbn [bind] in H.
  - destruct (mapM f l); cbn [bind] in H; [discriminate|].
    inversion H; subst. now apply IH.
  - inversion H; subst. eapply Hf; eauto.
Qed.

Lemma interp_raises (x xp fp : list Q) (e : exn) :
  Np.interp x xp fp = Raise e -> check_error e = false.
Proof. unfold Np.interp. intros H. raised H. Qed.

Lemma iadd_raises (a b : list Q) (e : exn) :
  Np.iadd a b = Raise e -> check_error e = false.
Proof. unfold Np.iadd. intros H. raised H. Qed.

Lemma blend_step_raises pv p w i acc j (e : exn) :
  blend_step pv p w i acc j = Raise e -> check_error e = false.
Proof.
  unfold blend_step, weight_at. intros H.
  raised H; try (eapply interp_raises; eassumption);
    try (eapply iadd_raises; eassumption).
Qed.

Lemma blend_row_raises pv p w i acc js (e : exn) :
  blend_row pv p w i acc js = Raise e -> check_error e = false.
Proof.
  revert acc. induction js as [|j js IH]; intros acc H; simpl in H; [discriminate|].
  destruct (blend_step pv p w i acc j) eqn:E; cbn [bind] in H.
  - eapply IH; eauto.
  - inversion H; subst. eapply blend_step_raises; eauto.
Qed.

Lemma blend_percentiles_raises pv p w (e : exn) :
  blend_percentiles pv p w = Raise e -> check_error e = false.
Proof.
  unfold blend_percentiles. intros H.
  destruct (mapM _ _) eqn:E; cbn [bind] in H.
  - eapply interp_raises; eauto.
  - inversion H; subst. eapply mapM_raises; [|exact E].
    intros a e0. apply blend_row_raises.
Qed.

Lemma normalize_axis_index_raises axis nd (e : exn) :
  Nd.normalize_axis_index axis nd = Raise e -> check_error e = false.
Proof. unfold Nd.normalize_axis_index. intros H. raised H. Qed.

Lemma normalize_axis_tuple_raises axes nd (e : exn) :
  Nd.normalize_axis_tuple axes nd = Raise e -> check_error e = false.
Proof.
  unfold Nd.normalize_axis_tuple. intros H.
  destruct (mapM _ _) eqn:E; cbn [bind] in H.
  - raised H.
  - inversion H; subst. eapply mapM_raises; [|exact E].
    intros a e0. apply normalize_axis_index_raises.
Qed.

Lemma moveaxis_raises a src dst (e : exn) :
  Nd.moveaxis a src dst = Raise e -> check_error e = false.
Proof.
  unfold Nd.moveaxis. intros H. raised H;
    eapply normalize_axis_tuple_raises; eauto.
Qed.

Lemma reshape_raises a sh (e : exn) :
  Nd.reshape a sh = Raise e -> check_error e = false.
Proof. unfold Nd.reshape. intros H. raised H. Qed.

Lemma set_column_raises r i col (e : exn) :
  Nd.set_column r i col = Raise e -> check_error e = false.
Proof. unfold Nd.set_column. intros H. raised H. Qed.

Lemma aggregate_loop_raises data p w result ixs (e : exn) :
  aggregate_loop data p w result ixs = Raise e -> check_error e = false.
Proof.
  revert result. induction ixs as [|i ixs IH]; intros result H; simpl in H;
    [discriminate|].
  destruct (blend_percentiles _ _ _) eqn:E1; cbn [bind] in H.
  - destruct (Nd.set_column _ _ _) eqn:E2; cbn [bind] in H.
    + eapply IH; eauto.
    + inversion H; subst. eapply set_column_raises; eauto.
  - inversion H; subst. eapply blend_percentiles_raises; eauto.
Qed.

Lemma aggregate_raises data axis p w perc_dim (e : exn) :
  aggregate data axis p w perc_dim = Raise e -> check_error e = false.
Proof.
  unfold aggregate. intros H.
  destruct (Nd.moveaxis _ _ _) eqn:E1; cbn [bind] in H;
    [|inversion H; subst; eapply moveaxis_raises; eauto].
  destruct (Nd.reshape _ _) eqn:E2; cbn [bind] in H;
    [|inversion H; subst; eapply reshape_raises; eauto].
  destruct (aggregate_loop _ _ _ _ _) eqn:E3; cbn [bind] in H;
    [|inversion H; subst; eapply aggregate_loop_raises; eauto].
  destruct (Nd.reshape _ _) eqn:E4 in H; cbn [bind] in H;
    [|inversion H; subst; eapply reshape_raises; eauto].
  match type of H with
  | (if ?c then _ else _) = _ => destruct c
  end; eapply moveaxis_raises; eauto.
Qed.

Lemma lookup_raises cube nm (e : exn) :
  lookup cube nm = Raise e -> e = CoordinateNotFoundError.
Proof. unfold lookup. intros H. raised H. Qed.

Lemma coord_raises cube nm (e : exn) :
  iris_cube.coord cube nm = Raise e -> e = CoordinateNotFoundError.
Proof.
  unfold iris_cube.coord. intros H.
  destruct (lookup cube nm) eqn:E; cbn [bind] in H; [discriminate|].
  inversion H; subst. eapply lookup_raises; eauto.
Qed.

Lemma coord_dims_raises cube nm (e : exn) :
  coord_dims cube nm = Raise e -> e = CoordinateNotFoundError.
Proof.
  unfold coord_dims. intros H.
  destruct (lookup cube nm) eqn:E; cbn [bind] in H; [discriminate|].
  inversion H; subst. eapply lookup_raises; eauto.
Qed.

Lemma coord_collapsed_raises c (e : exn) :
  coord_collapsed c = Raise e -> check_error e = false.
Proof. unfold coord_collapsed, minimum, maximum. intros H. raised H. Qed.

Lemma average_raises a axis w (e : exn) :
  average a axis w = Raise e -> check_error e = false.
Proof.
  unfold average. intros H.
  destruct (Nd.normalize_axis_index _ _) eqn:E; cbn [bind] in H;
    [|inversion H; subst; eapply normalize_axis_index_raises; eauto].
  raised H.
Qed.

Lemma broadcast_to_shape_raises w sh dims (e : exn) :
  broadcast_to_shape w sh dims = Raise e -> check_error e = false.
Proof. unfold broadcast_to_shape. intros H. raised H. Qed.

Lemma collapsed_raises cube nm agg (e : exn) :
  quiet agg -> collapsed cube nm agg = Raise e -> check_error e = false.
Proof.
  intros Hq. unfold collapsed. intros H.
  destruct (coord_dims cube nm) as [dims|e0] eqn:E; cbn [bind] in H;
    [|inversion H; subst; now rewrite (coord_dims_raises _ _ _ E)].
  destruct dims as [|d [|d' dims]]; [inversion H; reflexivity| |inversion H; reflexivity].
  destruct (mapM _ _) eqn:E1; cbn [bind] in H.
  - match type of H with
    | context [bind ?c _] => destruct c eqn:E2; cbn [bind] in H
    end.
    + raised H.
    + inversion H; subst. destruct agg; [eapply Hq|eapply average_raises]; eauto.
  - inversion H; subst. eapply mapM_raises; [|exact E1].
    intros cd e0 H0. cbv beta in H0.
    destruct (existsb _ _); [|discriminate].
    destruct (coord_collapsed (fst cd)) eqn:E3; cbn [bind] in H0; [discriminate|].
    inversion H0; subst. eapply coord_collapsed_raises; eauto.
Qed.

Lemma set_points_raises c pts (e : exn) :
  set_points c pts = Raise e -> check_error e = false.
Proof. unfold set_points. intros H. raised H. Qed.

Lemma adjust_coords_raises f coord_dim ks cube result (e : exn) :
  snd (adjust_coords f coord_dim ks cube result) = Raise e ->
  check_error e = false.
Proof.
  revert cube result. induction ks as [|k ks IH]; intros cube result H;
    simpl in H; [discriminate|].
  destruct (nth_error _ k) as [crd|]; [|eapply IH; eauto].
  destruct (coord_dims cube (name crd)) as [dims|e0] eqn:E1;
    [|simpl in H; inversion H; subst; now rewrite (coord_dims_raises _ _ _ E1)].
  destruct (same_dims dims coord_dim); [|eapply IH; eauto].
  destruct (iris_cube.coord cube (name crd)) as [c|e0] eqn:E2;
    [|simpl in H; inversion H; subst; now rewrite (coord_raises _ _ _ E2)].
  destruct (set_points crd (f (points c))) as [crd'|e0] eqn:E3;
    [|simpl in H; inversion H; subst; eapply set_points_raises; eauto].
  destruct (write_coord cube result k crd') as [cube' result'].
  eapply IH; eauto.
Qed.

End Raises.

(** ** WeightedBlendAcrossWholeDimension.process: errors and warning *)

Section ProcessErrors.

Import iris_cube.
Import WeightedBlendAcrossWholeDimension.

Local Open Scope res_scope.

Lemma check_percentile_raises (cube : Cube) (e : exn) :
  check_percentile cube = Raise e -> PercentileDimensionError e.
Proof.
  unfold PercentileDimensionError.
  destruct (percentile_coords cube) as [|[pc dims] [|cd l]] eqn:E.
  - rewrite (check_percentile_none cube E). discriminate.
  - rewrite (check_percentile_one cube pc dims E).
    destruct dims; [intros H; inversion H; auto|].
    destruct (length (points pc) <? 2); intros H; inversion H; auto.
  - rewrite check_percentile_several by (rewrite E; simpl; lia).
    intros H; inversion H; auto.
Qed.

Lemma check_error_percentile (e : exn) :
  PercentileDimensionError e -> check_error e = true.
Proof. intros [->|[->| ->]]; reflexivity. Qed.

Lemma check_weights_raises (self : plugin) (cube : Cube)
    (weights : option (list Q)) (e : exn) :
  check_weights self cube weights = Raise e ->
  e = CoordinateNotFoundError \/ e = ValueError MsgWeightsShape.
Proof.
  unfold check_weights. destruct weights as [w|]; [|discriminate].
  destruct (iris_cube.coord cube (coord self)) as [c|e0] eqn:E; cbn [bind].
  - destruct (negb _); intros H; inversion H; auto.
  - intros H; inversion H; subst. left. eapply coord_raises; eauto.
Qed.

(** Past the two checks, [process] raises none of their errors. *)
Lemma blend_raises (self : plugin) (cube : Cube) (weights : option (list Q))
    (e : exn) :
  blend self cube weights = Raise e ->
  check_percentile cube = Raise e \/
  check_weights self cube weights = Raise e \/
  check_error e = false.
Proof.
  unfold blend.
  destruct (check_percentile cube) as [perc_coord|e0]; cbn [bind];
    [|intros H; inversion H; subst; left; reflexivity].
  destruct (check_weights self cube weights) as [[]|e0]; cbn [bind];
    [|intros H; inversion H; subst; right; left; reflexivity].
  intros H. right. right.
  destruct (coord_dims cube (coord self)) as [coord_dim|e0] eqn:E; cbn [bind] in H;
    [|inversion H; subst; now rewrite (coord_dims_raises _ _ _ E)].
  destruct coord_dim as [|d ds]; [discriminate|].
  destruct perc_coord as [pc|].
  - destruct (coord_dims cube (name pc)) as [dims|e0] eqn:E1; cbn [bind] in H;
      [|inversion H; subst; now rewrite (coord_dims_raises _ _ _ E1)].
    match type of H with
    | context [bind ?c _] => destruct c as [perc_dim|e0] eqn:E2; cbn [bind] in H
    end; [|destruct dims as [|? [|? ?]]; inversion E2; inversion H; subst; reflexivity].
    match type of H with
    | context [bind ?c _] => destruct c as [w|e0] eqn:E3; cbn [bind] in H
    end.
    + match type of H with
      | context [bind ?c _] => destruct c as [r|e0] eqn:E4; cbn [bind] in H
      end; [discriminate|].
      inversion H; subst. eapply collapsed_raises; [|exact E4].
      simpl. intros data axis e0. apply aggregate_raises.
    + inversion H; subst. destruct weights; [discriminate|].
      destruct (iris_cube.coord cube (coord self)) eqn:E5; cbn [bind] in E3;
        [discriminate|].
      inversion E3; subst. now rewrite (coord_raises _ _ _ E5).
  - match type of H with
    | context [bind ?c _] => destruct c as [wa|e0] eqn:E2; cbn [bind] in H
    end.
    + match type of H with
      | context [bind ?c _] => destruct c as [r|e0] eqn:E4; cbn [bind] in H
      end; [discriminate|].
      inversion H; subst. eapply collapsed_raises; [|exact E4]. exact I.
    + inversion H; subst. destruct weights as [w|]; [|discriminate].
      destruct (broadcast_to_shape _ _ _) eqn:E5; cbn [bind] in E2; [discriminate|].
      inversion E2; subst. eapply broadcast_to_shape_raises; eauto.
Qed.

Lemma process_raises (self : plugin) (cube : Cube) (weights : option (list Q))
    (e : exn) :
  returned (process self cube weights) = Raise e ->
  blend self cube weights = Raise e \/ check_error e = false.
Proof.
  unfold process.
  destruct (blend self cube weights) as [[result ws]|e0];
    [|simpl; intros H; inversion H; subst; left; reflexivity].
  destruct (coord_adjust self) as [f|]; [|simpl; discriminate].
  destruct (coord_dims cube (coord self)) as [coord_dim|e0] eqn:E.
  - destruct (adjust_coords _ _ _ _ _) as [cube' r] eqn:Ea. simpl.
    intros H. right. eapply (adjust_coords_raises f coord_dim).
    rewrite Ea. exact H.
  - simpl. intros H. inversion H; subst. right.
    now rewrite (coord_dims_raises _ _ _ E).
Qed.

Lemma process_blend_raises (self : plugin) (cube : Cube)
    (weights : option (list Q)) (e : exn) :
  blend self cube weights = Raise e ->
  returned (process self cube weights) = Raise e.
Proof. unfold process. intros ->. reflexivity. Qed.

(** C6: [process] fails with a PercentileDimensionError whenever the cube
    has more than one coordinate whose name contains "percentile", or its
    sole percentile coordinate spans no dimension of the cube, or that
    coordinate has fewer than two points; with no such coordinate it
    goes on in mean mode and raises no PercentileDimensionError. *)
Theorem process_percentile_dimension_error
    (self : plugin) (cube : Cube) (weights : option (list Q)) :
  ((1 < length (percentile_coords cube) \/
    exists pc dims, percentile_coords cube = [(pc, dims)] /\
                    (dims = [] \/ length (points pc) < 2)) ->
   exists e, returned (process self cube weights) = Raise e /\
             PercentileDimensionError e) /\
  (percentile_coords cube = [] ->
   blend self cube weights = mean_mode self cube weights /\
   forall e, returned (process self cube weights) = Raise e ->
             ~ PercentileDimensionError e).
Proof.
  split.
  - intros Hbad.
    assert (exists e, check_percentile cube = Raise e) as (e & He).
    { destruct Hbad as [Hmany|(pc & dims & Hone & Hwhy)].
      - rewrite check_percentile_several by exact Hmany. eauto.
      - rewrite (check_percentile_one cube pc dims Hone).
        destruct dims as [|d ds]; [eauto|].
        destruct Hwhy as [Hd|Hp]; [discriminate|].
        apply Nat.ltb_lt in Hp. rewrite Hp. eauto. }
    exists e. split; [|now apply (check_percentile_raises cube)].
    apply process_blend_raises. unfold blend. now rewrite He.
  - intros Hnone. pose proof (check_percentile_none cube Hnone) as Hc.
    split.
    + unfold blend, mean_mode. rewrite Hc. cbn [bind].
      destruct (check_weights self cube weights) as [[]|]; cbn [bind]; [|reflexivity].
      destruct (coord_dims cube (coord self)) as [[|d ds]|]; reflexivity.
    + intros e He Hpe. pose proof (check_error_percentile e Hpe) as Hce.
      destruct (process_raises self cube weights e He) as [Hb|Hb]; [|congruence].
      destruct (blend_raises self cube weights e Hb) as [H|[H|H]].
      * rewrite Hc in H. discriminate.
      * apply check_weights_raises in H.
        destruct H as [-> | ->]; destruct Hpe as [Hpe|[Hpe|Hpe]]; discriminate.
      * congruence.
Qed.

(** C5, amended: for a cube that passes the percentile check and has the
    blend coordinate, [process] with a weight vector whose length is not
    the number of points of the blend coordinate fails with the
    WeightShapeMismatch error, and it does not fail with this error when
    the lengths agree. *)
Theorem process_weight_shape_mismatch
    (self : plugin) (cube : Cube) (w : list Q)
    (perc_coord : option Coord) (c : Coord) :
  check_percentile cube = Ok perc_coord ->
  iris_cube.coord cube (coord self) = Ok c ->
  (length w <> length (points c) ->
   returned (process self cube (Some w)) = Raise (ValueError MsgWeightsShape)) /\
  (length w = length (points c) ->
   forall e, returned (process self cube (Some w)) = Raise e ->
             ~ WeightShapeMismatch e).
Proof.
  intros Hp Hc. split.
  - intros Hne. apply process_blend_raises. unfold blend, check_weights.
    rewrite Hp, Hc. cbn [bind].
    apply Nat.eqb_neq in Hne. now rewrite Hne.
  - intros Heq e He Hw. unfold WeightShapeMismatch in Hw. subst e.
    destruct (process_raises _ _ _ _ He) as [Hb|Hb]; [|discriminate].
    destruct (blend_raises _ _ _ _ Hb) as [H|[H|H]]; [congruence| |discriminate].
    unfold check_weights in H. rewrite Hc in H. cbn [bind] in H.
    apply Nat.eqb_eq in Heq. rewrite Heq in H. discriminate.
Qed.

End ProcessErrors.

(** ** What [process] does to the caller's cube *)

Section Frame.

Import iris_cube.
Import WeightedBlendAcrossWholeDimension.

Lemma same_but_points_refl (cube : Cube) : same_but_points cube cube.
Proof.
  split; [reflexivity|].
  induction (coords_and_dims cube); constructor; auto.
  repeat split.
Qed.

Lemma same_but_points_trans (a b c : Cube) :
  same_but_points a b -> same_but_points b c -> same_but_points a c.
Proof.
  intros [Hd1 Hc1] [Hd2 Hc2]. split; [congruence|].
  revert Hc2. generalize (coords_and_dims c).
  induction Hc1 as [|x y l l' Hxy _ IH]; intros l2 Hl2; inversion Hl2; subst;
    constructor.
  - destruct Hxy as (Ha & Hb & Hc).
    match goal with H : same_coord_but_points y _ |- _ =>
      destruct H as (Ha' & Hb' & Hc') end.
    repeat split; congruence.
  - now apply IH.
Qed.

Lemma Forall2_replace_nth {A : Type} (R : A -> A -> Prop) (l : list A)
    (k : nat) (x : A) :
  (forall y, R y y) ->
  (forall y, nth_error l k = Some y -> R y x) ->
  Forall2 R l (replace_nth k x l).
Proof.
  intros Hrefl. revert k. induction l as [|a l IH]; intros k H;
    [destruct k; constructor|].
  destruct k as [|k]; simpl.
  - constructor; [apply H; reflexivity|].
    clear -Hrefl. induction l; constructor; auto.
  - constructor; [apply Hrefl|]. apply IH. intros y Hy. now apply H.
Qed.

Lemma with_coord_frame (cube : Cube) (k : nat) (crd c : Coord) :
  nth_error (coords cube) k = Some crd ->
  name c = name crd -> bounds c = bounds crd ->
  same_but_points cube (with_coord cube k c).
Proof.
  intros Hk Hn Hb. split; [reflexivity|]. simpl.
  apply Forall2_replace_nth; [intros y; repeat split|].
  intros [c0 dims] Hy.
  unfold coords in Hk. rewrite nth_error_map, Hy in Hk. simpl in Hk.
  inversion Hk; subst.
  rewrite (nth_error_nth _ _ _ Hy). repeat split; auto.
Qed.

(** The adjustment of the coordinates of a cube built during the call
    leaves the caller's cube alone. *)
Lemma adjust_coords_fresh (f : list Q -> list Q) (coord_dim : list nat)
    (ks : list nat) (cube r : Cube) :
  fst (adjust_coords f coord_dim ks cube (Fresh r)) = cube.
Proof.
  revert r. induction ks as [|k ks IH]; intros r; simpl; [reflexivity|].
  destruct (nth_error (coords r) k) as [crd|]; [|apply IH].
  destruct (coord_dims cube (name crd)); [|reflexivity].
  destruct (same_dims _ _); [|apply IH].
  destruct (iris_cube.coord cube (name crd)); [|reflexivity].
  destruct (set_points _ _); [|reflexivity].
  apply IH.
Qed.

(** The adjustment of the coordinates of the caller's cube: it changes
    points only, answers the caller's cube, and raises only what the
    look-up of a coordinate and the points setter raise. *)
Lemma adjust_coords_input (f : list Q -> list Q) (coord_dim : list nat)
    (ks : list nat) (cube : Cube) :
  same_but_points cube (fst (adjust_coords f coord_dim ks cube TheInput)) /\
  (forall r, snd (adjust_coords f coord_dim ks cube TheInput) = Ok r ->
             r = TheInput) /\
  (forall e, snd (adjust_coords f coord_dim ks cube TheInput) = Raise e ->
             e = CoordinateNotFoundError \/ e = ValueError MsgPointsShape).
Proof.
  revert cube. induction ks as [|k ks IH]; intros cube; simpl.
  - split; [apply same_but_points_refl|]. split; [congruence|discriminate].
  - destruct (nth_error (coords cube) k) as [crd|] eqn:Ek; [|apply IH].
    destruct (coord_dims cube (name crd)) as [dims|e0] eqn:E1.
    2:{ simpl. split; [apply same_but_points_refl|]. split; [discriminate|].
        intros e H. inversion H; subst. left. eapply coord_dims_raises; eauto. }
    destruct (same_dims dims coord_dim); [|apply IH].
    destruct (iris_cube.coord cube (name crd)) as [c|e0] eqn:E2.
    2:{ simpl. split; [apply same_but_points_refl|]. split; [discriminate|].
        intros e H. inversion H; subst. left. eapply coord_raises; eauto. }
    destruct (set_points crd (f (points c))) as [crd'|e0] eqn:E3.
    2:{ simpl. split; [apply same_but_points_refl|]. split; [discriminate|].
        intros e H. inversion H; subst. right.
        unfold set_points in E3. destruct (_ =? _); inversion E3. reflexivity. }
    simpl.
    destruct (IH (with_coord cube k crd')) as (H1 & H2 & H3).
    split; [|split; assumption].
    eapply same_but_points_trans; [|exact H1].
    unfold set_points in E3. destruct (_ =? _); inversion E3; subst.
    eapply with_coord_frame; eauto.
Qed.

Lemma blend_the_input (self : plugin) (cube : Cube) (weights : option (list Q))
    (ws : list warning) :
  blend self cube weights = Ok (TheInput, ws) ->
  coord_dims cube (coord self) = Ok [] /\ ws = [ScalarCoordWarning].
Proof.
  unfold blend.
  destruct (check_percentile cube) as [pc|]; cbn [bind]; [|discriminate].
  destruct (check_weights self cube weights) as [[]|]; cbn [bind]; [|discriminate].
  destruct (coord_dims cube (coord self)) as [[|d ds]|]; cbn [bind];
    [|intros H|discriminate].
  - intros H; inversion H; auto.
  - exfalso. destruct pc.
    + repeat match type of H with
             | context [bind ?c _] => destruct c; cbn [bind] in H
             end; discriminate.
    + repeat match type of H with
             | context [bind ?c _] => destruct c; cbn [bind] in H
             end; discriminate.
Qed.

Lemma blend_scalar (self : plugin) (cube : Cube) (weights : option (list Q))
    (perc_coord : option Coord) :
  check_percentile cube = Ok perc_coord ->
  check_weights self cube weights = Ok tt ->
  coord_dims cube (coord self) = Ok [] ->
  blend self cube weights = Ok (TheInput, [ScalarCoordWarning]).
Proof. unfold blend. intros -> -> ->. reflexivity. Qed.

(** C7, amended: for a cube that passes the percentile check and the
    weights check and whose blend coordinate is scalar, [process] issues
    the warning and leaves the data alone; what it returns is the input
    cube, with its data unchanged; without [coord_adjust] it does return,
    and the input is exactly as before; it can raise only from the
    adjustment of the coordinates. *)
Theorem process_scalar_coordinate
    (self : plugin) (cube : Cube) (weights : option (list Q))
    (perc_coord : option Coord) :
  check_percentile cube = Ok perc_coord ->
  check_weights self cube weights = Ok tt ->
  coord_dims cube (coord self) = Ok [] ->
  let o := process self cube weights in
  warned o = [ScalarCoordWarning] /\
  data (input_after o) = data cube /\
  (forall r, returned o = Ok r ->
             r = TheInput /\ data (deref (input_after o) r) = data cube) /\
  (coord_adjust self = None -> returned o = Ok TheInput /\ input_after o = cube) /\
  (forall e, returned o = Raise e ->
             coord_adjust self <> None /\
             (e = CoordinateNotFoundError \/ e = ValueError MsgPointsShape)).
Proof.
  intros Hp Hw Hd o. subst o. unfold process.
  rewrite (blend_scalar self cube weights perc_coord Hp Hw Hd).
  destruct (coord_adjust self) as [f|].
  - rewrite Hd.
    destruct (adjust_coords_input f [] (range (length (coords cube))) cube)
      as ((Hdata & _) & Hok & Herr).
    simpl deref.
    destruct (adjust_coords f [] (range (length (coords cube))) cube TheInput)
      as [cube' r]. simpl in *.
    split; [reflexivity|]. split; [exact Hdata|]. split; [|split].
    + intros r0 Hr0. rewrite (Hok r0 Hr0). split; [reflexivity|exact Hdata].
    + discriminate.
    + intros e He. split; [discriminate|now apply Herr].
  - simpl. split; [reflexivity|]. split; [reflexivity|]. split; [|split].
    + intros r H. inversion H. split; reflexivity.
    + intros _. split; reflexivity.
    + discriminate.
Qed.

(** The caller's cube after [process]: the data, the names, bounds and
    dimensions of the coordinates are as before, and nothing at all has
    changed unless the blend coordinate is scalar and a [coord_adjust] is
    configured. *)
Lemma process_frame (self : plugin) (cube : Cube) (weights : option (list Q)) :
  same_but_points cube (input_after (process self cube weights)) /\
  (coord_adjust self = None \/ coord_dims cube (coord self) <> Ok [] ->
   input_after (process self cube weights) = cube).
Proof.
  unfold process.
  destruct (blend self cube weights) as [[result ws]|e] eqn:Eb;
    [|split; [apply same_but_points_refl|reflexivity]].
  destruct (coord_adjust self) as [f|];
    [|split; [apply same_but_points_refl|reflexivity]].
  destruct (coord_dims cube (coord self)) as [coord_dim|e] eqn:Ed;
    [|split; [apply same_but_points_refl|reflexivity]].
  destruct result as [|r].
  - destruct (blend_the_input _ _ _ _ Eb) as (Hs & _).
    simpl deref.
    destruct (adjust_coords_input f coord_dim (range (length (coords cube))) cube)
      as (Hsame & _).
    destruct (adjust_coords f coord_dim _ cube TheInput) as [cube' r'].
    simpl in *. split; [exact Hsame|].
    intros [H|H]; [discriminate|]. congruence.
  - pose proof (adjust_coords_fresh f coord_dim
                  (range (length (coords (deref cube (Fresh r))))) cube r) as Hf.
    destruct (adjust_coords f coord_dim _ cube (Fresh r)) as [cube' r'].
    simpl in *. subst cube'. split; [apply same_but_points_refl|reflexivity].
Qed.

End Frame.

(** ** Deciding the order of a list *)

Section Decide.

Local Open Scope Q_scope.

Lemma nondecreasingb_sound (l : list Q) :
  nondecreasingb l = true -> nondecreasing l.
Proof.
  induction l as [|x l IH]; intros H; [apply nondecreasing_nil|].
  destruct l as [|y l].
  - apply nondecreasing_cons. split; [intros ? []|apply nondecreasing_nil].
  - cbn [nondecreasingb] in H. apply andb_true_iff in H. destruct H as [Hxy Hl].
    apply Qle_bool_iff in Hxy. specialize (IH Hl).
    apply nondecreasing_cons. split; [|exact IH].
    apply nondecreasing_cons in IH. destruct IH as [Hy _].
    intros z [<-|Hz]; [exact Hxy|]. apply Qle_trans with y; auto.
Qed.



End Decide.

(** ** What the sliding-window blend does to the caller's cube *)

Section TriangularFrame.

Import iris_cube.

Lemma filter_unique {A : Type} (p : A -> bool) (l : list A) (x y : A) :
  filter p l = [x] -> In y l -> p y = true -> y = x.
Proof.
  intros Hf Hin Hp.
  assert (In y (filter p l)) as H by (apply filter_In; auto).
  rewrite Hf in H. destruct H as [H|[]]. now symmetry.
Qed.

Lemma position_where_unique {A : Type} (p : A -> bool) (l : list A) (x d : A) :
  filter p l = [x] ->
  position_where p l < length l /\ nth (position_where p l) l d = x.
Proof.
  induction l as [|a l IH]; intros H; [discriminate|].
  simpl in H. simpl. destruct (p a).
  - inversion H; subst. split; [lia|reflexivity].
  - destruct (IH H) as (H1 & H2). split; [lia|exact H2].
Qed.

Lemma replace_nth_same {A : Type} (l : list A) (k : nat) (d : A) :
  k < length l -> replace_nth k (nth k l d) l = l.
Proof.
  revert k. induction l as [|a l IH]; intros k Hk; simpl in Hk; [lia|].
  destruct k as [|k]; [reflexivity|]. simpl. f_equal. apply IH. lia.
Qed.

Lemma Forall2_filter {A : Type} (R : A -> A -> Prop) (p : A -> bool)
    (l l' : list A) :
  (forall x y, R x y -> p x = p y) ->
  Forall2 R l l' -> Forall2 R (filter p l) (filter p l').
Proof.
  intros Hp H. induction H as [|x y l l' Hxy _ IH]; [constructor|].
  simpl. rewrite (Hp x y Hxy). destruct (p y); [constructor|]; auto.
Qed.

Lemma lookup_filter (cube : Cube) (nm : string) (cd : Coord * list nat) :
  lookup cube nm = Ok cd -> filter (named nm) (coords_and_dims cube) = [cd].
Proof.
  unfold lookup. destruct (filter (named nm) (coords_and_dims cube)) as [|x [|y l]];
    intros H; inversion H; reflexivity.
Qed.

Lemma filter_lookup (cube : Cube) (nm : string) (cd : Coord * list nat) :
  filter (named nm) (coords_and_dims cube) = [cd] -> lookup cube nm = Ok cd.
Proof. unfold lookup. now intros ->. Qed.

Lemma guess_bounds_ok (c c' : Coord) :
  guess_bounds c = Ok c' ->
  name c' = name c /\ points c' = points c /\ bounds c = None /\ bounds c' <> None.
Proof.
  unfold guess_bounds.
  destruct (negb _); [discriminate|]. destruct (_ <? _); [discriminate|].
  destruct (bounds c) eqn:Eb; [discriminate|].
  intros H. inversion H; subst. simpl. repeat split. discriminate.
Qed.

Lemma unchanged_or_guessed_name (dims : list nat) (cd cd' : Coord * list nat) :
  unchanged_or_guessed dims cd cd' ->
  name (fst cd') = name (fst cd) /\ points (fst cd') = points (fst cd) /\
  snd cd' = snd cd.
Proof.
  intros [->|(H1 & H2 & H3)]; [repeat split|].
  destruct (guess_bounds_ok _ _ H3) as (Hn & Hp & _).
  repeat split; congruence.
Qed.

Lemma same_but_guessed_bounds_refl (dims : list nat) (cube : Cube) :
  same_but_guessed_bounds dims cube cube.
Proof.
  split; [reflexivity|].
  induction (coords_and_dims cube); constructor; auto. now left.
Qed.

Lemma same_but_guessed_bounds_trans (dims : list nat) (a b c : Cube) :
  same_but_guessed_bounds dims a b -> same_but_guessed_bounds dims b c ->
  same_but_guessed_bounds dims a c.
Proof.
  intros [Hd1 Hc1] [Hd2 Hc2]. split; [congruence|].
  revert Hc2. generalize (coords_and_dims c).
  induction Hc1 as [|x y l l' Hxy _ IH]; intros l2 Hl2; inversion Hl2; subst;
    constructor.
  - match goal with H : unchanged_or_guessed _ y _ |- _ =>
      destruct H as [->|(Ha & Hb & Hc)] end; [exact Hxy|].
    destruct Hxy as [->|(Ha' & Hb' & Hc')]; [right; auto|].
    exfalso.
    destruct (guess_bounds_ok _ _ Hc) as (_ & _ & Hn & _).
    destruct (guess_bounds_ok _ _ Hc') as (_ & _ & _ & Hs). contradiction.
  - now apply IH.
Qed.

(** The look-up of a name in the two states of the cube. *)
Lemma lookup_guessed (dims : list nat) (a b : Cube) (nm : string)
    (cd' : Coord * list nat) :
  same_but_guessed_bounds dims a b -> lookup b nm = Ok cd' ->
  exists cd, lookup a nm = Ok cd /\ snd cd = snd cd'.
Proof.
  intros [_ Hc] Hl. apply lookup_filter in Hl.
  assert (forall x y, unchanged_or_guessed dims x y -> named nm x = named nm y)
    as Hp.
  { intros x y Hxy. unfold named.
    destruct (unchanged_or_guessed_name _ _ _ Hxy) as (-> & _). reflexivity. }
  pose proof (Forall2_filter _ (named nm) _ _ Hp Hc) as Hf.
  rewrite Hl in Hf. inversion Hf as [|x y l l' Hxy Hrest Hx Hy]; subst.
  inversion Hrest; subst.
  exists x. split; [apply filter_lookup; congruence|].
  destruct (unchanged_or_guessed_name _ _ _ Hxy) as (_ & _ & ->). reflexivity.
Qed.

(** One [cube.coord(name).guess_bounds()]. *)
Lemma guess_bounds_step (dims : list nat) (cube : Cube) (nm : string)
    (c c' : Coord) :
  (forall cd, lookup cube nm = Ok cd -> snd cd = dims) ->
  iris_cube.coord cube nm = Ok c -> guess_bounds c = Ok c' ->
  same_but_guessed_bounds dims cube
    (with_coord cube (position_where (named nm) (coords_and_dims cube)) c').
Proof.
  intros Hdims Hc Hg. unfold iris_cube.coord in Hc.
  destruct (lookup cube nm) as [[c0 ds]|] eqn:El; cbn [bind] in Hc; [|discriminate].
  inversion Hc; subst c0. clear Hc.
  specialize (Hdims _ eq_refl). simpl in Hdims. subst ds.
  pose proof (lookup_filter _ _ _ El) as Hf.
  destruct (position_where_unique _ _ _ (c', []) Hf) as (Hk & Hnth).
  split; [reflexivity|]. simpl. rewrite Hnth. simpl.
  apply Forall2_replace_nth.
  - intros y. now left.
  - intros y Hy. rewrite (nth_error_nth _ _ _ Hy) in Hnth. subst y.
    right. simpl. auto.
Qed.

Section Collaborators.

Import TriangularWeightedBlendAcrossAdjacentPoints.

Variable triangular_weights :
  Q -> String.string -> Cube -> String.string -> Q -> res (list Q).
Variable concatenate_cubes : list Cube -> res Cube.

Lemma guess_all_bounds_frame (dims : list nat) (names : list string) (cube : Cube) :
  (forall nm, In nm names -> forall cd, lookup cube nm = Ok cd -> snd cd = dims) ->
  same_but_guessed_bounds dims cube (fst (guess_all_bounds cube names)).
Proof.
  revert cube. induction names as [|nm rest IH]; intros cube Hnames; simpl;
    [apply same_but_guessed_bounds_refl|].
  destruct (iris_cube.coord cube nm) as [c|e] eqn:Ec;
    [|apply same_but_guessed_bounds_refl].
  destruct (guess_bounds c) as [c'|e] eqn:Eg;
    [|apply same_but_guessed_bounds_refl].
  assert (same_but_guessed_bounds dims cube
            (with_coord cube (position_where (named nm) (coords_and_dims cube)) c'))
    as Hstep.
  { apply guess_bounds_step with (c := c); auto. apply Hnames. now left. }
  eapply same_but_guessed_bounds_trans; [exact Hstep|].
  apply IH. intros nm' Hin cd' Hl.
  destruct (lookup_guessed _ _ _ _ _ Hstep Hl) as (cd & Hcd & <-).
  apply (Hnames nm'); [now right|exact Hcd].
Qed.

(** The names of the coordinates on the blend dimension do name
    coordinates on that dimension. *)
Lemma coords_on_names (cube : Cube) (dims : list nat) (nm : string)
    (cd : Coord * list nat) :
  In nm (map name (coords_on cube dims)) -> lookup cube nm = Ok cd ->
  snd cd = dims.
Proof.
  intros Hin Hl. unfold coords_on in Hin. rewrite map_map in Hin.
  apply in_map_iff in Hin. destruct Hin as (cd0 & Hn & Hin).
  apply filter_In in Hin. destruct Hin as (Hin & Hsame).
  unfold same_dims in Hsame. destruct (list_eq_dec _ _ _) as [He|]; [|discriminate].
  apply lookup_filter in Hl.
  assert (cd0 = cd) as <-.
  { eapply filter_unique; eauto. unfold named. rewrite Hn. apply String.eqb_refl. }
  exact He.
Qed.

(** The correction of the coordinates of a cube built during the call
    leaves the caller's cube alone. *)
Lemma correct_collapsed_coordinates_fresh (orig cube r : Cube)
    (names : list string) :
  fst (correct_collapsed_coordinates orig cube (Fresh r) names) = cube.
Proof.
  revert r. induction names as [|nm rest IH]; intros r; simpl; [reflexivity|].
  destruct (lookup r nm) as [[nc ds]|]; [|destruct (iris_cube.coord orig nm); reflexivity].
  destruct (iris_cube.coord orig nm) as [oc|]; [|reflexivity].
  destruct (set_points nc (points oc)); [|reflexivity].
  apply IH.
Qed.

(** The correction of the coordinates of the caller's cube from the
    caller's cube writes back what is there. *)
Lemma correct_collapsed_coordinates_input (cube : Cube) (names : list string) :
  fst (correct_collapsed_coordinates cube cube TheInput names) = cube.
Proof.
  induction names as [|nm rest IH]; simpl; [reflexivity|].
  unfold iris_cube.coord.
  destruct (lookup cube nm) as [[nc ds]|] eqn:El; cbn [bind fst]; [|reflexivity].
  unfold set_points. rewrite Nat.eqb_refl.
  pose proof (lookup_filter _ _ _ El) as Hf.
  set (c' := match bounds nc with Some b => _ | None => _ end).
  assert (c' = nc) as ->.
  { subst c'. destruct nc as [n p [b|]]; reflexivity. }
  destruct (position_where_unique _ _ _ (nc, []) Hf) as (Hk & Hnth).
  assert (with_coord cube (position_where (named nm) (coords_and_dims cube)) nc
          = cube) as Hw.
  { unfold with_coord. rewrite Hnth. simpl.
    replace (nc, ds) with
      (nth (position_where (named nm) (coords_and_dims cube))
           (coords_and_dims cube) (nc, [])) at 1 by exact Hnth.
    rewrite replace_nth_same by exact Hk. destruct cube; reflexivity. }
  rewrite Hw. exact IH.
Qed.

Lemma process_the_input (self : WeightedBlendAcrossWholeDimension.plugin)
    (cube : Cube) (weights : option (list Q)) :
  WeightedBlendAcrossWholeDimension.coord_adjust self = None ->
  returned (WeightedBlendAcrossWholeDimension.process self cube weights)
    = Ok TheInput ->
  coord_dims cube (WeightedBlendAcrossWholeDimension.coord self) = Ok [].
Proof.
  unfold WeightedBlendAcrossWholeDimension.process. intros ->.
  destruct (WeightedBlendAcrossWholeDimension.blend self cube weights)
    as [[r ws]|] eqn:Eb; simpl; [|discriminate].
  intros H. inversion H; subst.
  now destruct (blend_the_input _ _ _ _ Eb).
Qed.

(** The loop over the slices leaves the caller's cube as it found it. *)
Lemma blend_slices_frame (self : plugin) (names : list string) (ks : list nat)
    (cube : Cube) (ws : list warning) (result : list cube_ref) :
  input_after (blend_slices triangular_weights self names ks cube ws result) = cube.
Proof.
  revert ws result. induction ks as [|k ks IH]; intros ws result; simpl;
    [reflexivity|].
  destruct (slice_over cube (coord self) k) as [cube_slice|] eqn:Es;
    cbn [bind]; [|reflexivity].
  destruct (iris_cube.coord cube_slice (coord self)) as [c|]; cbn [bind];
    [|reflexivity].
  destruct (points c) as [|p ps]; cbn [bind]; [reflexivity|].
  destruct (triangular_weights _ _ _ _ _) as [weights|]; cbn [bind];
    [|reflexivity].
  set (BlendingPlugin := WeightedBlendAcrossWholeDimension.mk_plugin (coord self) None).
  destruct (process_frame BlendingPlugin cube (Some weights)) as (_ & Hsame).
  specialize (Hsame (or_introl eq_refl)).
  destruct (returned (WeightedBlendAcrossWholeDimension.process
                        BlendingPlugin cube (Some weights)))
    as [blended_cube|] eqn:Er; [|exact Hsame].
  rewrite Hsame.
  assert (fst (correct_collapsed_coordinates cube_slice cube blended_cube names)
          = cube) as Hc.
  { destruct blended_cube as [|r]; [|apply correct_collapsed_coordinates_fresh].
    apply process_the_input in Er; [|reflexivity]. simpl in Er.
    unfold slice_over in Es. rewrite Er in Es. cbn [bind] in Es.
    inversion Es; subst. apply correct_collapsed_coordinates_input. }
  destruct (correct_collapsed_coordinates cube_slice cube blended_cube names)
    as [cube' [r'|e]]; simpl in Hc; subst cube'; [apply IH|reflexivity].
Qed.

(** The caller's cube after the sliding-window blend: the data are as
    before, and so is every coordinate, except that one on the blend
    dimension may have been given guessed bounds. *)
Lemma triangular_process_frame (self : plugin) (cube : Cube) :
  match coord_dims cube (coord self) with
  | Ok dims =>
      same_but_guessed_bounds dims cube
        (input_after (process triangular_weights concatenate_cubes self cube))
  | Raise _ =>
      input_after (process triangular_weights concatenate_cubes self cube) = cube
  end.
Proof.
  unfold process.
  destruct (coord_dims cube (coord self)) as [dims|e] eqn:Ed; [|reflexivity].
  pose proof (guess_all_bounds_frame dims (map name (coords_on cube dims)) cube
                (fun nm Hin cd Hl => coords_on_names cube dims nm cd Hin Hl))
    as Hg.
  destruct (guess_all_bounds cube (map name (coords_on cube dims)))
    as [cube1 [[]|e]]; simpl in Hg; [|exact Hg].
  destruct (slices_over_count cube1 (coord self)) as [n|]; [|exact Hg].
  pose proof (blend_slices_frame self (map name (coords_on cube dims))
                (range n) cube1 [] []) as Hb.
  destruct (returned (blend_slices _ _ _ _ _ _ _)); simpl; rewrite Hb; exact Hg.
Qed.

End Collaborators.

End TriangularFrame.

(** C4, amended: what the two [process] methods do to the caller's cube.
    The whole-dimension blend leaves the data, and the names, bounds and
    dimensions of the coordinates, as they were, and leaves the cube
    exactly as it was when no [coord_adjust] is configured or the blend
    coordinate is not scalar.  The sliding-window blend, whatever the
    weights plugin and the concatenation answer, leaves the data and
    every coordinate as they were, except that coordinates on the blend
    dimension may have been given the bounds [guess_bounds] computes. *)
Theorem process_input_frame
    (triangular_weights :
       Q -> String.string -> iris_cube.Cube -> String.string -> Q -> res (list Q))
    (concatenate_cubes : list iris_cube.Cube -> res iris_cube.Cube) :
  (forall (self : WeightedBlendAcrossWholeDimension.plugin)
          (cube : iris_cube.Cube) (weights : option (list Q)),
     let o := WeightedBlendAcrossWholeDimension.process self cube weights in
     same_but_points cube (input_after o) /\
     (WeightedBlendAcrossWholeDimension.coord_adjust self = None \/
      iris_cube.coord_dims cube (WeightedBlendAcrossWholeDimension.coord self)
        <> Ok [] ->
      input_after o = cube)) /\
  (forall (self : TriangularWeightedBlendAcrossAdjacentPoints.plugin)
          (cube : iris_cube.Cube),
     let o := TriangularWeightedBlendAcrossAdjacentPoints.process
                triangular_weights concatenate_cubes self cube in
     match iris_cube.coord_dims
             cube (TriangularWeightedBlendAcrossAdjacentPoints.coord self) with
     | Ok dims => same_but_guessed_bounds dims cube (input_after o)
     | Raise _ => input_after o = cube
     end).
Proof.
  split.
  - intros self cube weights. exact (process_frame self cube weights).
  - intros self cube.
    exact (triangular_process_frame triangular_weights concatenate_cubes self cube).
Qed.

(** ** Elements of n-dimensional arrays by index *)

Section Indexing.

Lemma prod_pos_of_lt (sh : list nat) (k : nat) : k < Nd.prod sh -> 0 < Nd.prod sh.
Proof. lia. Qed.

Lemma ravel_lt (sh idx : list nat) :
  Nd.valid_index sh idx -> Nd.ravel sh idx < Nd.prod sh.
Proof.
  unfold Nd.valid_index. intros H.
  induction H as [|i s idx sh His _ IH]; simpl; [lia|].
  fold (Nd.prod sh). nia.
Qed.

Lemma unravel_ravel (sh idx : list nat) :
  Nd.valid_index sh idx -> Nd.unravel sh (Nd.ravel sh idx) = idx.
Proof.
  unfold Nd.valid_index. intros H.
  induction H as [|i s idx sh His Hrest IH]; simpl; [reflexivity|].
  fold (Nd.prod sh).
  pose proof (ravel_lt sh idx Hrest) as Hlt.
  assert (Nd.prod sh <> 0) as Hp by lia.
  f_equal.
  - rewrite Nat.div_add_l by exact Hp. rewrite Nat.div_small by exact Hlt. lia.
  - rewrite Nat.add_comm, Nat.Div0.mod_add, Nat.mod_small by exact Hlt. exact IH.
Qed.

Lemma unravel_valid (sh : list nat) (k : nat) :
  k < Nd.prod sh -> Nd.valid_index sh (Nd.unravel sh k).
Proof.
  unfold Nd.valid_index. revert k.
  induction sh as [|s sh IH]; intros k Hk; simpl; [constructor|].
  simpl in Hk. fold (Nd.prod sh) in *.
  assert (Nd.prod sh <> 0) as Hp by nia.
  constructor.
  - apply Nat.Div0.div_lt_upper_bound. lia.
  - apply IH. apply Nat.mod_upper_bound. exact Hp.
Qed.

Lemma valid_index_length (sh idx : list nat) :
  Nd.valid_index sh idx -> length idx = length sh.
Proof. apply Forall2_length. Qed.

Lemma nth_map_range {A : Type} (f : nat -> A) (n k : nat) (dflt : A) :
  k < n -> nth k (map f (range n)) dflt = f k.
Proof.
  intros Hk. unfold range.
  rewrite (nth_indep _ dflt (f 0)) by (rewrite length_map, length_seq; exact Hk).
  rewrite map_nth, seq_nth by exact Hk. reflexivity.
Qed.

(** [tabulate sh f] holds [f idx] at [idx]. *)
Lemma get_tabulate (sh : list nat) (f : list nat -> Q) (idx : list nat) :
  Nd.valid_index sh idx -> Nd.get (Nd.tabulate sh f) idx = f idx.
Proof.
  intros H. unfold Nd.get, Nd.tabulate. simpl.
  rewrite nth_map_range by (now apply ravel_lt).
  now rewrite unravel_ravel.
Qed.

(** *** Putting an index in and taking a dimension out *)

Lemma nth_insert_at (d k : nat) (idx : list nat) (i : nat) :
  d <= length idx ->
  nth i (insert_at d k idx) 0 =
  if i <? d then nth i idx 0 else if i =? d then k else nth (i - 1) idx 0.
Proof.
  intros Hd. unfold insert_at.
  assert (length (firstn d idx) = d) as Hl by (rewrite length_firstn; lia).
  destruct (i <? d) eqn:E1.
  - apply Nat.ltb_lt in E1. rewrite app_nth1 by lia.
    rewrite nth_firstn. apply Nat.ltb_lt in E1. now rewrite E1.
  - apply Nat.ltb_ge in E1. rewrite app_nth2 by lia. rewrite Hl.
    destruct (i =? d) eqn:E2.
    + apply Nat.eqb_eq in E2. subst. now rewrite Nat.sub_diag.
    + apply Nat.eqb_neq in E2. destruct (i - d) as [|m] eqn:Em; [lia|].
      simpl. rewrite nth_skipn. f_equal. lia.
Qed.

Lemma length_insert_at (d k : nat) (idx : list nat) :
  length (insert_at d k idx) = S (length idx).
Proof.
  unfold insert_at. rewrite length_app. simpl.
  rewrite <- (firstn_skipn d idx) at 3. rewrite length_app. lia.
Qed.

Lemma insert_at_end (k : nat) (idx : list nat) :
  insert_at (length idx) k idx = idx ++ [k].
Proof. unfold insert_at. now rewrite firstn_all, skipn_all. Qed.

Lemma skipn_nth_cons (d : nat) (sh : list nat) :
  d < length sh -> skipn d sh = nth d sh 0 :: skipn (S d) sh.
Proof.
  revert d. induction sh as [|s sh IH]; intros d Hd; simpl in Hd; [lia|].
  destruct d as [|d]; [reflexivity|]. simpl. apply IH. lia.
Qed.

Lemma valid_insert_at (sh idx : list nat) (d k : nat) :
  d < length sh -> k < nth d sh 0 ->
  Nd.valid_index (remove_at d sh) idx ->
  Nd.valid_index sh (insert_at d k idx).
Proof.
  unfold Nd.valid_index, remove_at, insert_at. intros Hd Hk H.
  apply Forall2_app_inv_r in H. destruct H as (i1 & i2 & H1 & H2 & ->).
  pose proof (Forall2_length H1) as Hl1. rewrite length_firstn in Hl1.
  replace d with (length i1) at 1 2 by lia.
  rewrite firstn_app, firstn_all, Nat.sub_diag, skipn_app, skipn_all,
    Nat.sub_diag. simpl. rewrite app_nil_r.
  rewrite <- (firstn_skipn d sh) at 1. apply Forall2_app; [exact H1|].
  rewrite (skipn_nth_cons d sh Hd). constructor; assumption.
Qed.

(** *** The transposition that puts dimension [d] last *)

Lemma untouched_dims (d nd : nat) :
  d < nd ->
  filter (fun x => negb (x =? d)) (range nd) = seq 0 d ++ seq (S d) (nd - S d).
Proof.
  intros Hd. unfold range.
  replace nd with (d + S (nd - S d)) at 1 by lia.
  rewrite seq_app, filter_app. simpl. rewrite Nat.eqb_refl. simpl.
  f_equal; apply forallb_filter_id, forallb_forall; intros x Hx;
    apply in_seq in Hx; apply negb_true_iff, Nat.eqb_neq; lia.
Qed.

Lemma map_nth_seq (sh : list nat) (a n : nat) :
  a + n <= length sh ->
  map (fun i => nth i sh 0) (seq a n) = firstn n (skipn a sh).
Proof.
  revert a. induction n as [|n IH]; intros a Ha; [reflexivity|].
  simpl. rewrite (skipn_nth_cons a sh) by lia. simpl. f_equal.
  rewrite IH by lia. reflexivity.
Qed.

Lemma transposed_shape (sh : list nat) (d : nat) :
  d < length sh ->
  map (fun ax => nth ax sh 0)
      (filter (fun x => negb (x =? d)) (range (length sh)) ++ [d])
  = remove_at d sh ++ [nth d sh 0].
Proof.
  intros Hd. rewrite untouched_dims by exact Hd.
  rewrite !map_app, !map_nth_seq by lia. cbn [map]. unfold remove_at.
  change (skipn 0 sh) with sh.
  rewrite (firstn_all2 (n := length sh - S d)) by (rewrite length_skipn; lia).
  reflexivity.
Qed.

Lemma position_seq (x a n : nat) :
  a <= x < a + n -> Nd.position x (seq a n) = x - a.
Proof.
  revert a. induction n as [|n IH]; intros a Hx; [lia|].
  simpl. destruct (a =? x) eqn:E.
  - apply Nat.eqb_eq in E. lia.
  - apply Nat.eqb_neq in E. rewrite IH by lia. lia.
Qed.

Lemma position_app_l (x : nat) (l1 l2 : list nat) :
  In x l1 -> Nd.position x (l1 ++ l2) = Nd.position x l1.
Proof.
  induction l1 as [|a l1 IH]; intros H; [destruct H|].
  simpl. destruct (a =? x) eqn:E; [reflexivity|].
  apply Nat.eqb_neq in E. destruct H as [H|H]; [contradiction|].
  now rewrite IH.
Qed.

Lemma position_app_r (x : nat) (l1 l2 : list nat) :
  ~ In x l1 -> Nd.position x (l1 ++ l2) = length l1 + Nd.position x l2.
Proof.
  induction l1 as [|a l1 IH]; intros H; [reflexivity|].
  simpl. destruct (a =? x) eqn:E.
  - apply Nat.eqb_eq in E. exfalso. apply H. now left.
  - rewrite IH; [reflexivity|]. intros Hin. apply H. now right.
Qed.

Lemma position_last (d nd x : nat) :
  d < nd -> x < nd ->
  Nd.position x (filter (fun y => negb (y =? d)) (range nd) ++ [d]) =
  if x <? d then x else if x =? d then nd - 1 else x - 1.
Proof.
  intros Hd Hx. rewrite untouched_dims by exact Hd. rewrite <- app_assoc.
  destruct (x <? d) eqn:E1.
  - apply Nat.ltb_lt in E1.
    rewrite position_app_l by (apply in_seq; lia).
    rewrite position_seq by lia. lia.
  - apply Nat.ltb_ge in E1.
    rewrite position_app_r by (rewrite in_seq; lia). rewrite length_seq.
    destruct (x =? d) eqn:E2.
    + apply Nat.eqb_eq in E2. subst x.
      rewrite position_app_r by (rewrite in_seq; lia). rewrite length_seq.
      simpl. rewrite Nat.eqb_refl. lia.
    + apply Nat.eqb_neq in E2.
      rewrite position_app_l by (apply in_seq; lia).
      rewrite position_seq by lia. lia.
Qed.

(** The index into the array for an index into its transposition. *)
Lemma transposed_index (nd d k : nat) (idx : list nat) :
  d < nd -> S (length idx) = nd ->
  map (fun d' =>
         nth (Nd.position d' (filter (fun y => negb (y =? d)) (range nd) ++ [d]))
             (idx ++ [k]) 0)
      (range nd)
  = insert_at d k idx.
Proof.
  intros Hd Hl. apply (nth_ext _ _ 0 0).
  - rewrite length_map, length_insert_at. unfold range. rewrite length_seq. lia.
  - intros i Hi. rewrite length_map in Hi. unfold range in Hi.
    rewrite length_seq in Hi.
    rewrite nth_map_range by exact Hi.
    rewrite position_last by assumption.
    rewrite nth_insert_at by lia.
    destruct (i <? d) eqn:E1.
    + apply Nat.ltb_lt in E1. apply app_nth1. lia.
    + apply Nat.ltb_ge in E1. destruct (i =? d) eqn:E2.
      * rewrite app_nth2 by lia. replace (nd - 1 - length idx) with 0 by lia.
        reflexivity.
      * apply Nat.eqb_neq in E2. apply app_nth1. lia.
Qed.

Lemma get_transposed (a : Nd.ndarray) (d k : nat) (idx : list nat) :
  d < Nd.ndim a -> k < nth d (Nd.shape a) 0 ->
  Nd.valid_index (remove_at d (Nd.shape a)) idx ->
  Nd.get (Nd.transpose a
            (filter (fun y => negb (y =? d)) (range (Nd.ndim a)) ++ [d]))
         (idx ++ [k])
  = Nd.get a (insert_at d k idx).
Proof.
  intros Hd Hk Hv. unfold Nd.transpose. unfold Nd.ndim in *.
  rewrite transposed_shape by exact Hd.
  rewrite get_tabulate.
  - rewrite transposed_index; [reflexivity|exact Hd|].
    apply valid_index_length in Hv. rewrite Hv. unfold remove_at.
    rewrite length_app, length_firstn, length_skipn. lia.
  - unfold Nd.valid_index. apply Forall2_app; [exact Hv|].
    constructor; [exact Hk|constructor].
Qed.

End Indexing.

(** ** The weighted mean *)

Section Mean.

Import iris_cube.

Local Open Scope Q_scope.

Lemma sum_total (l : list Q) : iris_cube.sum l = total l.
Proof. induction l as [|x l IH]; simpl; [reflexivity|]. now rewrite IH. Qed.

Lemma total_ext (f g : nat -> Q) (l : list nat) :
  (forall k, In k l -> f k == g k) -> total (map f l) == total (map g l).
Proof.
  induction l as [|a l IH]; intros H; simpl; [reflexivity|].
  rewrite (H a (or_introl eq_refl)), IH; [reflexivity|].
  intros k Hk. apply H. now right.
Qed.

Lemma same_dims_refl (l : list nat) : same_dims l l = true.
Proof. unfold same_dims. destruct (list_eq_dec _ _ _); congruence. Qed.

Lemma same_dims_true (a b : list nat) : same_dims a b = true -> a = b.
Proof. unfold same_dims. destruct (list_eq_dec _ _ _); congruence. Qed.

Lemma normalize_last (nd : nat) :
  (0 < nd)%nat -> Nd.normalize_axis_index (-1) nd = Ok (nd - 1)%nat.
Proof.
  intros H. unfold Nd.normalize_axis_index.
  replace ((- Z.of_nat nd <=? -1)%Z && (-1 <? Z.of_nat nd)%Z) with true
    by (symmetry; apply andb_true_iff; split;
        [apply Z.leb_le|apply Z.ltb_lt]; lia).
  f_equal. change (-1 <? 0)%Z with true. cbv iota. lia.
Qed.

Lemma length_remove_at (d : nat) (sh : list nat) :
  (d < length sh)%nat -> S (length (remove_at d sh)) = length sh.
Proof.
  intros Hd. unfold remove_at.
  rewrite length_app, length_firstn, length_skipn. lia.
Qed.

Lemma nth_repeat_one (n k : nat) : (k < n)%nat -> nth k (repeat 1 n) 0 = 1.
Proof.
  revert k. induction n as [|n IH]; intros k Hk; [lia|].
  destruct k as [|k]; [reflexivity|]. simpl. apply IH. lia.
Qed.

Section Average.

Variable a : Nd.ndarray.
Variable d : nat.
Variable weights : option (list Q).

Let sh := Nd.shape a.
Let dims := filter (fun x => negb (x =? d)%nat) (range (Nd.ndim a)) ++ [d].
Let n := nth d sh 0%nat.
Let w := weights_or_equal n weights.
Let weights_array :=
  option_map (fun w0 => Nd.tabulate sh (fun idx => nth (nth d idx 0%nat) w0 0))
             weights.

Hypothesis d_lt : (d < Nd.ndim a)%nat.
Hypothesis weights_length : length w = n.

Let unrolled := Nd.transpose a dims.
Let unrolled_weights := option_map (fun w0 => Nd.transpose w0 dims) weights_array.

Lemma unrolled_shape : Nd.shape unrolled = remove_at d sh ++ [n].
Proof. apply transposed_shape. exact d_lt. Qed.

Lemma unrolled_get (idx : list nat) (k : nat) :
  Nd.valid_index (remove_at d sh) idx -> (k < n)%nat ->
  Nd.get unrolled (insert_at (Nd.ndim unrolled - 1) k idx)
  = Nd.get a (insert_at d k idx).
Proof.
  intros Hv Hk.
  replace (Nd.ndim unrolled - 1)%nat with (length idx).
  - rewrite insert_at_end. apply get_transposed; assumption.
  - unfold Nd.ndim. rewrite unrolled_shape, length_app.
    rewrite (valid_index_length _ _ Hv). simpl. lia.
Qed.

Lemma unrolled_weight (idx : list nat) (k : nat) :
  Nd.valid_index (remove_at d sh) idx -> (k < n)%nat ->
  match unrolled_weights with
  | Some w0 => Nd.get w0 (insert_at (Nd.ndim unrolled - 1) k idx)
  | None => 1
  end = nth k w 0.
Proof.
  intros Hv Hk. unfold unrolled_weights, weights_array, w, weights_or_equal.
  destruct weights as [w0|]; simpl; [|symmetry; now apply nth_repeat_one].
  replace (Nd.ndim unrolled - 1)%nat with (length idx).
  - rewrite insert_at_end.
    rewrite (get_transposed (Nd.tabulate sh _) d k idx); try assumption.
    rewrite get_tabulate by (apply valid_insert_at; assumption).
    rewrite nth_insert_at.
    + rewrite Nat.ltb_irrefl, Nat.eqb_refl. reflexivity.
    + pose proof (length_remove_at d sh d_lt) as Hl.
      rewrite (valid_index_length _ _ Hv). unfold Nd.ndim in d_lt. fold sh in d_lt.
      lia.
  - unfold Nd.ndim. rewrite unrolled_shape, length_app.
    rewrite (valid_index_length _ _ Hv). simpl. lia.
Qed.

Lemma unrolled_ndim : (Nd.ndim unrolled - 1)%nat = length (remove_at d sh).
Proof. unfold Nd.ndim. rewrite unrolled_shape, length_app. simpl. lia. Qed.

Lemma unrolled_weights_shape :
  match unrolled_weights with
  | Some w0 => negb (same_dims (Nd.shape w0) (Nd.shape unrolled))
  | None => false
  end = false.
Proof.
  unfold unrolled_weights, weights_array. destruct weights as [w0|]; simpl;
    [|reflexivity].
  unfold Nd.ndim. simpl. fold sh. fold (Nd.ndim a). fold dims.
  now rewrite same_dims_refl.
Qed.

Lemma scale_total (idx : list nat) :
  Nd.valid_index (remove_at d sh) idx ->
  iris_cube.sum
    (map (fun k => match unrolled_weights with
                   | Some w0 => Nd.get w0 (insert_at (Nd.ndim unrolled - 1) k idx)
                   | None => 1
                   end) (range n))
  == total w.
Proof.
  intros Hv. rewrite sum_total.
  rewrite (total_ext _ (fun k => nth k w 0)).
  - unfold range. rewrite <- weights_length, map_nth_range. reflexivity.
  - intros k Hk. apply in_seq in Hk. rewrite unrolled_weight by (auto; lia).
    reflexivity.
Qed.

(** What [np.ma.average] answers on the transposed data. *)
Lemma average_unrolled (r : Nd.ndarray) :
  average unrolled (-1) unrolled_weights = Ok r ->
  Nd.shape r = remove_at d sh /\
  forall idx, Nd.valid_index (remove_at d sh) idx ->
              Nd.get r idx == weighted_mean a d w idx.
Proof.
  unfold average.
  rewrite normalize_last
    by (unfold Nd.ndim; rewrite unrolled_shape, length_app; simpl; lia).
  cbn [bind]. rewrite unrolled_weights_shape.
  assert (remove_at (Nd.ndim unrolled - 1)%nat (Nd.shape unrolled) = remove_at d sh)
    as Hout.
  { rewrite unrolled_ndim, unrolled_shape, remove_at_app. apply app_nil_r. }
  assert (nth (Nd.ndim unrolled - 1)%nat (Nd.shape unrolled) 0%nat = n) as Hn.
  { rewrite unrolled_ndim, unrolled_shape, app_nth2, Nat.sub_diag by lia.
    reflexivity. }
  rewrite Hout, Hn.
  destruct (existsb _ _); [discriminate|].
  intros H. inversion H; subst r. clear H. split; [reflexivity|].
  intros idx Hv. rewrite get_tabulate by exact Hv.
  unfold weighted_mean. rewrite scale_total by exact Hv.
  apply Qdiv_comp; [|reflexivity].
  rewrite sum_total, weights_length. apply total_ext.
  intros k Hk. apply in_seq in Hk.
  rewrite unrolled_get by (auto; lia).
  rewrite unrolled_weight by (auto; lia). reflexivity.
Qed.

Lemma average_unrolled_ok :
  ~ total w == 0 -> exists r, average unrolled (-1) unrolled_weights = Ok r.
Proof.
  intros Hnz. unfold average.
  rewrite normalize_last
    by (unfold Nd.ndim; rewrite unrolled_shape, length_app; simpl; lia).
  cbn [bind]. rewrite unrolled_weights_shape.
  assert (remove_at (Nd.ndim unrolled - 1)%nat (Nd.shape unrolled) = remove_at d sh)
    as Hout.
  { rewrite unrolled_ndim, unrolled_shape, remove_at_app. apply app_nil_r. }
  assert (nth (Nd.ndim unrolled - 1)%nat (Nd.shape unrolled) 0%nat = n) as Hn.
  { rewrite unrolled_ndim, unrolled_shape, app_nth2, Nat.sub_diag by lia.
    reflexivity. }
  rewrite Hout, Hn.
  match goal with |- context [existsb ?p ?l] => destruct (existsb p l) eqn:E end;
    [|eauto].
  exfalso. apply existsb_exists in E. destruct E as (k & Hk & Hz).
  apply in_seq in Hk. apply Qeq_bool_iff in Hz.
  rewrite scale_total in Hz by (apply unravel_valid; lia).
  contradiction.
Qed.

End Average.

End Mean.

(** ** The mean mode of [process] *)

Section MeanMode.

Import iris_cube.
Import WeightedBlendAcrossWholeDimension.

Local Open Scope Q_scope.

(** The weights as [iris.util.broadcast_to_shape] lays them out. *)
Lemma broadcast_weights (cube : Cube) (d : nat) (weights : option (list Q))
    (weights_array : option Nd.ndarray) :
  match weights with
  | Some w0 => (a <- broadcast_to_shape w0 (shape cube) [d] ;; Ok (Some a))%res
  | None => Ok None
  end = Ok weights_array ->
  length (weights_or_equal (nth d (shape cube) 0%nat) weights)
    = nth d (shape cube) 0%nat /\
  weights_array =
    option_map (fun w0 => Nd.tabulate (shape cube)
                            (fun idx => nth (nth d idx 0%nat) w0 0)) weights.
Proof.
  destruct weights as [w0|]; simpl.
  - destruct (nth d (shape cube) 0 =? length w0)%nat eqn:E; cbn [bind];
      [|discriminate].
    apply Nat.eqb_eq in E. intros H. inversion H. split; [now symmetry|reflexivity].
  - intros H. inversion H. split; [apply repeat_length|reflexivity].
Qed.

(** The data of the cube [collapsed] answers with [MEAN]. *)
Lemma collapsed_mean (cube : Cube) (nm : string) (d : nat)
    (weights : option (list Q)) (result : Cube) :
  let n := nth d (shape cube) 0%nat in
  let w := weights_or_equal n weights in
  coord_dims cube nm = Ok [d] -> (d < Nd.ndim (data cube))%nat ->
  length w = n ->
  collapsed cube nm
    (MEAN (option_map (fun w0 => Nd.tabulate (shape cube)
                                   (fun idx => nth (nth d idx 0%nat) w0 0))
                      weights)) = Ok result ->
  shape result = remove_at d (shape cube) /\
  forall idx, Nd.valid_index (remove_at d (shape cube)) idx ->
              Nd.get (data result) idx == weighted_mean (data cube) d w idx.
Proof.
  intros n w Hd Hlt Hw. unfold collapsed. rewrite Hd. cbn [bind].
  destruct (mapM _ (coords_and_dims cube)) as [new_coords|]; cbn [bind];
    [|discriminate].
  destruct (average _ _ _) as [data_result|] eqn:Ea; cbn [bind]; [|discriminate].
  destruct (same_dims _ _); [|discriminate].
  intros H. inversion H; subst result. clear H.
  exact (average_unrolled (data cube) d weights Hlt Hw data_result Ea).
Qed.

Lemma collapsed_mean_ok (cube : Cube) (nm : string) (d : nat)
    (weights : option (list Q)) :
  let n := nth d (shape cube) 0%nat in
  let w := weights_or_equal n weights in
  coord_dims cube nm = Ok [d] -> (d < Nd.ndim (data cube))%nat ->
  length w = n -> ~ total w == 0 ->
  (forall cd, In cd (coords_and_dims cube) -> In d (snd cd) ->
              exists c, coord_collapsed (fst cd) = Ok c) ->
  exists result,
    collapsed cube nm
      (MEAN (option_map (fun w0 => Nd.tabulate (shape cube)
                                     (fun idx => nth (nth d idx 0%nat) w0 0))
                        weights)) = Ok result.
Proof.
  intros n w Hd Hlt Hw Hnz Hc. unfold collapsed. rewrite Hd. cbn [bind].
  assert (exists new_coords,
            mapM (fun cd : Coord * list nat =>
                    if existsb (Nat.eqb d) (snd cd)
                    then (c <- coord_collapsed (fst cd) ;;
                          Ok (c, drop_dim d (snd cd)))%res
                    else Ok (fst cd, drop_dim d (snd cd)))
                 (coords_and_dims cube) = Ok new_coords) as (new_coords & ->).
  { revert Hc. generalize (coords_and_dims cube). intros l.
    induction l as [|cd l IH]; intros Hc; simpl; [eauto|].
    destruct IH as (rest & ->); [intros; apply Hc; auto; now right|].
    destruct (existsb (Nat.eqb d) (snd cd)) eqn:E; cbn [bind]; [|eauto].
    apply existsb_exists in E. destruct E as (x & Hx & Hxd).
    apply Nat.eqb_eq in Hxd. subst x.
    destruct (Hc cd (or_introl eq_refl) Hx) as (c & ->). cbn [bind]. eauto. }
  cbn [bind].
  destruct (average_unrolled_ok (data cube) d weights Hlt Hw Hnz)
    as (data_result & Ea).
  unfold shape. rewrite Ea. cbn [bind].
  destruct (average_unrolled (data cube) d weights Hlt Hw data_result Ea)
    as (Hs & _).
  rewrite Hs, same_dims_refl. eauto.
Qed.

(** The adjustment of the coordinates leaves the data of the cube built
    during the call alone. *)
Lemma adjust_coords_fresh_data (f : list Q -> list Q) (coord_dim : list nat)
    (ks : list nat) (cube r : Cube) (r' : cube_ref) :
  snd (adjust_coords f coord_dim ks cube (Fresh r)) = Ok r' ->
  exists c, r' = Fresh c /\ data c = data r.
Proof.
  revert r. induction ks as [|k ks IH]; intros r; simpl.
  - intros H. inversion H. eauto.
  - destruct (nth_error (coords r) k) as [crd|]; [|apply IH].
    destruct (coord_dims cube (name crd)); [|discriminate].
    destruct (same_dims _ _); [|apply IH].
    destruct (iris_cube.coord cube (name crd)); [|discriminate].
    destruct (set_points _ _); [|discriminate].
    intros H. destruct (IH _ H) as (c & Hc & Hdata). exists c. split; auto.
Qed.

Lemma process_fresh_data (self : plugin) (cube : Cube)
    (weights : option (list Q)) (result : Cube) (ws : list warning)
    (r : cube_ref) :
  blend self cube weights = Ok (Fresh result, ws) ->
  returned (process self cube weights) = Ok r ->
  exists c, r = Fresh c /\ data c = data result.
Proof.
  intros Hb. unfold process. rewrite Hb.
  destruct (coord_adjust self) as [f|]; simpl.
  - destruct (coord_dims cube (coord self)) as [coord_dim|]; simpl; [|discriminate].
    pose proof (adjust_coords_fresh_data f coord_dim
                  (range (length (coords result))) cube result) as Hf.
    destruct (adjust_coords f coord_dim _ cube (Fresh result)) as [cube' r'].
    simpl in *. intros H. subst r'. apply Hf. reflexivity.
  - intros H. inversion H. eauto.
Qed.

(** The mean branch of [blend]. *)
Lemma blend_mean (self : plugin) (cube : Cube) (weights : option (list Q))
    (d : nat) :
  percentile_coords cube = [] -> coord_dims cube (coord self) = Ok [d] ->
  blend self cube weights =
  (_ <- check_weights self cube weights ;;
   weights_array <-
     match weights with
     | Some w0 => a <- broadcast_to_shape w0 (shape cube) [d] ;; Ok (Some a)
     | None => Ok None
     end ;;
   result <- collapsed cube (coord self) (MEAN weights_array) ;;
   Ok (Fresh result, []))%res.
Proof.
  intros Hp Hd. unfold blend. rewrite (check_percentile_none cube Hp).
  cbn [bind]. destruct (check_weights self cube weights); cbn [bind];
    [|reflexivity].
  rewrite Hd. reflexivity.
Qed.

End MeanMode.

(** C8: in mean mode, that is for a cube without percentile coordinate
    whose blend coordinate lies on dimension [d], whatever [process]
    returns is a new cube, of the shape of the input without dimension
    [d], whose value at every index is the weighted arithmetic mean along
    [d]: the sum of value times weight divided by the sum of the weights,
    the weights being those given or else equal ones.  And [process] does
    return when no [coord_adjust] is configured, there are as many
    weights as points of the coordinate and as the dimension is long,
    their sum is not zero and the coordinates on the dimension can be
    collapsed. *)
Theorem process_weighted_mean
    (self : WeightedBlendAcrossWholeDimension.plugin) (cube : iris_cube.Cube)
    (weights : option (list Q)) (d : nat) :
  percentile_coords cube = [] ->
  iris_cube.coord_dims cube (WeightedBlendAcrossWholeDimension.coord self)
    = Ok [d] ->
  d < Nd.ndim (iris_cube.data cube) ->
  let w := weights_or_equal (nth d (iris_cube.shape cube) 0) weights in
  (forall r,
     returned (WeightedBlendAcrossWholeDimension.process self cube weights)
       = Ok r ->
     exists result,
       r = Fresh result /\
       iris_cube.shape result = remove_at d (iris_cube.shape cube) /\
       forall idx,
         Nd.valid_index (iris_cube.shape result) idx ->
         (Nd.get (iris_cube.data result) idx
          == weighted_mean (iris_cube.data cube) d w idx)%Q) /\
  (WeightedBlendAcrossWholeDimension.coord_adjust self = None ->
   (forall c,
      iris_cube.coord cube (WeightedBlendAcrossWholeDimension.coord self) = Ok c ->
      length w = length (iris_cube.points c)) ->
   length w = nth d (iris_cube.shape cube) 0 ->
   ~ (total w == 0)%Q ->
   (forall cd, In cd (iris_cube.coords_and_dims cube) -> In d (snd cd) ->
               exists c, iris_cube.coord_collapsed (fst cd) = Ok c) ->
   exists result,
     returned (WeightedBlendAcrossWholeDimension.process self cube weights)
       = Ok (Fresh result)).
Proof.
  intros Hp Hd Hlt w.
  pose proof (blend_mean self cube weights d Hp Hd) as Hb.
  split.
  - intros r Hr.
    destruct (WeightedBlendAcrossWholeDimension.blend self cube weights)
      as [[rr ws]|e] eqn:Eb.
    2:{ unfold WeightedBlendAcrossWholeDimension.process in Hr.
        rewrite Eb in Hr. discriminate. }
    symmetry in Hb.
    destruct (WeightedBlendAcrossWholeDimension.check_weights self cube weights);
      cbn [bind] in Hb; [|discriminate].
    match type of Hb with
    | bind ?c _ = _ => destruct c as [weights_array|] eqn:Ew
    end; cbn [bind] in Hb; [|discriminate].
    destruct (iris_cube.collapsed cube _ _) as [result|] eqn:Ec;
      cbn [bind] in Hb; [|discriminate].
    inversion Hb; subst rr ws. clear Hb.
    destruct (broadcast_weights cube d weights weights_array Ew) as (Hw & ->).
    destruct (collapsed_mean cube _ d weights result Hd Hlt Hw Ec) as (Hs & Hv).
    destruct (process_fresh_data self cube weights result [] r Eb Hr)
      as (c & -> & Hdata).
    exists c. split; [reflexivity|].
    unfold iris_cube.shape in *. rewrite Hdata. split; [exact Hs|].
    intros idx Hidx. apply Hv. now rewrite <- Hs.
  - intros Hadj Hpoints Hw Hnz Hc.
    destruct (collapsed_mean_ok cube (WeightedBlendAcrossWholeDimension.coord self)
                d weights Hd Hlt Hw Hnz Hc) as (result & Hres).
    exists result.
    unfold WeightedBlendAcrossWholeDimension.process. rewrite Hb.
    assert (WeightedBlendAcrossWholeDimension.check_weights self cube weights
            = Ok tt) as ->.
    { unfold WeightedBlendAcrossWholeDimension.check_weights.
      destruct weights as [w0|]; [|reflexivity].
      unfold iris_cube.coord_dims in Hd. unfold iris_cube.coord in *.
      destruct (iris_cube.lookup cube _) as [cd|]; cbn [bind] in *;
        [|discriminate].
      specialize (Hpoints _ eq_refl). subst w. simpl in Hpoints.
      rewrite Hpoints, Nat.eqb_refl. reflexivity. }
    cbn [bind].
    assert (match weights with
            | Some w0 =>
                (a <- iris_cube.broadcast_to_shape w0 (iris_cube.shape cube) [d] ;;
                 Ok (Some a))%res
            | None => Ok None
            end
            = Ok (option_map
                    (fun w0 => Nd.tabulate (iris_cube.shape cube)
                                 (fun idx => nth (nth d idx 0) w0 0%Q)) weights))
      as ->.
    { destruct weights as [w0|]; [|reflexivity]. subst w. simpl in Hw.
      simpl. rewrite <- Hw, Nat.eqb_refl. reflexivity. }
    cbn [bind]. rewrite Hres. cbn [bind]. rewrite Hadj. reflexivity.
Qed.

(** ** The correction of collapsed coordinates *)

Section Correction.

Import iris_cube.
Import TriangularWeightedBlendAcrossAdjacentPoints.

Lemma write_coord_deref (cube : Cube) (r : cube_ref) (k : nat) (c : Coord) :
  deref (fst (write_coord cube r k c)) (snd (write_coord cube r k c))
  = with_coord (deref cube r) k c.
Proof. destruct r; reflexivity. Qed.

Lemma Forall2_replace_where {A : Type} (R : A -> A -> Prop) (p : A -> bool)
    (l : list A) (x x' : A) :
  filter p l = [x] -> (forall y, p y = false -> R y y) -> R x x' ->
  Forall2 R l (replace_nth (position_where p l) x' l).
Proof.
  intros Hf Hrefl Hx. induction l as [|a l IH]; [discriminate|].
  simpl in Hf. simpl. destruct (p a) eqn:Ea.
  - inversion Hf; subst. constructor; [exact Hx|].
    match goal with H : filter p l = [] |- _ => rename H into Hnone end.
    clear -Hnone Hrefl. induction l as [|b l IH]; constructor.
    + simpl in Hnone. destruct (p b) eqn:Eb; [discriminate|]. now apply Hrefl.
    + apply IH. simpl in Hnone. now destruct (p b).
  - constructor; [now apply Hrefl|]. now apply IH.
Qed.

(** Writing the corrected coordinate of the name [nm]. *)
Lemma with_coord_corrected (cube : Cube) (nm : string) (nc oc c : Coord)
    (ds : list nat) :
  lookup cube nm = Ok (nc, ds) ->
  set_points nc (points oc) = Ok c ->
  let c' := match bounds oc with
            | Some b => mk_coord (name c) (points c) (Some b)
            | None => c
            end in
  let cube' := with_coord cube (position_where (named nm) (coords_and_dims cube)) c' in
  data cube' = data cube /\
  Forall2 (corrected_step nm oc) (coords_and_dims cube) (coords_and_dims cube').
Proof.
  intros Hl Hs c' cube'. split; [reflexivity|].
  pose proof (lookup_filter _ _ _ Hl) as Hf.
  destruct (position_where_unique _ _ _ (c', []) Hf) as (Hk & Hnth).
  subst cube'. unfold with_coord. simpl. rewrite Hnth. simpl.
  apply Forall2_replace_where with (x := (nc, ds)); [exact Hf| |].
  - intros y Hy. left. split; [exact Hy|reflexivity].
  - right. simpl.
    assert (named nm (nc, ds) = true) as Hn.
    { assert (In (nc, ds) (filter (named nm) (coords_and_dims cube))) as Hin
        by (rewrite Hf; now left).
      apply filter_In in Hin. tauto. }
    unfold set_points in Hs. destruct (_ =? _); inversion Hs; subst c.
    split; [exact Hn|]. subst c'.
    destruct (bounds oc); simpl; repeat split; reflexivity.
Qed.

Lemma corrected_compose (orig : Cube) (nm : string) (rest : list string)
    (oc : Coord) (l l1 l2 : list (Coord * list nat)) :
  iris_cube.coord orig nm = Ok oc ->
  Forall2 (corrected_step nm oc) l l1 ->
  Forall2 (corrected_coord orig rest) l1 l2 ->
  Forall2 (corrected_coord orig (nm :: rest)) l l2.
Proof.
  intros Hoc H1. revert l2.
  induction H1 as [|cd cd1 l l1 Hstep _ IH]; intros l2 H2; inversion H2; subst;
    constructor; [|now apply IH].
  match goal with H : corrected_coord orig rest cd1 _ |- _ =>
    destruct H as (Hn & Hd & Hrest) end.
  unfold corrected_coord. cbn [existsb].
  destruct Hstep as [(Hnamed & ->)|(Hnamed & Hn1 & Hd1 & Hp1 & Hb1)].
  - unfold named in Hnamed. rewrite Hnamed. simpl. auto.
  - unfold named in Hnamed. rewrite Hnamed. simpl.
    apply String.eqb_eq in Hnamed.
    split; [congruence|]. split; [congruence|].
    rewrite Hn1 in Hrest.
    destruct (existsb (String.eqb (name (fst cd))) rest).
    + destruct Hrest as (oc' & Hoc' & Hp & Hb). rewrite Hnamed in *.
      assert (oc' = oc) as -> by congruence.
      exists oc. split; [exact Hoc|]. split; [exact Hp|].
      rewrite Hb, Hb1. now destruct (bounds oc).
    + exists oc. rewrite Hnamed. split; [exact Hoc|].
      rewrite Hrest. split; assumption.
Qed.

Lemma corrected_nil (orig : Cube) (l : list (Coord * list nat)) :
  Forall2 (corrected_coord orig []) l l.
Proof. induction l; constructor; auto. repeat split. Qed.

(** What the loop leaves, on the cube the reference stands for. *)
Lemma correct_collapsed_coordinates_deref (orig : Cube) (names : list string)
    (cube : Cube) (new_cube : cube_ref) (cube' : Cube) (r' : cube_ref) :
  correct_collapsed_coordinates orig cube new_cube names = (cube', Ok r') ->
  data (deref cube' r') = data (deref cube new_cube) /\
  Forall2 (corrected_coord orig names)
          (coords_and_dims (deref cube new_cube))
          (coords_and_dims (deref cube' r')).
Proof.
  revert cube new_cube. induction names as [|nm rest IH]; intros cube new_cube;
    simpl.
  - intros H. inversion H; subst. split; [reflexivity|apply corrected_nil].
  - destruct (lookup (deref cube new_cube) nm) as [[nc ds]|] eqn:El.
    2:{ destruct (iris_cube.coord orig nm); discriminate. }
    destruct (iris_cube.coord orig nm) as [oc|] eqn:Eo; [|discriminate].
    destruct (set_points nc (points oc)) as [c|] eqn:Es; [|discriminate].
    destruct (with_coord_corrected _ _ _ _ _ _ El Es) as (Hd1 & Hc1).
    cbv zeta in Hd1, Hc1.
    set (c' := match bounds oc with
               | Some b => mk_coord (name c) (points c) (Some b)
               | None => c
               end) in *.
    set (k := position_where (named nm) (coords_and_dims (deref cube new_cube)))
      in *.
    pose proof (write_coord_deref cube new_cube k c') as Hw.
    destruct (write_coord cube new_cube k c') as [cube1 r1]. simpl in Hw.
    intros H. destruct (IH _ _ H) as (Hd2 & Hc2). rewrite Hw in Hd2, Hc2.
    split; [congruence|].
    eapply corrected_compose; eauto.
Qed.

Lemma corrected_step_named (nm nm' : string) (oc : Coord)
    (cd cd' : Coord * list nat) :
  corrected_step nm oc cd cd' -> named nm' cd = named nm' cd'.
Proof.
  unfold named. intros [(_ & ->)|(_ & -> & _)]; reflexivity.
Qed.

(** The loop returns when every name names one coordinate of each cube,
    with as many points in the one as in the other. *)
Lemma correct_collapsed_coordinates_ok (orig : Cube) (names : list string)
    (cube : Cube) (new_cube : cube_ref) :
  (forall nm, In nm names ->
     exists nc ds oc,
       lookup (deref cube new_cube) nm = Ok (nc, ds) /\
       iris_cube.coord orig nm = Ok oc /\
       length (points oc) = length (points nc)) ->
  exists cube' r',
    correct_collapsed_coordinates orig cube new_cube names = (cube', Ok r').
Proof.
  revert cube new_cube. induction names as [|nm rest IH]; intros cube new_cube H;
    simpl; [eauto|].
  destruct (H nm (or_introl eq_refl)) as (nc & ds & oc & El & Eo & Hlen).
  rewrite El, Eo.
  assert (set_points nc (points oc)
          = Ok (mk_coord (name nc) (points oc) (bounds nc))) as Es.
  { unfold set_points. now rewrite Hlen, Nat.eqb_refl. }
  rewrite Es.
  destruct (with_coord_corrected _ _ _ _ _ _ El Es) as (_ & Hc1).
  cbv zeta in Hc1.
  set (c' := match bounds oc with
             | Some b => mk_coord _ _ (Some b)
             | None => _
             end) in *.
  set (k := position_where (named nm) (coords_and_dims (deref cube new_cube)))
    in *.
  pose proof (write_coord_deref cube new_cube k c') as Hw.
  destruct (write_coord cube new_cube k c') as [cube1 r1]. simpl in Hw.
  apply IH. intros nm' Hin. rewrite Hw.
  destruct (H nm' (or_intror Hin)) as (nc' & ds' & oc' & El' & Eo' & Hlen').
  pose proof (Forall2_filter _ (named nm') _ _
                (corrected_step_named nm nm' oc) Hc1) as Hf.
  rewrite (lookup_filter _ _ _ El') in Hf.
  inversion Hf as [|x y l l' Hxy Hrest Hx Hy]; subst. inversion Hrest; subst.
  destruct y as [nc1 ds1]. exists nc1, ds1, oc'.
  split; [apply filter_lookup; symmetry; exact Hy|]. split; [exact Eo'|].
  destruct Hxy as [(_ & Heq)|(Hnamed & _ & _ & Hp & _)].
  - inversion Heq; subst. exact Hlen'.
  - simpl in Hp. rewrite Hp.
    assert (In (nc', ds') (filter (named nm') (coords_and_dims (deref cube new_cube))))
      as Hin' by (rewrite (lookup_filter _ _ _ El'); now left).
    apply filter_In in Hin'. destruct Hin' as (_ & Hn').
    unfold named in Hnamed, Hn'. simpl in *.
    apply String.eqb_eq in Hnamed, Hn'. assert (nm' = nm) as -> by congruence.
    congruence.
Qed.

(** The loop never leaves the object it was given for another. *)
Lemma correct_collapsed_coordinates_ref (orig : Cube) (names : list string)
    (cube : Cube) (new_cube : cube_ref) (cube' : Cube) (r' : cube_ref) :
  correct_collapsed_coordinates orig cube new_cube names = (cube', Ok r') ->
  match new_cube with
  | TheInput => r' = TheInput
  | Fresh _ => cube' = cube /\ exists c, r' = Fresh c
  end.
Proof.
  revert cube new_cube. induction names as [|nm rest IH]; intros cube new_cube;
    simpl.
  - intros H. inversion H; subst. destruct r'; eauto.
  - destruct (lookup (deref cube new_cube) nm) as [[nc ds]|].
    2:{ destruct (iris_cube.coord orig nm); discriminate. }
    destruct (iris_cube.coord orig nm) as [oc|]; [|discriminate].
    destruct (set_points nc (points oc)) as [c|]; [|discriminate].
    destruct new_cube as [|n]; simpl; intros H; exact (IH _ _ H).
Qed.

End Correction.

(** X1: [correct_collapsed_coordinates] on a new cube that is an object
    of its own.  When it returns, the caller's cube is untouched and the
    new cube has its data and, position by position, its coordinates as
    before, except that every coordinate named in [coords_to_correct] has
    the points of the coordinate of that name of [orig_cube], and its
    bounds when that one has bounds.  It does return when every name
    names exactly one coordinate of either cube, with as many points in
    the one as in the other. *)
Theorem correct_collapsed_coordinates_corrects
    (orig_cube cube new_cube : iris_cube.Cube)
    (coords_to_correct : list String.string) :
  (forall cube' r',
     TriangularWeightedBlendAcrossAdjacentPoints.correct_collapsed_coordinates
       orig_cube cube (Fresh new_cube) coords_to_correct = (cube', Ok r') ->
     cube' = cube /\
     exists corrected,
       r' = Fresh corrected /\
       iris_cube.data corrected = iris_cube.data new_cube /\
       Forall2 (corrected_coord orig_cube coords_to_correct)
               (iris_cube.coords_and_dims new_cube)
               (iris_cube.coords_and_dims corrected)) /\
  ((forall nm, In nm coords_to_correct ->
      exists nc ds oc,
        iris_cube.lookup new_cube nm = Ok (nc, ds) /\
        iris_cube.coord orig_cube nm = Ok oc /\
        length (iris_cube.points oc) = length (iris_cube.points nc)) ->
   exists corrected,
     TriangularWeightedBlendAcrossAdjacentPoints.correct_collapsed_coordinates
       orig_cube cube (Fresh new_cube) coords_to_correct
     = (cube, Ok (Fresh corrected))).
Proof.
  split.
  - intros cube' r' H.
    destruct (correct_collapsed_coordinates_ref _ _ _ _ _ _ H) as (-> & c & ->).
    split; [reflexivity|]. exists c. split; [reflexivity|].
    exact (correct_collapsed_coordinates_deref _ _ _ _ _ _ H).
  - intros Hnames.
    destruct (correct_collapsed_coordinates_ok orig_cube coords_to_correct cube
                (Fresh new_cube) Hnames) as (cube' & r' & H).
    destruct (correct_collapsed_coordinates_ref _ _ _ _ _ _ H) as (-> & c & ->).
    eauto.
Qed.

(** ** Guessed bounds are monotonic *)

Section GuessedBounds.

Import iris_cube.

Local Open Scope Q_scope.

(** A test of the steps of an array that the steps of its guessed bounds
    pass too: it holds of the mean of two steps it holds of. *)
Variable b : Q -> bool.
Hypothesis b_proper : forall x y, x == y -> b x = b y.
Hypothesis b_mean : forall x y, b x = true -> b y = true ->
                                b ((x + y) * (1 # 2)) = true.

Lemma lower_bounds_steps (l : list Q) (e : Q) :
  b e = true -> forallb b (diff l) = true ->
  forallb b (diff (map (fun p => fst p - snd p * (1 # 2))
                       (combine l (e :: diff l)))) = true.
Proof.
  revert e. induction l as [|p [|q l] IH]; intros e He Hd; try reflexivity.
  change (diff (p :: q :: l)) with ((q - p) :: diff (q :: l)) in *.
  cbn [forallb] in Hd. apply andb_prop in Hd. destruct Hd as (Hpq & Hd).
  specialize (IH (q - p) Hpq Hd).
  cbn [combine map fst snd] in *.
  change (diff (q :: l)) with (diff (q :: l)) in *.
  destruct l as [|r l].
  - cbn [diff combine map fst snd forallb]. rewrite andb_true_r.
    rewrite (b_proper _ (((q - p) + e) * (1 # 2))) by ring.
    now apply b_mean.
  - change (diff (q :: r :: l)) with ((r - q) :: diff (r :: l)) in *.
    cbn [combine map fst snd] in *.
    cbn [diff forallb] in *. rewrite IH, andb_true_r.
    rewrite (b_proper _ (((q - p) + e) * (1 # 2))) by ring.
    now apply b_mean.
Qed.

Lemma upper_bounds_steps (l : list Q) (z : Q) :
  b z = true -> forallb b (diff l) = true ->
  forallb b (diff (map (fun p => fst p + snd p * (1 # 2))
                       (combine l (diff l ++ [z])))) = true.
Proof.
  intros Hz. induction l as [|p [|q l] IH]; intros Hd; try reflexivity.
  change (diff (p :: q :: l)) with ((q - p) :: diff (q :: l)) in *.
  cbn [forallb] in Hd. apply andb_prop in Hd. destruct Hd as (Hpq & Hd).
  specialize (IH Hd).
  destruct l as [|r l].
  - cbn [diff app combine map fst snd forallb]. rewrite andb_true_r.
    rewrite (b_proper _ (((q - p) + z) * (1 # 2))) by ring.
    now apply b_mean.
  - change (diff (q :: r :: l)) with ((r - q) :: diff (r :: l)) in *.
    cbn [app combine map fst snd] in *.
    cbn [diff forallb] in *. rewrite IH, andb_true_r.
    cbn [forallb] in Hd. apply andb_prop in Hd. destruct Hd as (Hqr & _).
    rewrite (b_proper _ (((q - p) + (r - q)) * (1 # 2))) by ring.
    now apply b_mean.
Qed.

Lemma forallb_hd (l : list Q) :
  l <> [] -> forallb b l = true -> b (hd 0 l) = true.
Proof.
  destruct l as [|x l]; [congruence|]. simpl. intros _ H.
  now apply andb_prop in H.
Qed.

Lemma forallb_last (l : list Q) :
  l <> [] -> forallb b l = true -> b (last l 0) = true.
Proof.
  intros Hne H. rewrite forallb_forall in H. apply H.
  destruct l as [|x l]; [congruence|].
  clear. revert x. induction l as [|y l IH]; intros x; [now left|].
  right. apply (IH y).
Qed.

End GuessedBounds.

Section GuessBoundsTwice.

Import iris_cube.

Local Open Scope Q_scope.

Lemma steps_up_mean (x y : Q) :
  Np.Qltb 0 x = true -> Np.Qltb 0 y = true ->
  Np.Qltb 0 ((x + y) * (1 # 2)) = true.
Proof.
  unfold Np.Qltb. rewrite !negb_true_iff.
  intros Hx Hy.
  destruct (Qle_bool ((x + y) * (1 # 2)) 0) eqn:E; [|reflexivity].
  apply Qle_bool_iff in E.
  assert (~ x <= 0) as Hx' by (intros H; apply Qle_bool_iff in H; congruence).
  assert (~ y <= 0) as Hy' by (intros H; apply Qle_bool_iff in H; congruence).
  exfalso. lra.
Qed.

Lemma steps_down_mean (x y : Q) :
  Np.Qltb x 0 = true -> Np.Qltb y 0 = true ->
  Np.Qltb ((x + y) * (1 # 2)) 0 = true.
Proof.
  unfold Np.Qltb. rewrite !negb_true_iff.
  intros Hx Hy.
  destruct (Qle_bool 0 ((x + y) * (1 # 2))) eqn:E; [|reflexivity].
  apply Qle_bool_iff in E.
  assert (~ 0 <= x) as Hx' by (intros H; apply Qle_bool_iff in H; congruence).
  assert (~ 0 <= y) as Hy' by (intros H; apply Qle_bool_iff in H; congruence).
  exfalso. lra.
Qed.

Lemma map_fst_combine {A B : Type} (l : list A) (l' : list B) :
  length l = length l' -> map fst (combine l l') = l.
Proof.
  revert l'. induction l as [|a l IH]; intros [|a' l'] H; simpl in *;
    try discriminate; [reflexivity|]. f_equal. apply IH. lia.
Qed.

Lemma map_snd_combine {A B : Type} (l : list A) (l' : list B) :
  length l = length l' -> map snd (combine l l') = l'.
Proof.
  revert l'. induction l as [|a l IH]; intros [|a' l'] H; simpl in *;
    try discriminate; [reflexivity|]. f_equal. apply IH. lia.
Qed.

Lemma length_diff (l : list Q) : length (diff l) = pred (length l).
Proof.
  induction l as [|p [|q l] IH]; try reflexivity.
  change (diff (p :: q :: l)) with ((q - p) :: diff (q :: l)).
  cbn [length] in *. now rewrite IH.
Qed.

(** The bounds [guess_bounds] gives strictly monotonic points are
    strictly monotonic. *)
Lemma guessed_bounds_monotonic (pts : list Q) :
  (2 <= length pts)%nat -> monotonic pts = true ->
  let diffs := diff pts in
  let min_bounds := map (fun p => fst p - snd p * (1 # 2))
                        (combine pts (hd 0 diffs :: diffs)) in
  let max_bounds := map (fun p => fst p + snd p * (1 # 2))
                        (combine pts (diffs ++ [last diffs 0])) in
  monotonic (map fst (combine min_bounds max_bounds)) = true /\
  monotonic (map snd (combine min_bounds max_bounds)) = true.
Proof.
  intros Hlen Hm diffs min_bounds max_bounds.
  assert (diffs <> []) as Hne.
  { intros E. apply (f_equal (@Datatypes.length Q)) in E.
    unfold diffs in E. rewrite length_diff in E. simpl in E. lia. }
  assert (length min_bounds = length max_bounds) as Hl.
  { unfold min_bounds, max_bounds.
    rewrite !length_map, !length_combine, length_app. cbn [length].
    unfold diffs. rewrite length_diff. lia. }
  rewrite (map_fst_combine _ _ Hl), (map_snd_combine _ _ Hl).
  unfold monotonic in *. apply orb_prop in Hm. destruct Hm as [Hup|Hdown].
  - assert (forall x y, x == y -> Np.Qltb 0 x = Np.Qltb 0 y) as Hp
        by (intros x y E; apply Qltb_proper; [reflexivity|exact E]).
    split; apply orb_true_intro; left.
    + apply (lower_bounds_steps _ Hp steps_up_mean); [|exact Hup].
      now apply (forallb_hd (fun d => Np.Qltb 0 d)).
    + apply (upper_bounds_steps _ Hp steps_up_mean); [|exact Hup].
      now apply (forallb_last (fun d => Np.Qltb 0 d)).
  - assert (forall x y, x == y -> Np.Qltb x 0 = Np.Qltb y 0) as Hp
        by (intros x y E; apply Qltb_proper; [exact E|reflexivity]).
    split; apply orb_true_intro; right.
    + apply (lower_bounds_steps _ Hp steps_down_mean); [|exact Hdown].
      now apply (forallb_hd (fun d => Np.Qltb d 0)).
    + apply (upper_bounds_steps _ Hp steps_down_mean); [|exact Hdown].
      now apply (forallb_last (fun d => Np.Qltb d 0)).
Qed.

End GuessBoundsTwice.

(** ** What the sliding-window blend asks of the cube *)

Section TriangularBounds.

Import iris_cube.
Import TriangularWeightedBlendAcrossAdjacentPoints.

Lemma guessed_lookup (dims : list nat) (a b : Cube) (nm : string)
    (cd : Coord * list nat) :
  same_but_guessed_bounds dims a b -> lookup a nm = Ok cd ->
  exists cd', lookup b nm = Ok cd' /\ unchanged_or_guessed dims cd cd'.
Proof.
  intros [_ Hc] Hl. apply lookup_filter in Hl.
  assert (forall x y, unchanged_or_guessed dims x y -> named nm x = named nm y)
    as Hp.
  { intros x y Hxy. unfold named.
    destruct (unchanged_or_guessed_name _ _ _ Hxy) as (-> & _). reflexivity. }
  pose proof (Forall2_filter _ (named nm) _ _ Hp Hc) as Hf.
  rewrite Hl in Hf. inversion Hf as [|x y l l' Hxy Hrest Hx Hy]; subst.
  inversion Hrest; subst.
  exists y. split; [apply filter_lookup; congruence|exact Hxy].
Qed.

Lemma guess_bounds_again (c c' : Coord) :
  guess_bounds c = Ok c' -> guess_bounds c' = Raise (ValueError MsgHasBounds).
Proof.
  unfold guess_bounds.
  destruct (negb (is_monotonic c)) eqn:Em; [discriminate|].
  destruct (length (points c) <? 2) eqn:El; [discriminate|].
  destruct (bounds c) eqn:Eb; [discriminate|].
  intros H. inversion H; subst. clear H. cbn [points bounds].
  apply negb_false_iff in Em. apply Nat.ltb_ge in El.
  unfold is_monotonic in Em. rewrite Eb, andb_true_r in Em.
  destruct (length (points c) =? 1) eqn:E1; [apply Nat.eqb_eq in E1; lia|].
  destruct (guessed_bounds_monotonic (points c) El Em) as (Hlo & Hhi).
  cbv zeta in Hlo, Hhi.
  unfold is_monotonic. cbn [points bounds]. rewrite E1, Em, Hlo, Hhi.
  cbn [andb negb]. rewrite (proj2 (Nat.ltb_ge _ _) El). reflexivity.
Qed.

(** A round that went well: every name named a coordinate without
    bounds, which has the guessed bounds afterwards. *)
Lemma guess_all_bounds_done (dims : list nat) (names : list string)
    (cube cube1 : Cube) :
  (forall nm, In nm names -> forall cd, lookup cube nm = Ok cd -> snd cd = dims) ->
  guess_all_bounds cube names = (cube1, Ok tt) ->
  forall nm, In nm names ->
    exists c c1,
      lookup cube nm = Ok (c, dims) /\ guess_bounds c = Ok c1 /\
      lookup cube1 nm = Ok (c1, dims).
Proof.
  revert cube. induction names as [|nm0 rest IH]; intros cube Hdims H nm Hin;
    [destruct Hin|].
  simpl in H.
  destruct (iris_cube.coord cube nm0) as [c|] eqn:Ec; [|discriminate].
  destruct (guess_bounds c) as [c'|] eqn:Eg; [|discriminate].
  set (cube0 := with_coord cube (position_where (named nm0) (coords_and_dims cube)) c')
    in *.
  assert (same_but_guessed_bounds dims cube cube0) as Hstep.
  { apply guess_bounds_step with (c := c); auto. apply Hdims. now left. }
  assert (forall nm', In nm' rest ->
            forall cd, lookup cube0 nm' = Ok cd -> snd cd = dims) as Hdims0.
  { intros nm' Hin' cd' Hl.
    destruct (lookup_guessed _ _ _ _ _ Hstep Hl) as (cd & Hcd & <-).
    apply (Hdims nm'); [now right|exact Hcd]. }
  pose proof (guess_all_bounds_frame dims rest cube0 Hdims0) as Hframe.
  rewrite H in Hframe. simpl in Hframe.
  assert (lookup cube nm0 = Ok (c, dims)) as Hl0.
  { unfold iris_cube.coord in Ec.
    destruct (lookup cube nm0) as [[c0 ds]|] eqn:El; cbn [bind] in Ec;
      [|discriminate].
    inversion Ec; subst c0. f_equal. f_equal.
    apply (Hdims nm0 (or_introl eq_refl) _ El). }
  assert (lookup cube0 nm0 = Ok (c', dims)) as Hl1.
  { destruct (guessed_lookup _ _ _ _ _ Hstep Hl0) as ([c1 ds1] & Hl1 & Hrel).
    assert (c1 = c' /\ ds1 = dims) as (-> & ->); [|exact Hl1].
    pose proof (lookup_filter _ _ _ Hl0) as Hf.
    destruct (position_where_unique _ _ _ (c', []) Hf) as (Hk & Hnth).
    assert (In (c1, ds1) (filter (named nm0) (coords_and_dims cube0))) as Hin1
      by (rewrite (lookup_filter _ _ _ Hl1); now left).
    apply filter_In in Hin1. destruct Hin1 as (_ & Hnamed1).
    destruct Hrel as [Heq|(_ & Hd & Hg)].
    - exfalso. inversion Heq; subst c1 ds1.
      assert (In (c', dims) (coords_and_dims cube0)) as Hin0.
      { unfold cube0, with_coord. simpl. rewrite Hnth. simpl.
        clear -Hk. revert Hk.
        generalize (position_where (named nm0) (coords_and_dims cube)).
        induction (coords_and_dims cube) as [|a l IHl]; intros k Hk;
          simpl in Hk; [lia|].
        destruct k; simpl; [now left|]. right. apply IHl. lia. }
      assert (named nm0 (c', dims) = true) as Hn'.
      { unfold named in *. simpl in *.
        destruct (guess_bounds_ok _ _ Eg) as (-> & _). exact Hnamed1. }
      pose proof (filter_unique _ _ _ _ (lookup_filter _ _ _ Hl1) Hin0 Hn') as He.
      inversion He; subst c'.
      destruct (guess_bounds_ok _ _ Eg) as (_ & _ & Hn & Hs). contradiction.
    - simpl in Hd, Hg. split; [congruence|exact Hd]. }
  destruct Hin as [<-|Hin].
  - exists c, c'. split; [exact Hl0|]. split; [exact Eg|].
    destruct (guessed_lookup _ _ _ _ _ Hframe Hl1) as ([c1 ds1] & Hl2 & Hrel).
    destruct Hrel as [Heq|(_ & _ & Hg)]; [now rewrite <- Heq|].
    exfalso. simpl in Hg.
    destruct (guess_bounds_ok _ _ Eg) as (_ & _ & _ & Hs).
    destruct (guess_bounds_ok _ _ Hg) as (_ & _ & Hn & _). contradiction.
  - destruct (IH cube0 Hdims0 H nm Hin) as (cs & c1 & Hls & Hgs & Hl2).
    destruct (lookup_guessed _ _ _ _ _ Hstep Hls) as ([co ds] & Hlo & Hd).
    simpl in Hd. subst ds.
    destruct (guessed_lookup _ _ _ _ _ Hstep Hlo) as (cd' & Hl' & Hrel).
    rewrite Hls in Hl'. inversion Hl'; subst cd'.
    destruct Hrel as [Heq|(_ & _ & Hg)].
    + inversion Heq; subst. exists co, c1. auto.
    + exfalso. simpl in Hg.
      destruct (guess_bounds_ok _ _ Hg) as (_ & _ & _ & Hs).
      destruct (guess_bounds_ok _ _ Hgs) as (_ & _ & Hn & _). contradiction.
Qed.

Lemma guess_bounds_needs (c c' : Coord) :
  guess_bounds c = Ok c' ->
  bounds c = None /\ 2 <= length (points c) /\ monotonic (points c) = true.
Proof.
  unfold guess_bounds.
  destruct (is_monotonic c) eqn:Em; [|discriminate]. simpl.
  destruct (length (points c) <? 2) eqn:El; [discriminate|].
  apply Nat.ltb_ge in El.
  destruct (bounds c) eqn:Eb; [discriminate|]. intros _.
  unfold is_monotonic in Em. rewrite Eb, andb_true_r in Em.
  destruct (length (points c) =? 1) eqn:E1; [apply Nat.eqb_eq in E1; lia|].
  auto.
Qed.

Lemma guessed_names (dims ds : list nat) (a b : Cube) :
  same_but_guessed_bounds dims a b ->
  map name (coords_on a ds) = map name (coords_on b ds).
Proof.
  intros [_ Hc]. unfold coords_on.
  induction Hc as [|x y l l' Hxy _ IH]; [reflexivity|].
  destruct (unchanged_or_guessed_name _ _ _ Hxy) as (Hn & _ & Hd).
  simpl. rewrite Hd. destruct (same_dims (snd x) ds); simpl; [|exact IH].
  now rewrite Hn, IH.
Qed.

Section Collaborators.

Variable triangular_weights :
  Q -> String.string -> Cube -> String.string -> Q -> res (list Q).
Variable concatenate_cubes : list Cube -> res Cube.

(** A run of [process] that returns went through the guessing of all
    the bounds. *)
Lemma process_guessed (self : plugin) (cube result : Cube) (dims : list nat) :
  coord_dims cube (coord self) = Ok dims ->
  returned (process triangular_weights concatenate_cubes self cube) = Ok result ->
  guess_all_bounds cube (map name (coords_on cube dims))
  = (input_after (process triangular_weights concatenate_cubes self cube), Ok tt).
Proof.
  intros Hd. unfold process. rewrite Hd.
  destruct (guess_all_bounds cube (map name (coords_on cube dims)))
    as [cube1 [[]|e]]; [|discriminate].
  destruct (slices_over_count cube1 (coord self)) as [n|]; [|discriminate].
  pose proof (blend_slices_frame triangular_weights self
                (map name (coords_on cube dims)) (range n) cube1 [] []) as Hb.
  destruct (returned (blend_slices _ _ _ _ _ _ _)); cbn [returned input_after];
    [|discriminate].
  intros _. now rewrite Hb.
Qed.

End Collaborators.

End TriangularBounds.

(** X2: the sliding-window blend returns only for a cube all of whose
    coordinates on the blend dimension come without bounds, with at
    least two points, in strictly monotonic order (no two neighbouring
    points equal): for any other cube it raises. *)
Theorem triangular_process_needs_bare_coordinates
    (triangular_weights :
       Q -> String.string -> iris_cube.Cube -> String.string -> Q -> res (list Q))
    (concatenate_cubes : list iris_cube.Cube -> res iris_cube.Cube)
    (self : TriangularWeightedBlendAcrossAdjacentPoints.plugin)
    (cube result : iris_cube.Cube) (dims : list nat) :
  iris_cube.coord_dims cube (TriangularWeightedBlendAcrossAdjacentPoints.coord self)
    = Ok dims ->
  returned (TriangularWeightedBlendAcrossAdjacentPoints.process
              triangular_weights concatenate_cubes self cube) = Ok result ->
  Forall (fun c => iris_cube.bounds c = None /\
                   2 <= length (iris_cube.points c) /\
                   iris_cube.monotonic (iris_cube.points c) = true)
         (iris_cube.coords_on cube dims).
Proof.
  intros Hd Hr.
  pose proof (process_guessed triangular_weights concatenate_cubes
                self cube result dims Hd Hr) as Hg.
  apply Forall_forall. intros c Hc.
  assert (In (iris_cube.name c)
             (map iris_cube.name (iris_cube.coords_on cube dims))) as Hin
    by (apply in_map; exact Hc).
  destruct (guess_all_bounds_done dims _ cube _
              (fun nm H cd Hl => coords_on_names cube dims nm cd H Hl) Hg
              _ Hin) as (c0 & c1 & Hl & Hgb & _).
  unfold iris_cube.coords_on in Hc. apply in_map_iff in Hc.
  destruct Hc as (cd & <- & Hcd). apply filter_In in Hcd.
  destruct Hcd as (Hcd & _).
  assert (cd = (c0, dims)) as ->.
  { eapply filter_unique; [exact (lookup_filter _ _ _ Hl)|exact Hcd|].
    unfold iris_cube.named. apply String.eqb_refl. }
  exact (guess_bounds_needs _ _ Hgb).
Qed.

(** X3: the sliding-window blend leaves the guessed bounds on the cube
    it was given, so a second call on that same cube, after one that
    returned, raises: the first coordinate on the blend dimension already
    has bounds. *)
Theorem triangular_process_twice
    (triangular_weights triangular_weights' :
       Q -> String.string -> iris_cube.Cube -> String.string -> Q -> res (list Q))
    (concatenate_cubes concatenate_cubes' :
       list iris_cube.Cube -> res iris_cube.Cube)
    (self : TriangularWeightedBlendAcrossAdjacentPoints.plugin)
    (cube result : iris_cube.Cube) :
  returned (TriangularWeightedBlendAcrossAdjacentPoints.process
              triangular_weights concatenate_cubes self cube) = Ok result ->
  returned (TriangularWeightedBlendAcrossAdjacentPoints.process
              triangular_weights' concatenate_cubes' self
              (input_after (TriangularWeightedBlendAcrossAdjacentPoints.process
                              triangular_weights concatenate_cubes self cube)))
  = Raise (ValueError MsgHasBounds).
Proof.
  intros Hr.
  destruct (iris_cube.coord_dims
              cube (TriangularWeightedBlendAcrossAdjacentPoints.coord self))
    as [dims|e] eqn:Hd.
  2:{ unfold TriangularWeightedBlendAcrossAdjacentPoints.process in Hr.
      rewrite Hd in Hr. discriminate. }
  pose proof (process_guessed triangular_weights concatenate_cubes
                self cube result dims Hd Hr) as Hg.
  pose proof (triangular_process_frame triangular_weights concatenate_cubes
                self cube) as Hframe.
  rewrite Hd in Hframe.
  set (cube1 := input_after (TriangularWeightedBlendAcrossAdjacentPoints.process
                               triangular_weights concatenate_cubes self cube))
    in *.
  pose proof (fun nm H cd Hl => coords_on_names cube dims nm cd H Hl) as Hdims.
  (* the blend coordinate is one of the coordinates on its dimension *)
  unfold iris_cube.coord_dims in Hd.
  destruct (iris_cube.lookup
              cube (TriangularWeightedBlendAcrossAdjacentPoints.coord self))
    as [[c ds]|] eqn:Hl; cbn [bind] in Hd; [|discriminate].
  inversion Hd; subst ds. clear Hd.
  assert (In (c, dims) (iris_cube.coords_and_dims cube) /\
          iris_cube.named
            (TriangularWeightedBlendAcrossAdjacentPoints.coord self) (c, dims)
          = true) as (Hin & Hnamed).
  { assert (In (c, dims)
               (filter (iris_cube.named
                          (TriangularWeightedBlendAcrossAdjacentPoints.coord self))
                       (iris_cube.coords_and_dims cube))) as H
      by (rewrite (lookup_filter _ _ _ Hl); now left).
    apply filter_In in H. exact H. }
  assert (In c (iris_cube.coords_on cube dims)) as Hon.
  { unfold iris_cube.coords_on. apply in_map_iff. exists (c, dims).
    split; [reflexivity|]. apply filter_In. split; [exact Hin|].
    apply same_dims_refl. }
  apply (in_map iris_cube.name) in Hon.
  pose proof (guess_all_bounds_done dims _ cube cube1 Hdims Hg) as Hdone.
  destruct (map iris_cube.name (iris_cube.coords_on cube dims))
    as [|nm0 rest] eqn:Enames; [destruct Hon|].
  destruct (Hdone nm0 (or_introl eq_refl)) as (c0 & c1 & Hl0 & Hgb & Hl1).
  destruct (guessed_lookup _ _ _ _ _ Hframe Hl) as ([c' ds'] & Hl' & Hrel).
  destruct (unchanged_or_guessed_name _ _ _ Hrel) as (_ & _ & Hds).
  simpl in Hds. subst ds'.
  unfold TriangularWeightedBlendAcrossAdjacentPoints.process.
  unfold iris_cube.coord_dims. rewrite Hl'. cbn [bind snd].
  rewrite <- (guessed_names dims dims cube cube1 Hframe), Enames.
  cbn [TriangularWeightedBlendAcrossAdjacentPoints.guess_all_bounds].
  unfold iris_cube.coord. rewrite Hl1. cbn [bind fst].
  rewrite (guess_bounds_again _ _ Hgb). reflexivity.
Qed.

(** ** What the sliding-window blend returns *)

Section TriangularResult.

Import iris_cube.
Import TriangularWeightedBlendAcrossAdjacentPoints.

Lemma Forall2_range {A : Type} (R : nat -> A -> Prop) (n : nat) (l : list A)
    (dflt : A) :
  Forall2 R (range n) l ->
  length l = n /\ forall k, k < n -> R k (nth k l dflt).
Proof.
  unfold range. intros H. split.
  - apply Forall2_length in H. now rewrite length_seq in H.
  - assert (forall a l', Forall2 R (seq a n) l' ->
                           forall k, k < n -> R (a + k) (nth k l' dflt)) as Hgen.
    { clear. induction n as [|n IH]; intros a l H k Hk; [lia|].
      simpl in H. inversion H as [|x y xs ys Hxy Hrest]; subst.
      destruct k as [|k]; simpl.
      - now rewrite Nat.add_0_r.
      - specialize (IH (S a) ys Hrest k ltac:(lia)).
        now rewrite Nat.add_succ_r. }
    intros k Hk. exact (Hgen 0 l H k Hk).
Qed.

Lemma filter_map_index_coord (nm : string) (d k : nat)
    (l : list (Coord * list nat)) :
  filter (named nm) (map (index_coord d k) l)
  = map (index_coord d k) (filter (named nm) l).
Proof.
  induction l as [|cd l IH]; [reflexivity|].
  simpl. rewrite IH.
  assert (named nm (index_coord d k cd) = named nm cd) as ->.
  { unfold named, index_coord. now destruct (existsb _ _). }
  now destruct (named nm cd).
Qed.

Lemma lookup_index_cube (cube : Cube) (nm : string) (d k : nat)
    (cd : Coord * list nat) :
  lookup cube nm = Ok cd ->
  lookup (index_cube cube d k) nm = Ok (index_coord d k cd).
Proof.
  intros H. apply filter_lookup. simpl.
  now rewrite filter_map_index_coord, (lookup_filter _ _ _ H).
Qed.

Section Collaborators.

Variable triangular_weights :
  Q -> String.string -> Cube -> String.string -> Q -> res (list Q).
Variable concatenate_cubes : list Cube -> res Cube.

(** The loop over the slices of a cube whose blend coordinate is on
    dimension [d]: one new cube for each slice. *)
Lemma blend_slices_result (self : plugin) (names : list string) (d : nat)
    (c0 : Coord) (cube : Cube) (ks : list nat) (ws : list warning)
    (result out : list cube_ref) :
  lookup cube (coord self) = Ok (c0, [d]) ->
  returned (blend_slices triangular_weights self names ks cube ws result)
    = Ok out ->
  exists new,
    out = result ++ map Fresh new /\
    Forall2
      (fun k corrected =>
         exists weights blended,
           triangular_weights (width self) (parameter_units self) cube
                              (coord self) (nth k (points c0) 0%Q) = Ok weights /\
           returned (WeightedBlendAcrossWholeDimension.process
                       (WeightedBlendAcrossWholeDimension.mk_plugin
                          (coord self) None)
                       cube (Some weights)) = Ok (Fresh blended) /\
           correct_collapsed_coordinates
             (index_cube cube d k) cube (Fresh blended) names
           = (cube, Ok (Fresh corrected)))
      ks new.
Proof.
  intros Hl. revert ws result.
  induction ks as [|k ks IH]; intros ws result; simpl.
  - intros H. inversion H. exists []. split; [now rewrite app_nil_r|constructor].
  - unfold slice_over, coord_dims. rewrite Hl. cbn [bind snd].
    unfold iris_cube.coord at 1.
    rewrite (lookup_index_cube _ _ d k _ Hl). cbn [bind fst].
    unfold index_coord at 1. cbn [snd existsb]. rewrite Nat.eqb_refl.
    cbn [orb fst points bind].
    destruct (triangular_weights _ _ _ _ _) as [weights|] eqn:Ew; cbn [bind];
      [|discriminate].
    set (BlendingPlugin :=
           WeightedBlendAcrossWholeDimension.mk_plugin (coord self) None).
    destruct (process_frame BlendingPlugin cube (Some weights)) as (_ & Hsame).
    specialize (Hsame (or_introl eq_refl)).
    destruct (returned (WeightedBlendAcrossWholeDimension.process
                          BlendingPlugin cube (Some weights)))
      as [blended_cube|] eqn:Er; [|discriminate].
    rewrite Hsame.
    destruct blended_cube as [|blended].
    { apply process_the_input in Er; [|reflexivity]. simpl in Er.
      unfold coord_dims in Er. rewrite Hl in Er. discriminate. }
    destruct (correct_collapsed_coordinates (index_cube cube d k) cube
                (Fresh blended) names) as [cube' [r'|e]] eqn:Ec; [|discriminate].
    destruct (correct_collapsed_coordinates_ref _ _ _ _ _ _ Ec)
      as (-> & corrected & ->).
    intros H. destruct (IH _ _ H) as (new & -> & Hnew).
    exists (corrected :: new). split; [now rewrite <- app_assoc|].
    constructor; [|exact Hnew].
    exists weights, blended. auto.
Qed.

(** A run of [process] that returns, for a blend coordinate on dimension
    [d]: the cubes handed to [concatenate_cubes], one for each slice. *)
Lemma process_slices (self : plugin) (cube result : Cube) (d : nat) :
  coord_dims cube (coord self) = Ok [d] ->
  returned (process triangular_weights concatenate_cubes self cube) = Ok result ->
  let cube1 :=
    input_after (process triangular_weights concatenate_cubes self cube) in
  let names := map name (coords_on cube [d]) in
  exists c1 cubes,
    lookup cube1 (coord self) = Ok (c1, [d]) /\
    concatenate_cubes cubes = Ok result /\
    Forall2
      (fun k corrected =>
         exists weights blended,
           triangular_weights (width self) (parameter_units self) cube1
                              (coord self) (nth k (points c1) 0%Q) = Ok weights /\
           returned (WeightedBlendAcrossWholeDimension.process
                       (WeightedBlendAcrossWholeDimension.mk_plugin
                          (coord self) None)
                       cube1 (Some weights)) = Ok (Fresh blended) /\
           correct_collapsed_coordinates
             (index_cube cube1 d k) cube1 (Fresh blended) names
           = (cube1, Ok (Fresh corrected)))
      (range (nth d (shape cube) 0)) cubes.
Proof.
  intros Hd Hr cube1 names.
  pose proof (process_guessed triangular_weights concatenate_cubes
                self cube result [d] Hd Hr) as Hg.
  pose proof (triangular_process_frame triangular_weights concatenate_cubes
                self cube) as Hframe.
  rewrite Hd in Hframe. fold cube1 in Hg, Hframe. fold names in Hg.
  assert (exists c0, lookup cube (coord self) = Ok (c0, [d])) as (c0 & Hl0).
  { unfold coord_dims in Hd.
    destruct (lookup cube _) as [[c0 ds]|]; cbn [bind] in Hd; [|discriminate].
    inversion Hd; subst. eauto. }
  destruct (guessed_lookup _ _ _ _ _ Hframe Hl0) as ([c1 ds1] & Hl1 & Hrel).
  destruct (unchanged_or_guessed_name _ _ _ Hrel) as (_ & _ & Hds).
  simpl in Hds. subst ds1.
  exists c1.
  unfold process in Hr.
  rewrite Hd in Hr. fold names in Hr. rewrite Hg in Hr.
  unfold slices_over_count, coord_dims in Hr.
  rewrite Hl1 in Hr. cbn [bind snd] in Hr.
  destruct (returned (blend_slices triangular_weights self names
                        (range (nth d (shape cube1) 0)) cube1 [] []))
    as [out|] eqn:Eout; [|discriminate].
  cbn [returned input_after] in Hr.
  rewrite (blend_slices_frame triangular_weights self names _ cube1 [] []) in Hr.
  destruct (blend_slices_result self names d c1 cube1 _ _ _ _ Hl1 Eout)
    as (new & -> & Hnew).
  simpl in Hr. rewrite map_map in Hr. simpl in Hr. rewrite map_id in Hr.
  exists new.
  assert (shape cube1 = shape cube) as Hshape.
  { unfold shape. destruct Hframe as (-> & _). reflexivity. }
  rewrite Hshape in *. auto.
Qed.

End Collaborators.

End TriangularResult.

(** X4: what the sliding-window blend returns for a cube whose blend
    coordinate lies on dimension [d].  The result is the concatenation
    of as many cubes as the dimension is long.  The [k]-th of them has
    the data of the whole-dimension blend of the cube (with its guessed
    bounds) under the weights the triangular weights plugin gives for
    the [k]-th point of the blend coordinate, and the coordinates of that
    blend, those on the blend dimension corrected to the points and
    bounds they have in the [k]-th slice of the cube. *)
Theorem triangular_process_result
    (triangular_weights :
       Q -> String.string -> iris_cube.Cube -> String.string -> Q -> res (list Q))
    (concatenate_cubes : list iris_cube.Cube -> res iris_cube.Cube)
    (self : TriangularWeightedBlendAcrossAdjacentPoints.plugin)
    (cube result : iris_cube.Cube) (d : nat) :
  iris_cube.coord_dims cube (TriangularWeightedBlendAcrossAdjacentPoints.coord self)
    = Ok [d] ->
  returned (TriangularWeightedBlendAcrossAdjacentPoints.process
              triangular_weights concatenate_cubes self cube) = Ok result ->
  let cube1 :=
    input_after (TriangularWeightedBlendAcrossAdjacentPoints.process
                   triangular_weights concatenate_cubes self cube) in
  let names := map iris_cube.name (iris_cube.coords_on cube [d]) in
  exists c1 cubes,
    iris_cube.coord cube1 (TriangularWeightedBlendAcrossAdjacentPoints.coord self)
      = Ok c1 /\
    concatenate_cubes cubes = Ok result /\
    length cubes = nth d (iris_cube.shape cube) 0 /\
    forall k, k < length cubes ->
      exists weights blended,
        triangular_weights
          (TriangularWeightedBlendAcrossAdjacentPoints.width self)
          (TriangularWeightedBlendAcrossAdjacentPoints.parameter_units self)
          cube1 (TriangularWeightedBlendAcrossAdjacentPoints.coord self)
          (nth k (iris_cube.points c1) 0%Q) = Ok weights /\
        returned (WeightedBlendAcrossWholeDimension.process
                    (WeightedBlendAcrossWholeDimension.mk_plugin
                       (TriangularWeightedBlendAcrossAdjacentPoints.coord self)
                       None)
                    cube1 (Some weights)) = Ok (Fresh blended) /\
        iris_cube.data (nth k cubes cube) = iris_cube.data blended /\
        Forall2 (corrected_coord (iris_cube.index_cube cube1 d k) names)
                (iris_cube.coords_and_dims blended)
                (iris_cube.coords_and_dims (nth k cubes cube)).
Proof.
  intros Hd Hr cube1 names.
  destruct (process_slices triangular_weights concatenate_cubes self cube result d
              Hd Hr) as (c1 & cubes & Hl1 & Hcc & Hnew).
  fold cube1 in Hl1, Hnew. fold names in Hnew.
  exists c1, cubes.
  destruct (Forall2_range _ _ _ cube Hnew) as (Hlen & Hk).
  split; [unfold iris_cube.coord; now rewrite Hl1|].
  split; [exact Hcc|]. split; [exact Hlen|].
  intros k Hlt. rewrite Hlen in Hlt.
  destruct (Hk k Hlt) as (weights & blended & Hw & Hb & Hc).
  exists weights, blended. split; [exact Hw|]. split; [exact Hb|].
  exact (correct_collapsed_coordinates_deref _ _ _ _ _ _ Hc).
Qed.

(** ** What the whole-dimension blend returns *)

Section WholeResult.

Import iris_cube.
Import WeightedBlendAcrossWholeDimension.

Lemma mapM_Forall2 {A B : Type} (f : A -> res B) (l : list A) (l' : list B) :
  mapM f l = Ok l' -> Forall2 (fun a b => f a = Ok b) l l'.
Proof.
  revert l'. induction l as [|a l IH]; intros l'; simpl.
  - intros H. inversion H. constructor.
  - destruct (f a) as [b|] eqn:Ea; cbn [bind]; [|discriminate].
    destruct (mapM f l) as [bs|]; cbn [bind]; [|discriminate].
    intros H. inversion H; subst. constructor; auto.
Qed.

Lemma coord_collapsed_name (c c' : Coord) :
  coord_collapsed c = Ok c' -> name c' = name c.
Proof.
  unfold coord_collapsed.
  destruct (minimum _); cbn [bind]; [|discriminate].
  destruct (maximum _); cbn [bind]; [|discriminate].
  intros H. inversion H. reflexivity.
Qed.

(** What [Coord.collapsed()] answers, its point apart. *)
Lemma coord_collapsed_spec (c c' : Coord) :
  coord_collapsed c = Ok c' ->
  length (points c') = 1 /\
  exists lower upper,
    minimum (extent c) = Ok lower /\ maximum (extent c) = Ok upper /\
    bounds c' = Some [(lower, upper)].
Proof.
  unfold coord_collapsed. fold (extent c).
  destruct (minimum (extent c)) as [lower|]; cbn [bind]; [|discriminate].
  destruct (maximum (extent c)) as [upper|]; cbn [bind]; [|discriminate].
  intros H. inversion H. split; [reflexivity|].
  exists lower, upper. auto.
Qed.


Lemma collapsed_coord_name (d : nat) (cd cd' : Coord * list nat) :
  collapsed_coord d cd cd' -> name (fst cd') = name (fst cd).
Proof.
  intros (_ & H). destruct (existsb _ _); [|now rewrite H].
  now apply coord_collapsed_name.
Qed.

(** The cube [cube.collapsed] makes. *)
Lemma collapsed_structure (cube : Cube) (nm : string) (agg : aggregator)
    (result : Cube) :
  collapsed cube nm agg = Ok result ->
  exists d,
    coord_dims cube nm = Ok [d] /\
    shape result = remove_at d (shape cube) /\
    Forall2 (collapsed_coord d) (coords_and_dims cube) (coords_and_dims result).
Proof.
  unfold collapsed.
  destruct (coord_dims cube nm) as [[|d [|d' ds]]|]; cbn [bind]; try discriminate.
  destruct (mapM _ (coords_and_dims cube)) as [new_coords|] eqn:Em;
    cbn [bind]; [|discriminate].
  match goal with |- context [bind ?c _] => destruct c as [data_result|] end;
    cbn [bind]; [|discriminate].
  destruct (same_dims _ _) eqn:Es; [|discriminate].
  intros H. inversion H; subst result. clear H.
  exists d. split; [reflexivity|]. split; [exact (same_dims_true _ _ Es)|].
  simpl. apply mapM_Forall2 in Em.
  induction Em as [|cd cd' l l' Hcd _ IH]; constructor; [|exact IH].
  unfold collapsed_coord. cbv beta in Hcd.
  destruct (existsb (Nat.eqb d) (snd cd)).
  - destruct (coord_collapsed (fst cd)) as [c|]; cbn [bind] in Hcd;
      [|discriminate].
    inversion Hcd; subst. auto.
  - inversion Hcd; subst. auto.
Qed.

(** [blend] answers the input itself for a scalar blend coordinate, with
    the warning, and a collapsed cube otherwise. *)
Lemma blend_structure (self : plugin) (cube : Cube) (weights : option (list Q))
    (rr : cube_ref) (ws : list warning) :
  blend self cube weights = Ok (rr, ws) ->
  match rr with
  | TheInput => coord_dims cube (coord self) = Ok [] /\ ws = [ScalarCoordWarning]
  | Fresh result =>
      exists d,
        coord_dims cube (coord self) = Ok [d] /\ ws = [] /\
        shape result = remove_at d (shape cube) /\
        Forall2 (collapsed_coord d) (coords_and_dims cube) (coords_and_dims result)
  end.
Proof.
  intros Hb. destruct rr as [|result]; [exact (blend_the_input _ _ _ _ Hb)|].
  unfold blend in Hb.
  destruct (check_percentile cube) as [pc|]; cbn [bind] in Hb; [|discriminate].
  destruct (check_weights self cube weights) as [[]|]; cbn [bind] in Hb;
    [|discriminate].
  destruct (coord_dims cube (coord self)) as [[|d0 ds0]|] eqn:Ed;
    cbn [bind] in Hb; [discriminate| |discriminate].
  assert (exists agg, collapsed cube (coord self) agg = Ok result /\ ws = [])
    as (agg & Hc & ->).
  { destruct pc as [pc|].
    - repeat match type of Hb with
             | context [bind ?c _] => destruct c eqn:?; cbn [bind] in Hb
             end; try discriminate.
      inversion Hb; subst. eauto.
    - repeat match type of Hb with
             | context [bind ?c _] => destruct c eqn:?; cbn [bind] in Hb
             end; try discriminate.
      inversion Hb; subst. eauto. }
  destruct (collapsed_structure _ _ _ _ Hc) as (d & Hd & Hs & Hcs).
  exists d. rewrite Ed in Hd. inversion Hd; subst. auto.
Qed.

Lemma nth_error_replace_same {A : Type} (l : list A) (k : nat) (x y : A) :
  nth_error l k = Some y -> nth_error (replace_nth k x l) k = Some x.
Proof.
  revert k. induction l as [|a l IH]; intros k H; [destruct k; discriminate|].
  destruct k as [|k]; [reflexivity|]. simpl. now apply IH.
Qed.

Lemma nth_error_replace_other {A : Type} (l : list A) (k j : nat) (x : A) :
  j <> k -> nth_error (replace_nth k x l) j = nth_error l j.
Proof.
  revert k j. induction l as [|a l IH]; intros k j H; [now destruct k|].
  destruct k as [|k]; destruct j as [|j]; simpl; try reflexivity; try lia.
  apply IH. lia.
Qed.

Lemma adjusts_true (cube : Cube) (coord_dim : list nat) (nm : string) :
  adjusts cube coord_dim nm = true ->
  exists dims, coord_dims cube nm = Ok dims /\ same_dims dims coord_dim = true.
Proof.
  unfold adjusts. destruct (coord_dims cube nm); [eauto|discriminate].
Qed.

(** The loop of [process] over the coordinates of a cube built during
    the call: the coordinate at a position it visits, whose name names a
    coordinate of the input on [coord_dim], gets the points
    [coord_adjust] makes of that coordinate's points; nothing else
    changes. *)
Lemma adjust_coords_fresh_spec (f : list Q -> list Q) (coord_dim : list nat)
    (cube : Cube) (ks : list nat) (r : Cube) (cube' : Cube) (rr : cube_ref) :
  adjust_coords f coord_dim ks cube (Fresh r) = (cube', Ok rr) ->
  exists r',
    rr = Fresh r' /\ data r' = data r /\
    length (coords_and_dims r') = length (coords_and_dims r) /\
    forall j cd cd',
      nth_error (coords_and_dims r) j = Some cd ->
      nth_error (coords_and_dims r') j = Some cd' ->
      name (fst cd') = name (fst cd) /\ bounds (fst cd') = bounds (fst cd) /\
      snd cd' = snd cd /\
      length (points (fst cd')) = length (points (fst cd)) /\
      (In j ks -> exists dims, coord_dims cube (name (fst cd)) = Ok dims) /\
      if existsb (Nat.eqb j) ks && adjusts cube coord_dim (name (fst cd))
      then exists c, iris_cube.coord cube (name (fst cd)) = Ok c /\
                     points (fst cd') = f (points c)
      else cd' = cd.
Proof.
  revert r. induction ks as [|k ks IH]; intros r; simpl.
  - intros H. inversion H; subst. exists r. repeat split; auto.
    + congruence.
    + congruence.
    + congruence.
    + congruence.
    + intros [].
    + congruence.
  - destruct (nth_error (coords r) k) as [crd|] eqn:Ek.
    2:{ intros H. destruct (IH r H) as (r' & -> & Hd & Hlen & Hpos).
        exists r'. split; [reflexivity|]. split; [exact Hd|].
        split; [exact Hlen|].
        intros j cd cd' Hj Hj'.
        destruct (Hpos j cd cd' Hj Hj') as (Hn & Hb & Hs & Hl & Hin & Hif).
        assert (j <> k) as Hjk.
        { intros ->. unfold coords in Ek. rewrite nth_error_map, Hj in Ek.
          discriminate. }
        split; [exact Hn|]. split; [exact Hb|]. split; [exact Hs|].
        split; [exact Hl|]. split.
        - intros [E|Hin']; [congruence|auto].
        - replace (j =? k) with false by (symmetry; apply Nat.eqb_neq; lia).
          exact Hif. }
    assert (exists ds, nth_error (coords_and_dims r) k = Some (crd, ds))
      as (ds & Hk).
    { unfold coords in Ek. rewrite nth_error_map in Ek.
      destruct (nth_error (coords_and_dims r) k) as [[c0 ds]|]; [|discriminate].
      inversion Ek; subst. eauto. }
    destruct (coord_dims cube (name crd)) as [dims|] eqn:Ed; [|discriminate].
    destruct (same_dims dims coord_dim) eqn:Es.
    + destruct (iris_cube.coord cube (name crd)) as [c|] eqn:Ec; [|discriminate].
      destruct (set_points crd (f (points c))) as [crd'|] eqn:Esp;
        [|discriminate].
      intros H. destruct (IH _ H) as (r' & -> & Hd & Hlen & Hpos).
      exists r'. split; [reflexivity|]. split; [exact Hd|].
      split; [rewrite Hlen; simpl; clear; generalize (coords_and_dims r);
              intros l; revert k; induction l; intros [|k]; simpl; auto|].
      assert (crd' = mk_coord (name crd) (f (points c)) (bounds crd)) as Hcrd'.
      { unfold set_points in Esp. destruct (_ =? _); inversion Esp. reflexivity. }
      assert (length (f (points c)) = length (points crd)) as Hfl.
      { unfold set_points in Esp.
        destruct (length (f (points c)) =? length (points crd)) eqn:E;
          [now apply Nat.eqb_eq in E|discriminate]. }
      intros j cd cd' Hj Hj'.
      destruct (Nat.eq_dec j k) as [->|Hjk].
      * rewrite Hk in Hj. inversion Hj; subst cd. clear Hj.
        assert (nth_error (coords_and_dims (with_coord r k crd')) k
                = Some (crd', ds)) as Hk1.
        { simpl. rewrite (nth_error_nth _ _ _ Hk). simpl.
          eapply nth_error_replace_same; eauto. }
        destruct (Hpos k _ cd' Hk1 Hj') as (Hn & Hb & Hs & Hl & _ & Hif).
        rewrite Hcrd' in Hn, Hb, Hl, Hif. simpl in Hn, Hb, Hs, Hl, Hif.
        split; [exact Hn|]. split; [exact Hb|]. split; [exact Hs|].
        split; [simpl; congruence|].
        split; [intros _; simpl; eauto|].
        simpl. rewrite Nat.eqb_refl. simpl.
        unfold adjusts at 1. rewrite Ed, Es.
        destruct (existsb (Nat.eqb k) ks && adjusts cube coord_dim (name crd)).
        -- destruct Hif as (c' & Hc' & Hp). exists c'. auto.
        -- subst cd'. exists c. split; [exact Ec|reflexivity].
      * assert (nth_error (coords_and_dims (with_coord r k crd')) j = Some cd)
          as Hj1.
        { simpl. rewrite nth_error_replace_other by exact Hjk. exact Hj. }
        destruct (Hpos j cd cd' Hj1 Hj') as (Hn & Hb & Hs & Hl & Hin & Hif).
        split; [exact Hn|]. split; [exact Hb|]. split; [exact Hs|].
        split; [exact Hl|]. split.
        -- intros [E|Hin']; [congruence|auto].
        -- replace (j =? k) with false by (symmetry; apply Nat.eqb_neq; lia).
           exact Hif.
    + intros H. destruct (IH r H) as (r' & -> & Hd & Hlen & Hpos).
      exists r'. split; [reflexivity|]. split; [exact Hd|].
      split; [exact Hlen|].
      intros j cd cd' Hj Hj'.
      destruct (Hpos j cd cd' Hj Hj') as (Hn & Hb & Hs & Hl & Hin & Hif).
      split; [exact Hn|]. split; [exact Hb|]. split; [exact Hs|].
      split; [exact Hl|]. split.
      * intros [E|Hin']; [|auto]. subst j. rewrite Hk in Hj.
        inversion Hj; subst. simpl. eauto.
      * destruct (Nat.eq_dec j k) as [->|Hjk].
        -- rewrite Hk in Hj. inversion Hj; subst cd. simpl in *.
           unfold adjusts in *. rewrite Ed, Es in *.
           rewrite andb_false_r in *. exact Hif.
        -- replace (j =? k) with false by (symmetry; apply Nat.eqb_neq; lia).
           exact Hif.
Qed.


Lemma Forall2_compose {A B C : Type} (R : A -> B -> Prop) (T : A -> C -> Prop)
    (l : list A) (l1 : list B) (l2 : list C) :
  Forall2 R l l1 ->
  length l2 = length l1 ->
  (forall j x y z, nth_error l j = Some x -> nth_error l1 j = Some y ->
                   nth_error l2 j = Some z -> R x y -> T x z) ->
  Forall2 T l l2.
Proof.
  intros H. revert l2. induction H as [|a b l l1 Hab _ IH]; intros [|c l2] Hlen Hc;
    simpl in Hlen; try discriminate; constructor.
  - exact (Hc 0 a b c eq_refl eq_refl eq_refl Hab).
  - apply IH; [lia|]. intros j x y z Hx Hy Hz. exact (Hc (S j) x y z Hx Hy Hz).
Qed.

Lemma range_In (n j : nat) : j < n -> In j (range n).
Proof. intros H. apply in_seq. lia. Qed.

Lemma existsb_range (n j : nat) : j < n -> existsb (Nat.eqb j) (range n) = true.
Proof.
  intros H. apply existsb_exists. exists j.
  split; [now apply range_In|apply Nat.eqb_refl].
Qed.

(** The cube [process] builds, from the one [blend] builds. *)
Lemma process_fresh (self : plugin) (cube : Cube) (weights : option (list Q))
    (result : Cube) :
  returned (process self cube weights) = Ok (Fresh result) ->
  exists blended d,
    blend self cube weights = Ok (Fresh blended, []) /\
    coord_dims cube (coord self) = Ok [d] /\
    shape blended = remove_at d (shape cube) /\
    Forall2 (collapsed_coord d) (coords_and_dims cube) (coords_and_dims blended) /\
    match coord_adjust self with
    | None => result = blended
    | Some f =>
        snd (adjust_coords f [d] (range (length (coords blended))) cube
                           (Fresh blended)) = Ok (Fresh result)
    end.
Proof.
  unfold process.
  destruct (blend self cube weights) as [[rr ws]|] eqn:Eb; [|discriminate].
  pose proof (blend_structure _ _ _ _ _ Eb) as Hs.
  destruct (coord_adjust self) as [f|].
  - destruct rr as [|blended].
    + destruct Hs as (Hd & _). rewrite Hd.
      destruct (adjust_coords_input f [] (range (length (coords cube))) cube)
        as (_ & Hin & _).
      simpl deref.
      destruct (adjust_coords f [] _ cube TheInput) as [cube' r'].
      simpl in *. intros H. specialize (Hin _ H). discriminate.
    + destruct Hs as (d & Hd & -> & Hshape & Hcs). rewrite Hd. simpl deref.
      destruct (adjust_coords f [d] _ cube (Fresh blended)) as [cube' r'] eqn:Ea.
      simpl. intros ->. exists blended, d. rewrite Ea. auto.
  - simpl. intros H. inversion H; subst rr.
    destruct Hs as (d & Hd & -> & Hshape & Hcs).
    exists result, d. auto.
Qed.

End WholeResult.


(** X6: the coordinates of the cube [process] builds.  Taken in a
    suitable order they match the coordinates of the input one by one:
    a coordinate of the input that does not span the blend dimension [d]
    is kept, on the dimension it then has; one that spans [d] and no
    other dimension becomes a coordinate of the same name with one point
    and, as bounds, the least and the greatest of the numbers it
    extended over. *)
Theorem process_result_coordinates
    (self : WeightedBlendAcrossWholeDimension.plugin) (cube : iris_cube.Cube)
    (weights : option (list Q)) (result : iris_cube.Cube) :
  returned (WeightedBlendAcrossWholeDimension.process self cube weights)
    = Ok (Fresh result) ->
  exists d coords,
    iris_cube.coord_dims cube (WeightedBlendAcrossWholeDimension.coord self)
      = Ok [d] /\
    Permutation coords (iris_cube.coords_and_dims result) /\
    Forall2 (blended_coord d) (iris_cube.coords_and_dims cube) coords.
Proof.
  intros Hr.
  destruct (process_fresh self cube weights result Hr)
    as (blended & d & Hb & Hd & Hshape & Hcs & Hadj).
  exists d, (iris_cube.coords_and_dims result).
  split; [exact Hd|]. split; [apply Permutation_refl|].
  assert (forall cd cd0, collapsed_coord d cd cd0 -> blended_coord d cd cd0)
    as Hcb.
  { intros cd cd0 (Hdims & Hcoll). unfold blended_coord.
    split; [apply (collapsed_coord_name d); split; assumption|].
    split; [exact Hdims|].
    destruct (existsb (Nat.eqb d) (snd cd)); [|exact Hcoll].
    intros _. now apply coord_collapsed_spec. }
  destruct (WeightedBlendAcrossWholeDimension.coord_adjust self) as [f|].
  - destruct (WeightedBlendAcrossWholeDimension.adjust_coords f [d] _ cube _)
      as [cube' r'] eqn:Ea.
    simpl in Hadj. subst r'.
    destruct (adjust_coords_fresh_spec _ _ _ _ _ _ _ Ea)
      as (r' & Hr' & Hdata & Hlen & Hpos).
    inversion Hr'; subst r'. clear Hr'.
    apply (Forall2_compose _ _ _ _ _ Hcs Hlen).
    intros j cd cd0 cd' Hj Hj0 Hj' Hcoll0.
    pose proof (Hcb _ _ Hcoll0) as (Hname & Hdims0 & Hbl).
    destruct Hcoll0 as (Hdims & Hcoll).
    destruct (Hpos j cd0 cd' Hj0 Hj') as (Hn & Hbd & Hs & Hl & Hin & Hif).
    unfold blended_coord.
    split; [congruence|]. split; [congruence|].
    destruct (existsb (Nat.eqb d) (snd cd)) eqn:Ein.
    + intros Hspan.
      destruct (Hbl Hspan) as (Hone & lower & upper & Hlo & Hup & Hbounds).
      split; [congruence|]. exists lower, upper.
      split; [exact Hlo|]. split; [exact Hup|]. congruence.
    + assert (j < length (iris_cube.coords blended)) as Hlt.
      { unfold iris_cube.coords. rewrite length_map.
        apply nth_error_Some. congruence. }
      rewrite (existsb_range _ _ Hlt) in Hif. cbn [andb] in Hif.
      destruct (Hin (range_In _ _ Hlt)) as (dims' & Hdims').
      rewrite Hname in *.
      assert (iris_cube.lookup cube (iris_cube.name (fst cd)) = Ok cd) as Hlook.
      { unfold iris_cube.coord_dims in Hdims'.
        destruct (iris_cube.lookup cube (iris_cube.name (fst cd))) as [x|] eqn:El;
          cbn [bind] in Hdims'; [|discriminate].
        f_equal. symmetry.
        eapply filter_unique; [exact (lookup_filter _ _ _ El)| |].
        - eapply nth_error_In; eauto.
        - unfold iris_cube.named. apply String.eqb_refl. }
      unfold adjusts, iris_cube.coord_dims, iris_cube.coord in Hif.
      rewrite Hlook in Hif. cbn [bind] in Hif.
      assert (iris_cube.same_dims (snd cd) [d] = false) as Hsd.
      { destruct (iris_cube.same_dims (snd cd) [d]) eqn:E; [|reflexivity].
        apply same_dims_true in E. rewrite E in Ein. simpl in Ein.
        now rewrite Nat.eqb_refl in Ein. }
      rewrite Hsd in Hif. subst cd'. exact Hcoll.
  - subst blended.
    clear -Hcs Hcb. induction Hcs as [|cd cd' l l' Hcd _ IH];
      constructor; [now apply Hcb|exact IH].
Qed.

(** ** The arithmetic of the mean mode *)

Section MeanArithmetic.

Import iris_cube.
Import WeightedBlendAcrossWholeDimension.

Local Open Scope Q_scope.

(** The values of a cube [process] returns in mean mode. *)
Lemma mean_mode_values (self : plugin) (cube : Cube) (weights : option (list Q))
    (d : nat) (r : cube_ref) :
  percentile_coords cube = [] ->
  coord_dims cube (coord self) = Ok [d] ->
  (d < Nd.ndim (data cube))%nat ->
  returned (process self cube weights) = Ok r ->
  let w := weights_or_equal (nth d (shape cube) 0%nat) weights in
  exists result,
    r = Fresh result /\
    length w = nth d (shape cube) 0%nat /\
    shape result = remove_at d (shape cube) /\
    forall idx, Nd.valid_index (shape result) idx ->
                Nd.get (data result) idx == weighted_mean (data cube) d w idx.
Proof.
  intros Hp Hd Hlt Hr w.
  pose proof (blend_mean self cube weights d Hp Hd) as Hb.
  destruct (blend self cube weights) as [[rr ws]|e] eqn:Eb.
  2:{ unfold process in Hr. rewrite Eb in Hr. discriminate. }
  symmetry in Hb.
  destruct (check_weights self cube weights); cbn [bind] in Hb; [|discriminate].
  match type of Hb with
  | bind ?c _ = _ => destruct c as [weights_array|] eqn:Ew
  end; cbn [bind] in Hb; [|discriminate].
  destruct (collapsed cube _ _) as [result|] eqn:Ec; cbn [bind] in Hb;
    [|discriminate].
  inversion Hb; subst rr ws. clear Hb.
  destruct (broadcast_weights cube d weights weights_array Ew) as (Hw & ->).
  destruct (collapsed_mean cube _ d weights result Hd Hlt Hw Ec) as (Hs & Hv).
  destruct (process_fresh_data self cube weights result [] r Eb Hr)
    as (c & -> & Hdata).
  exists c. split; [reflexivity|]. split; [exact Hw|].
  unfold shape in *. rewrite Hdata. split; [exact Hs|].
  intros idx Hidx. apply Hv. now rewrite <- Hs.
Qed.





End MeanArithmetic.


(** ** The sliding-window mean *)

Section TriangularMean.

Import iris_cube.

Lemma guessed_percentile_coords (dims : list nat) (a b : Cube) :
  same_but_guessed_bounds dims a b ->
  percentile_coords a = [] -> percentile_coords b = [].
Proof.
  intros [_ Hc] Ha. unfold percentile_coords in *.
  assert (forall x y : Coord * list nat,
            unchanged_or_guessed dims x y ->
            is_percentile (fst x) = is_percentile (fst y)) as Hp.
  { intros x y Hxy. unfold is_percentile.
    destruct (unchanged_or_guessed_name _ _ _ Hxy) as (-> & _). reflexivity. }
  pose proof (Forall2_filter _ (fun cd => is_percentile (fst cd)) _ _ Hp Hc) as Hf.
  rewrite Ha in Hf. inversion Hf. reflexivity.
Qed.

End TriangularMean.

(** X9: the sliding-window blend of a cube without percentile
    coordinate, whose blend coordinate lies on dimension [d].  The
    result is the concatenation of as many cubes as the dimension is
    long, and every value of the [k]-th of them is the weighted mean
    along [d] of the values of the input, under the weights the
    triangular weights plugin gives for the [k]-th point of the blend
    coordinate. *)
Theorem triangular_process_mean
    (triangular_weights :
       Q -> String.string -> iris_cube.Cube -> String.string -> Q -> res (list Q))
    (concatenate_cubes : list iris_cube.Cube -> res iris_cube.Cube)
    (self : TriangularWeightedBlendAcrossAdjacentPoints.plugin)
    (cube result : iris_cube.Cube) (d : nat) :
  percentile_coords cube = [] ->
  iris_cube.coord_dims cube (TriangularWeightedBlendAcrossAdjacentPoints.coord self)
    = Ok [d] ->
  d < Nd.ndim (iris_cube.data cube) ->
  returned (TriangularWeightedBlendAcrossAdjacentPoints.process
              triangular_weights concatenate_cubes self cube) = Ok result ->
  let cube1 :=
    input_after (TriangularWeightedBlendAcrossAdjacentPoints.process
                   triangular_weights concatenate_cubes self cube) in
  exists c1 cubes,
    iris_cube.coord cube1 (TriangularWeightedBlendAcrossAdjacentPoints.coord self)
      = Ok c1 /\
    concatenate_cubes cubes = Ok result /\
    length cubes = nth d (iris_cube.shape cube) 0 /\
    forall k, k < length cubes ->
      exists weights,
        triangular_weights
          (TriangularWeightedBlendAcrossAdjacentPoints.width self)
          (TriangularWeightedBlendAcrossAdjacentPoints.parameter_units self)
          cube1 (TriangularWeightedBlendAcrossAdjacentPoints.coord self)
          (nth k (iris_cube.points c1) 0%Q) = Ok weights /\
        iris_cube.shape (nth k cubes cube) = remove_at d (iris_cube.shape cube) /\
        forall idx,
          Nd.valid_index (remove_at d (iris_cube.shape cube)) idx ->
          (Nd.get (iris_cube.data (nth k cubes cube)) idx
           == weighted_mean (iris_cube.data cube) d weights idx)%Q.
Proof.
  intros Hp Hd Hlt Hr cube1.
  destruct (process_slices triangular_weights concatenate_cubes self cube result d
              Hd Hr) as (c1 & cubes & Hl1 & Hcc & Hnew).
  pose proof (triangular_process_frame triangular_weights concatenate_cubes
                self cube) as Hframe.
  rewrite Hd in Hframe. fold cube1 in Hl1, Hnew, Hframe.
  exists c1, cubes.
  destruct (Forall2_range _ _ _ cube Hnew) as (Hlen & Hk).
  split; [unfold iris_cube.coord; now rewrite Hl1|].
  split; [exact Hcc|]. split; [exact Hlen|].
  intros k Hk'. rewrite Hlen in Hk'.
  destruct (Hk k Hk') as (weights & blended & Hw & Hb & Hc).
  exists weights. split; [exact Hw|].
  assert (iris_cube.data cube1 = iris_cube.data cube) as Hdata
    by (destruct Hframe as (H & _); exact H).
  destruct (mean_mode_values
              (WeightedBlendAcrossWholeDimension.mk_plugin
                 (TriangularWeightedBlendAcrossAdjacentPoints.coord self) None)
              cube1 (Some weights) d (Fresh blended)) as (r & Heq & _ & Hs & Hv).
  - exact (guessed_percentile_coords _ _ _ Hframe Hp).
  - unfold iris_cube.coord_dims. simpl. now rewrite Hl1.
  - now rewrite Hdata.
  - exact Hb.
  - inversion Heq; subst r. clear Heq.
    destruct (correct_collapsed_coordinates_deref _ _ _ _ _ _ Hc) as (Hcd & _).
    simpl in Hcd. unfold iris_cube.shape in *. rewrite Hcd, Hdata in *.
    split; [exact Hs|].
    intros idx Hidx. simpl in Hv. apply Hv. now rewrite Hs.
Qed.

(** ** The values of [aggregate] *)

Section AggregateIndex.

Ltac decide_ltb :=
  repeat match goal with
         | |- context [?a <? ?b] =>
             first [replace (a <? b) with true
                      by (symmetry; apply Nat.ltb_lt; lia)
                   |replace (a <? b) with false
                      by (symmetry; apply Nat.ltb_ge; lia)]
         end.

Lemma get_transpose (a : Nd.ndarray) (axes idx : list nat) :
  Nd.valid_index (map (fun ax => nth ax (Nd.shape a) 0) axes) idx ->
  Nd.get (Nd.transpose a axes) idx
  = Nd.get a (map (fun d => nth (Nd.position d axes) idx 0) (range (Nd.ndim a))).
Proof. intros H. unfold Nd.transpose. now rewrite get_tabulate. Qed.

Lemma nth_remove_at (q dest : nat) (idx : list nat) :
  nth q (remove_at dest idx) 0
  = if q <? dest then nth q idx 0 else nth (S q) idx 0.
Proof.
  unfold remove_at. destruct (q <? dest) eqn:E.
  - apply Nat.ltb_lt in E.
    destruct (Nat.lt_ge_cases q (length idx)) as [Hq|Hq].
    + rewrite app_nth1 by (rewrite length_firstn; lia).
      rewrite nth_firstn. apply Nat.ltb_lt in E. now rewrite E.
    + rewrite !nth_overflow; try lia.
      rewrite length_app, length_firstn, length_skipn. lia.
  - apply Nat.ltb_ge in E.
    destruct (Nat.le_gt_cases dest (length idx)) as [Hd|Hd].
    + rewrite app_nth2 by (rewrite length_firstn; lia).
      rewrite length_firstn, Nat.min_l by exact Hd.
      rewrite nth_skipn. f_equal. lia.
    + rewrite !nth_overflow; try lia.
      rewrite length_app, length_firstn, length_skipn. lia.
Qed.

Lemma length_remove_at_le (dest : nat) (idx : list nat) :
  dest < length idx -> length (remove_at dest idx) = length idx - 1.
Proof.
  intros H. unfold remove_at.
  rewrite length_app, length_firstn, length_skipn. lia.
Qed.

Lemma length_replace_nth {A : Type} (k : nat) (x : A) (l : list A) :
  length (replace_nth k x l) = length l.
Proof.
  revert k. induction l as [|a l IH]; intros [|k]; simpl; auto.
Qed.

Lemma nth_replace_nth (k j x : nat) (l : list nat) :
  k < length l ->
  nth j (replace_nth k x l) 0 = if j =? k then x else nth j l 0.
Proof.
  revert k j. induction l as [|a l IH]; intros k j Hk; simpl in Hk; [lia|].
  destruct k as [|k]; destruct j as [|j]; simpl; try reflexivity.
  apply IH. lia.
Qed.

(** An index into the shape with the percentile dimension put in at
    [dest]: the percentile index and the index into the rest. *)
Lemma valid_index_split (rs idx : list nat) (dest y : nat) :
  dest <= length rs ->
  Nd.valid_index (firstn dest rs ++ y :: skipn dest rs) idx ->
  nth dest idx 0 < y /\ Nd.valid_index rs (remove_at dest idx).
Proof.
  unfold Nd.valid_index. intros Hd H.
  apply Forall2_app_inv_r in H. destruct H as (i1 & i2 & H1 & H2 & ->).
  inversion H2 as [|k s i3 sh3 Hk H3]; subst.
  pose proof (Forall2_length H1) as Hl1.
  rewrite length_firstn, Nat.min_l in Hl1 by exact Hd.
  split.
  - rewrite app_nth2 by lia. rewrite Hl1, Nat.sub_diag. exact Hk.
  - rewrite <- Hl1 at 1. rewrite remove_at_app.
    rewrite <- (firstn_skipn dest rs).
    apply Forall2_app; assumption.
Qed.

(** The dimensions that are neither of two. *)
Lemma rest_dims (nd lo hi : nat) (keep : nat -> bool) :
  lo < hi -> hi < nd ->
  (forall n, keep n = false <-> n = lo \/ n = hi) ->
  filter keep (range nd)
  = seq 0 lo ++ seq (S lo) (hi - S lo) ++ seq (S hi) (nd - S hi).
Proof.
  intros Hlo Hhi Hkeep. unfold range.
  replace nd with (lo + (1 + ((hi - S lo) + (1 + (nd - S hi))))) at 1 by lia.
  rewrite !seq_app, !filter_app.
  replace (0 + lo) with lo by lia.
  replace (lo + 1) with (S lo) by lia.
  replace (S lo + (hi - S lo)) with hi by lia.
  replace (hi + 1) with (S hi) by lia.
  assert (forall a n, (forall x, a <= x < a + n -> x <> lo /\ x <> hi) ->
                      filter keep (seq a n) = seq a n) as Hall.
  { intros a n H. apply forallb_filter_id, forallb_forall. intros x Hx.
    apply in_seq in Hx. destruct (keep x) eqn:E; [reflexivity|].
    apply Hkeep in E. specialize (H x Hx). lia. }
  rewrite (Hall 0 lo) by (intros; lia).
  rewrite (Hall (S lo) (hi - S lo)) by (intros; lia).
  rewrite (Hall (S hi) (nd - S hi)) by (intros; lia).
  simpl.
  replace (keep lo) with false by (symmetry; apply Hkeep; now left).
  replace (keep hi) with false by (symmetry; apply Hkeep; now right).
  reflexivity.
Qed.

Lemma position_rest (nd lo hi d : nat) :
  lo < hi -> hi < nd -> d < nd -> d <> lo -> d <> hi ->
  Nd.position d (seq 0 lo ++ seq (S lo) (hi - S lo) ++ seq (S hi) (nd - S hi))
  = if d <? lo then d else if d <? hi then d - 1 else d - 2.
Proof.
  intros Hlo Hhi Hd H1 H2.
  destruct (d <? lo) eqn:E1.
  - apply Nat.ltb_lt in E1.
    rewrite position_app_l by (apply in_seq; lia).
    rewrite position_seq by lia. lia.
  - apply Nat.ltb_ge in E1.
    rewrite position_app_r by (rewrite in_seq; lia). rewrite length_seq.
    destruct (d <? hi) eqn:E2.
    + apply Nat.ltb_lt in E2.
      rewrite position_app_l by (apply in_seq; lia).
      rewrite position_seq by lia. lia.
    + apply Nat.ltb_ge in E2.
      rewrite position_app_r by (rewrite in_seq; lia). rewrite length_seq.
      rewrite position_seq by lia. lia.
Qed.

(** The index into the array for an index into the array with the blend
    axis and the percentile axis moved to the front. *)
Lemma front_index (nd ax pd s l : nat) (idx : list nat) :
  ax < nd -> pd < nd -> ax <> pd -> S (length idx) = nd ->
  let rest := filter (fun n => negb (existsb (Nat.eqb n) [pd; ax])) (range nd) in
  let dest := if ax <? pd then pd - 1 else pd in
  map (fun d => nth (Nd.position d (ax :: pd :: rest))
                    (s :: l :: remove_at dest idx) 0)
      (range nd)
  = replace_nth pd l (insert_at ax s idx).
Proof.
  intros Hax Hpd Hne Hlen rest dest.
  assert (forall n, negb (existsb (Nat.eqb n) [pd; ax]) = false
                    <-> n = Nat.min ax pd \/ n = Nat.max ax pd) as Hkeep.
  { intros n. simpl. rewrite negb_false_iff, orb_false_r, orb_true_iff.
    rewrite !Nat.eqb_eq. lia. }
  assert (rest = seq 0 (Nat.min ax pd)
                 ++ seq (S (Nat.min ax pd)) (Nat.max ax pd - S (Nat.min ax pd))
                 ++ seq (S (Nat.max ax pd)) (nd - S (Nat.max ax pd))) as Hrest.
  { unfold rest. apply rest_dims; [lia|lia|exact Hkeep]. }
  apply (nth_ext _ _ 0 0).
  - rewrite length_map, length_replace_nth, length_insert_at.
    unfold range. rewrite length_seq. lia.
  - intros d Hd. rewrite length_map in Hd. unfold range in Hd.
    rewrite length_seq in Hd.
    rewrite nth_map_range by exact Hd.
    rewrite nth_replace_nth by (rewrite length_insert_at; lia).
    rewrite nth_insert_at by lia.
    cbn [Nd.position].
    destruct (ax =? d) eqn:Ea.
    { apply Nat.eqb_eq in Ea. subst d.
      replace (ax =? pd) with false by (symmetry; apply Nat.eqb_neq; lia).
      rewrite Nat.ltb_irrefl, Nat.eqb_refl. reflexivity. }
    apply Nat.eqb_neq in Ea.
    destruct (pd =? d) eqn:Ep.
    { apply Nat.eqb_eq in Ep. subst d. rewrite Nat.eqb_refl. reflexivity. }
    apply Nat.eqb_neq in Ep.
    replace (d =? pd) with false by (symmetry; apply Nat.eqb_neq; lia).
    replace (d =? ax) with false by (symmetry; apply Nat.eqb_neq; lia).
    rewrite Hrest, position_rest by lia.
    cbn [nth]. rewrite nth_remove_at. unfold dest.
    destruct (Nat.lt_ge_cases ax pd) as [Hap|Hap];
      [replace (Nat.min ax pd) with ax by lia;
       replace (Nat.max ax pd) with pd by lia
      |replace (Nat.min ax pd) with pd by lia;
       replace (Nat.max ax pd) with ax by lia];
      destruct (Nat.lt_ge_cases d ax) as [Hda|Hda];
      destruct (Nat.lt_ge_cases d pd) as [Hdp|Hdp];
      try lia; decide_ltb; f_equal; lia.
Qed.

(** The index into the array for an index into the array with its first
    axis moved to [dest]. *)
Lemma back_index (n dest : nat) (idx : list nat) :
  dest <= n -> length idx = S n ->
  map (fun d => nth (Nd.position d (firstn dest (seq 1 n) ++
                                    0 :: skipn dest (seq 1 n))) idx 0)
      (range (S n))
  = nth dest idx 0 :: remove_at dest idx.
Proof.
  intros Hd Hlen.
  assert (firstn dest (seq 1 n) = seq 1 dest) as Hf.
  { replace n with (dest + (n - dest)) by lia.
    rewrite seq_app, firstn_app, length_seq, Nat.sub_diag. simpl.
    rewrite app_nil_r. apply firstn_all2. rewrite length_seq. lia. }
  assert (skipn dest (seq 1 n) = seq (S dest) (n - dest)) as Hs.
  { replace n with (dest + (n - dest)) at 1 by lia.
    rewrite seq_app, skipn_app, length_seq, Nat.sub_diag. simpl.
    rewrite skipn_all2 by (rewrite length_seq; lia). reflexivity. }
  rewrite Hf, Hs.
  apply (nth_ext _ _ 0 0).
  - rewrite length_map. unfold range. rewrite length_seq. simpl.
    rewrite length_remove_at_le by lia. lia.
  - intros d Hlt. rewrite length_map in Hlt. unfold range in Hlt.
    rewrite length_seq in Hlt.
    rewrite nth_map_range by exact Hlt.
    destruct d as [|d].
    + rewrite position_app_r by (rewrite in_seq; lia). rewrite length_seq.
      simpl. now rewrite Nat.add_0_r.
    + cbn [nth]. rewrite nth_remove_at.
      destruct (d <? dest) eqn:E; [apply Nat.ltb_lt in E|apply Nat.ltb_ge in E].
      * rewrite position_app_l by (apply in_seq; lia).
        rewrite position_seq by lia. f_equal. lia.
      * rewrite position_app_r by (rewrite in_seq; lia). rewrite length_seq.
        cbn [Nd.position]. cbn [Nat.eqb].
        rewrite position_seq by lia. f_equal. lia.
Qed.

Lemma ravel_three (W P s l : nat) (rs ridx : list nat) :
  Nd.ravel [W; P; Nd.prod rs] [s; l; Nd.ravel rs ridx]
  = Nd.ravel (W :: P :: rs) (s :: l :: ridx).
Proof. simpl. fold (Nd.prod rs). lia. Qed.

Lemma ravel_two (P l : nat) (rs ridx : list nat) :
  Nd.ravel [P; Nd.prod rs] [l; Nd.ravel rs ridx] = Nd.ravel (P :: rs) (l :: ridx).
Proof. simpl. fold (Nd.prod rs). lia. Qed.

Import PercentileBlendingAggregator.

Lemma blend_percentiles_length (perc_values : list (list Q))
    (percentiles weights r : list Q) :
  blend_percentiles perc_values percentiles weights = Ok r ->
  length r = length percentiles.
Proof.
  unfold blend_percentiles.
  destruct (mapM _ _); cbn [bind]; [|discriminate].
  apply interp_result_length.
Qed.

(** The loop over the columns: a column visited holds the blend of its
    slice, any other is as it was. *)
Lemma aggregate_loop_values (data : Nd.ndarray) (p w : list Q) (P R : nat)
    (ixs : list nat) (result r : Nd.ndarray) :
  length p = P -> Nd.shape result = [P; R] ->
  aggregate_loop data p w result ixs = Ok r ->
  Nd.shape r = [P; R] /\
  forall l i, l < P -> i < R ->
    (In i ixs ->
     exists col, blend_percentiles (Nd.slice_last data i) p w = Ok col /\
                 Nd.get r [l; i] = nth l col 0%Q) /\
    (~ In i ixs -> Nd.get r [l; i] = Nd.get result [l; i]).
Proof.
  intros Hp. revert result. induction ixs as [|i0 ixs IH]; intros result Hs; simpl.
  - intros H. inversion H; subst. split; [exact Hs|].
    intros l i _ _. split; [intros []|reflexivity].
  - destruct (blend_percentiles (Nd.slice_last data i0) p w) as [col|] eqn:Ec;
      cbn [bind]; [|discriminate].
    pose proof (blend_percentiles_length _ _ _ _ Ec) as Hlc.
    unfold Nd.set_column. rewrite Hs. cbn [nth].
    rewrite Hlc, Hp, Nat.eqb_refl. cbn [bind].
    set (result' := Nd.tabulate [P; R] _).
    intros H. destruct (IH result' eq_refl H) as (Hsr & Hv).
    split; [exact Hsr|].
    intros l i Hl Hi. destruct (Hv l i Hl Hi) as (Hin & Hout).
    assert (Nd.get result' [l; i]
            = if i =? i0 then nth l col 0%Q else Nd.get result [l; i]) as Hget.
    { unfold result'. rewrite get_tabulate; [reflexivity|].
      repeat constructor; assumption. }
    split.
    + intros [->|Hi'].
      * destruct (in_dec Nat.eq_dec i ixs) as [Hi'|Hi']; [auto|].
        exists col. split; [exact Ec|].
        rewrite (Hout Hi'), Hget, Nat.eqb_refl. reflexivity.
      * auto.
    + intros Hn. rewrite Hout by (intros Hi'; apply Hn; now right).
      rewrite Hget.
      replace (i =? i0) with false; [reflexivity|].
      symmetry. apply Nat.eqb_neq. intros ->. apply Hn. now left.
Qed.

End AggregateIndex.

Section AggregateValues.

(** The shape and the values of the array [aggregate] returns. *)
Lemma aggregate_columns (data : Nd.ndarray) (axis : Z)
    (arr_percent arr_weights : list Q) (perc_dim : nat) :
  let nd := Nd.ndim data in
  let ax := Z.to_nat (if (axis <? 0)%Z then axis + Z.of_nat nd else axis) in
  let dest := if ax <? perc_dim then perc_dim - 1 else perc_dim in
  (- Z.of_nat nd <= axis < Z.of_nat nd)%Z ->
  perc_dim < nd -> ax <> perc_dim ->
  length arr_percent = nth perc_dim (Nd.shape data) 0 -> arr_percent <> [] ->
  length arr_weights = nth ax (Nd.shape data) 0 -> arr_weights <> [] ->
  exists result,
    PercentileBlendingAggregator.aggregate
      data axis arr_percent arr_weights (Z.of_nat perc_dim) = Ok result /\
    Nd.shape result = remove_at ax (Nd.shape data) /\
    forall idx,
      Nd.valid_index (Nd.shape result) idx ->
      exists col,
        PercentileBlendingAggregator.blend_percentiles
          (blend_rows data ax perc_dim idx) arr_percent arr_weights = Ok col /\
        Nd.get result idx = nth (nth dest idx 0) col 0%Q.
Proof.
  intros nd ax dest Haxis Hpd Hne Hlp Hpne Hlw Hwne. subst nd.
  set (nd := Nd.ndim data) in *.
  assert (ax < nd) as Hax by (unfold ax; destruct (axis <? 0)%Z eqn:E;
    [apply Z.ltb_lt in E|apply Z.ltb_ge in E]; lia).
  assert ((if (axis <? 0)%Z then (axis + Z.of_nat nd)%Z else axis) = Z.of_nat ax)
    as Hz by (unfold ax; destruct (axis <? 0)%Z eqn:E;
              [apply Z.ltb_lt in E|apply Z.ltb_ge in E]; lia).
  unfold PercentileBlendingAggregator.aggregate. fold nd. rewrite Hz.
  rewrite moveaxis_front by (auto; lia). cbn [bind]. fold nd.
  set (rest := filter (fun n => negb (existsb (Nat.eqb n) [perc_dim; ax]))
                      (range nd)).
  set (data1 := Nd.transpose data (ax :: perc_dim :: rest)).
  set (rs := map (fun d => nth d (Nd.shape data) 0) rest).
  set (W := nth ax (Nd.shape data) 0) in *.
  set (P := nth perc_dim (Nd.shape data) 0) in *.
  assert (Nd.shape data1 = W :: P :: rs) as Hs1 by reflexivity.
  assert (length rs = nd - 2 /\ dest < nd - 1 /\
          firstn dest rs ++ P :: skipn dest rs = remove_at ax (Nd.shape data))
    as (Hlrs & Hdest & Hshape)
    by exact (shape_after_blend (Nd.shape data) ax perc_dim Hax Hpd Hne).
  rewrite Hs1. cbn [skipn nth].
  unfold Nd.reshape at 1. rewrite Hs1.
  assert ((Nd.prod [W; P; Nd.prod rs] =? Nd.prod (W :: P :: rs)) = true) as ->.
  { apply Nat.eqb_eq. simpl. lia. }
  cbn [bind Nd.shape last].
  set (data2 := Nd.mk_ndarray _ (Nd.data data1)).
  destruct (aggregate_loop_shape data2 arr_percent arr_weights
              (Nd.zeros [P; Nd.prod rs]) (range (Nd.prod rs)))
    as (result & Hloop & Hsr).
  { intros i _.
    destruct (slice_last_rows data2 i) as (Hrows & Hall).
    cbn [Nd.shape data2 nth] in Hrows, Hall.
    destruct (blend_percentiles_ok (Nd.slice_last data2 i) arr_percent arr_weights)
      as (col & Hcol & Hlcol).
    - rewrite Hlp. exact Hall.
    - exact Hpne.
    - rewrite Hrows, Hlw. apply Nat.le_refl.
    - intros E. rewrite E in Hrows. simpl in Hrows.
      rewrite <- Hlw in Hrows. destruct arr_weights; [congruence|discriminate].
    - exists col. split; [exact Hcol|]. simpl. congruence. }
  rewrite Hloop. cbn [bind].
  destruct (aggregate_loop_values data2 arr_percent arr_weights P (Nd.prod rs)
              (range (Nd.prod rs)) (Nd.zeros [P; Nd.prod rs]) result
              Hlp eq_refl Hloop) as (_ & Hvalues).
  unfold Nd.reshape. rewrite Hsr. cbn [Nd.zeros Nd.tabulate Nd.shape].
  assert ((Nd.prod (length arr_percent :: rs) =? Nd.prod [P; Nd.prod rs]) = true)
    as ->.
  { apply Nat.eqb_eq. rewrite Hlp. simpl. lia. }
  cbn [bind].
  set (result1 := Nd.mk_ndarray (length arr_percent :: rs) (Nd.data result)).
  assert (Nd.ndim result1 = S (length rs)) as Hnd1 by reflexivity.
  assert ((Z.of_nat ax <? Z.of_nat perc_dim)%Z = (ax <? perc_dim)) as Hcmp.
  { destruct (ax <? perc_dim) eqn:E.
    - apply Nat.ltb_lt in E. apply Z.ltb_lt. lia.
    - apply Nat.ltb_ge in E. apply Z.ltb_ge. lia. }
  rewrite Hcmp.
  assert ((if ax <? perc_dim
           then Nd.moveaxis result1 [0%Z] [(Z.of_nat perc_dim - 1)%Z]
           else Nd.moveaxis result1 [0%Z] [Z.of_nat perc_dim]) =
          Nd.moveaxis result1 [0%Z] [Z.of_nat dest]) as ->.
  { unfold dest. destruct (ax <? perc_dim) eqn:E; [|reflexivity].
    apply Nat.ltb_lt in E. do 3 f_equal. lia. }
  rewrite moveaxis_back by (rewrite Hnd1; lia).
  eexists. split; [reflexivity|].
  rewrite Hnd1. replace (S (length rs) - 1) with (length rs) by lia.
  set (axes := firstn dest (seq 1 (length rs)) ++
               0 :: skipn dest (seq 1 (length rs))).
  assert (map (fun a => nth a (Nd.shape result1) 0) axes
          = firstn dest rs ++ P :: skipn dest rs) as Hfinal.
  { unfold axes. cbn [Nd.shape result1]. rewrite map_app. cbn [map].
    change (nth 0 (length arr_percent :: rs) 0) with (length arr_percent).
    rewrite <- firstn_map, <- skipn_map, map_nth_seq_tail. now rewrite Hlp. }
  split; [change (Nd.shape (Nd.transpose result1 axes))
            with (map (fun a => nth a (Nd.shape result1) 0) axes);
          now rewrite Hfinal|].
  intros idx Hidx.
  change (Nd.shape (Nd.transpose result1 axes))
    with (map (fun a => nth a (Nd.shape result1) 0) axes) in Hidx.
  assert (length idx = S (length rs)) as Hlidx.
  { rewrite (valid_index_length _ _ Hidx), length_map. unfold axes.
    rewrite length_app. simpl. rewrite length_firstn, length_skipn, length_seq.
    lia. }
  rewrite get_transpose by exact Hidx.
  rewrite Hnd1. unfold axes. rewrite back_index by lia.
  rewrite Hfinal in Hidx.
  destruct (valid_index_split rs idx dest P ltac:(lia) Hidx) as (Hl0 & Hridx).
  set (l0 := nth dest idx 0) in *. set (ridx := remove_at dest idx) in *.
  pose proof (ravel_lt rs ridx Hridx) as Hi.
  destruct (Hvalues l0 (Nd.ravel rs ridx) Hl0 Hi) as (Hin & _).
  destruct (Hin (range_In _ _ Hi)) as (col & Hcol & Hget).
  exists col. split.
  - rewrite <- Hcol. f_equal.
    unfold blend_rows, Nd.slice_last. cbn [Nd.shape data2 nth]. fold W P.
    apply map_ext_in. intros s Hs. apply in_seq in Hs.
    apply map_ext_in. intros l Hl. apply in_seq in Hl.
    unfold Nd.get at 2. cbn [Nd.shape Nd.data data2].
    rewrite ravel_three, <- Hs1.
    change (nth (Nd.ravel (Nd.shape data1) (s :: l :: ridx)) (Nd.data data1) 0%Q)
      with (Nd.get data1 (s :: l :: ridx)).
    unfold data1. rewrite get_transpose.
    + unfold ridx, rest, dest, nd.
      rewrite front_index; [reflexivity|exact Hax|exact Hpd|exact Hne|].
      fold nd. lia.
    + change (map (fun a => nth a (Nd.shape data) 0) (ax :: perc_dim :: rest))
        with (W :: P :: rs).
      constructor; [lia|]. constructor; [lia|exact Hridx].
  - unfold Nd.get at 1. cbn [Nd.shape Nd.data result1].
    rewrite <- Hget. unfold Nd.get. rewrite Hsr.
    change (Nd.shape (Nd.zeros [P; Nd.prod rs])) with [P; Nd.prod rs].
    now rewrite ravel_two, Hlp.
Qed.

End AggregateValues.

(** X10: the values of the array [aggregate] returns.  For an input
    array, a blend axis and a percentile axis distinct from it, with as
    many percentiles as the percentile dimension is long and as many
    weights as the blend dimension is long, [aggregate] returns an array
    whose element at an index is a component of [blend_percentiles] of
    the slice through the input at that index: the rows of the slice run
    along the blend axis, its columns along the percentile axis, and the
    component is the one the index has at the percentile dimension. *)
Theorem aggregate_values (data : Nd.ndarray) (axis : Z)
    (arr_percent arr_weights : list Q) (perc_dim : nat) :
  let nd := Nd.ndim data in
  let ax := Z.to_nat (if (axis <? 0)%Z then axis + Z.of_nat nd else axis) in
  let dest := if ax <? perc_dim then perc_dim - 1 else perc_dim in
  (- Z.of_nat nd <= axis < Z.of_nat nd)%Z ->
  perc_dim < nd -> ax <> perc_dim ->
  length arr_percent = nth perc_dim (Nd.shape data) 0 -> arr_percent <> [] ->
  length arr_weights = nth ax (Nd.shape data) 0 -> arr_weights <> [] ->
  exists result,
    PercentileBlendingAggregator.aggregate
      data axis arr_percent arr_weights (Z.of_nat perc_dim) = Ok result /\
    forall idx,
      Nd.valid_index (Nd.shape result) idx ->
      exists col,
        PercentileBlendingAggregator.blend_percentiles
          (blend_rows data ax perc_dim idx) arr_percent arr_weights = Ok col /\
        Nd.get result idx = nth (nth dest idx 0) col 0%Q.
Proof.
  intros nd ax dest Haxis Hpd Hne Hlp Hpne Hlw Hwne.
  destruct (aggregate_columns data axis arr_percent arr_weights perc_dim
              Haxis Hpd Hne Hlp Hpne Hlw Hwne) as (result & Hres & _ & Hvalues).
  exists result. split; [exact Hres|].
  intros idx Hidx. exact (Hvalues idx Hidx).
Qed.

(** X11: [aggregate] and axes it cannot use.  With the blend axis made
    non-negative by adding the rank once, it raises an AxisError when
    the percentile axis or the blend axis is out of range, and a
    ValueError, for a repeated axis, when both are in range and are the
    same axis. *)
Theorem aggregate_bad_axes (data : Nd.ndarray) (axis : Z)
    (arr_percent arr_weights : list Q) (perc_dim : Z) :
  let nd := Z.of_nat (Nd.ndim data) in
  let axis' := (if axis <? 0 then axis + nd else axis)%Z in
  let normal (a : Z) := (if a <? 0 then a + nd else a)%Z in
  let in_range (a : Z) := (- nd <= a < nd)%Z in
  (~ in_range perc_dim \/ ~ in_range axis' ->
   PercentileBlendingAggregator.aggregate
     data axis arr_percent arr_weights perc_dim = Raise AxisError) /\
  (in_range perc_dim -> in_range axis' -> normal perc_dim = normal axis' ->
   PercentileBlendingAggregator.aggregate
     data axis arr_percent arr_weights perc_dim
   = Raise (ValueError MsgRepeatedAxis)).
Proof.
  intros nd axis' normal in_range.
  assert (forall a, in_range a ->
            Nd.normalize_axis_index a (Nd.ndim data)
            = Ok (Z.to_nat (normal a))) as Hin.
  { intros a Ha. unfold Nd.normalize_axis_index. fold nd.
    replace ((- nd <=? a)%Z && (a <? nd)%Z) with true; [reflexivity|].
    symmetry. apply andb_true_iff. unfold in_range in Ha.
    split; [apply Z.leb_le|apply Z.ltb_lt]; lia. }
  assert (forall a, ~ in_range a ->
            Nd.normalize_axis_index a (Nd.ndim data) = Raise AxisError) as Hout.
  { intros a Ha. unfold Nd.normalize_axis_index. fold nd.
    replace ((- nd <=? a)%Z && (a <? nd)%Z) with false; [reflexivity|].
    symmetry. apply andb_false_iff. unfold in_range in Ha.
    destruct (Z.leb_spec (- nd) a); [|now left].
    right. apply Z.ltb_ge. lia. }
  unfold PercentileBlendingAggregator.aggregate. fold nd. fold axis'.
  unfold Nd.moveaxis, Nd.normalize_axis_tuple. cbn [mapM].
  split.
  - intros [Hp|Ha].
    + now rewrite (Hout _ Hp).
    + destruct (Z_le_dec (- nd) perc_dim) as [H1|H1];
        [destruct (Z_lt_dec perc_dim nd) as [H2|H2]|].
      * rewrite (Hin perc_dim (conj H1 H2)). cbn [bind].
        now rewrite (Hout _ Ha).
      * rewrite (Hout perc_dim); [reflexivity|]. unfold in_range. lia.
      * rewrite (Hout perc_dim); [reflexivity|]. unfold in_range. lia.
  - intros Hp Ha Heq.
    rewrite (Hin _ Hp), (Hin _ Ha). cbn [bind]. rewrite Heq.
    cbn [Nd.has_duplicates existsb]. now rewrite Nat.eqb_refl.
Qed.

(** ** The percentile mode of [process] *)

Section PercentileMode.

Import iris_cube.
Import WeightedBlendAcrossWholeDimension.

Lemma replace_nth_app_l {A : Type} (k : nat) (x : A) (l l' : list A) :
  k < length l -> replace_nth k x (l ++ l') = replace_nth k x l ++ l'.
Proof.
  revert k. induction l as [|a l IH]; intros k Hk; simpl in Hk; [lia|].
  destruct k as [|k]; simpl; [reflexivity|]. f_equal. apply IH. lia.
Qed.

Lemma insert_replace_commute (pd d s l : nat) (idx : list nat) :
  pd < d -> d <= length idx ->
  insert_at d s (replace_nth pd l idx) = replace_nth pd l (insert_at d s idx).
Proof.
  intros Hpd Hd. apply (nth_ext _ _ 0 0).
  - now rewrite length_replace_nth, !length_insert_at, length_replace_nth.
  - intros j _.
    rewrite nth_insert_at by (rewrite length_replace_nth; lia).
    rewrite (nth_replace_nth pd j l (insert_at d s idx))
      by (rewrite length_insert_at; lia).
    rewrite nth_insert_at by lia.
    rewrite !nth_replace_nth by lia.
    destruct (j <? d) eqn:E1; [apply Nat.ltb_lt in E1; reflexivity|].
    apply Nat.ltb_ge in E1.
    replace (j =? pd) with false by (symmetry; apply Nat.eqb_neq; lia).
    destruct (j =? d) eqn:E2; [reflexivity|]. apply Nat.eqb_neq in E2.
    replace (j - 1 =? pd) with false by (symmetry; apply Nat.eqb_neq; lia).
    reflexivity.
Qed.

Lemma valid_replace_nth (sh idx : list nat) (pd l : nat) :
  Nd.valid_index sh idx -> l < nth pd sh 0 ->
  Nd.valid_index sh (replace_nth pd l idx).
Proof.
  unfold Nd.valid_index. intros H. revert pd.
  induction H as [|i s idx sh His Hrest IH]; intros pd Hl;
    [destruct pd; simpl in Hl; lia|].
  destruct pd as [|pd]; simpl in *; constructor; auto.
Qed.

Lemma nth_remove_at_below (pd d : nat) (sh : list nat) :
  pd < d -> nth pd (remove_at d sh) 0 = nth pd sh 0.
Proof.
  intros H. rewrite nth_remove_at.
  apply Nat.ltb_lt in H. now rewrite H.
Qed.

(** The slices of the transposed data are the slices of the data. *)
Lemma blend_rows_unrolled (a : Nd.ndarray) (d pd : nat) (idx : list nat) :
  pd < d -> d < Nd.ndim a ->
  Nd.valid_index (remove_at d (Nd.shape a)) idx ->
  blend_rows (Nd.transpose a (filter (fun y => negb (y =? d))
                                     (range (Nd.ndim a)) ++ [d]))
             (Nd.ndim a - 1) pd idx
  = blend_rows a d pd idx.
Proof.
  intros Hpd Hd Hv. unfold blend_rows.
  assert (Nd.shape (Nd.transpose a (filter (fun y => negb (y =? d))
                                           (range (Nd.ndim a)) ++ [d]))
          = remove_at d (Nd.shape a) ++ [nth d (Nd.shape a) 0]) as Hs
    by (apply transposed_shape; exact Hd).
  pose proof (length_remove_at d (Nd.shape a) Hd) as Hlr.
  pose proof (valid_index_length _ _ Hv) as Hli.
  unfold Nd.ndim in *.
  rewrite Hs.
  assert (nth (length (Nd.shape a) - 1)
              (remove_at d (Nd.shape a) ++ [nth d (Nd.shape a) 0]) 0
          = nth d (Nd.shape a) 0) as ->.
  { rewrite app_nth2 by lia.
    replace (length (Nd.shape a) - 1 - length (remove_at d (Nd.shape a)))
      with 0 by lia.
    reflexivity. }
  assert (nth pd (remove_at d (Nd.shape a) ++ [nth d (Nd.shape a) 0]) 0
          = nth pd (Nd.shape a) 0) as ->.
  { rewrite app_nth1 by lia. now apply nth_remove_at_below. }
  apply map_ext_in. intros s Hs'. apply in_seq in Hs'.
  apply map_ext_in. intros l Hl. apply in_seq in Hl.
  replace (length (Nd.shape a) - 1) with (length idx) by lia.
  rewrite insert_at_end, replace_nth_app_l by lia.
  rewrite get_transposed.
  - now rewrite insert_replace_commute by lia.
  - exact Hd.
  - lia.
  - apply valid_replace_nth; [exact Hv|].
    rewrite nth_remove_at_below by exact Hpd. lia.
Qed.

(** [aggregate] on the transposed data of a cube whose percentile
    dimension [pd] comes before the blend dimension [d]. *)
Lemma aggregate_unrolled (a : Nd.ndarray) (d pd : nat) (p w : list Q) :
  pd < d -> d < Nd.ndim a ->
  length p = nth pd (Nd.shape a) 0 -> p <> [] ->
  length w = nth d (Nd.shape a) 0 -> w <> [] ->
  exists result,
    PercentileBlendingAggregator.aggregate
      (Nd.transpose a (filter (fun y => negb (y =? d)) (range (Nd.ndim a)) ++ [d]))
      (-1)%Z p w (Z.of_nat pd) = Ok result /\
    Nd.shape result = remove_at d (Nd.shape a) /\
    forall idx,
      Nd.valid_index (remove_at d (Nd.shape a)) idx ->
      exists col,
        PercentileBlendingAggregator.blend_percentiles
          (blend_rows a d pd idx) p w = Ok col /\
        Nd.get result idx = nth (nth pd idx 0) col 0%Q.
Proof.
  intros Hpd Hd Hlp Hpne Hlw Hwne.
  set (unrolled := Nd.transpose a _).
  assert (Nd.shape unrolled = remove_at d (Nd.shape a) ++ [nth d (Nd.shape a) 0])
    as Hs by (apply transposed_shape; exact Hd).
  pose proof (length_remove_at d (Nd.shape a) Hd) as Hlr.
  assert (Nd.ndim unrolled = Nd.ndim a) as Hnd.
  { unfold Nd.ndim in *. rewrite Hs, length_app. simpl. lia. }
  assert (Z.to_nat (if (-1 <? 0)%Z then -1 + Z.of_nat (Nd.ndim unrolled) else -1)
          = Nd.ndim a - 1) as Hax.
  { change (-1 <? 0)%Z with true. cbv iota. rewrite Hnd. lia. }
  assert (nth (Nd.ndim a - 1) (Nd.shape unrolled) 0 = nth d (Nd.shape a) 0) as Hn.
  { rewrite Hs. unfold Nd.ndim in *. rewrite app_nth2 by lia.
    replace (length (Nd.shape a) - 1 - length (remove_at d (Nd.shape a)))
      with 0 by lia.
    reflexivity. }
  assert (nth pd (Nd.shape unrolled) 0 = nth pd (Nd.shape a) 0) as Hp.
  { rewrite Hs. unfold Nd.ndim in *. rewrite app_nth1 by lia.
    now apply nth_remove_at_below. }
  destruct (aggregate_columns unrolled (-1)%Z p w pd) as (result & Hr & Hshape & Hv).
  - rewrite Hnd. lia.
  - rewrite Hnd. lia.
  - rewrite Hax. lia.
  - now rewrite Hp.
  - exact Hpne.
  - now rewrite Hax, Hn.
  - exact Hwne.
  - rewrite Hax in Hshape, Hv.
    assert (remove_at (Nd.ndim a - 1) (Nd.shape unrolled)
            = remove_at d (Nd.shape a)) as Hout.
    { rewrite Hs. unfold Nd.ndim in *.
      replace (length (Nd.shape a) - 1)
        with (length (remove_at d (Nd.shape a))) by lia.
      rewrite remove_at_app. apply app_nil_r. }
    rewrite Hout in Hshape.
    exists result. split; [exact Hr|]. split; [exact Hshape|].
    intros idx Hidx. rewrite <- Hshape in Hidx.
    destruct (Hv idx Hidx) as (col & Hcol & Hget).
    exists col.
    replace (Nd.ndim a - 1 <? pd) with false in Hget
      by (symmetry; apply Nat.ltb_ge; lia).
    split; [|exact Hget].
    rewrite <- Hcol. f_equal. symmetry.
    apply blend_rows_unrolled; [exact Hpd|exact Hd|].
    now rewrite <- Hshape.
Qed.

(** The percentile branch of [blend]. *)
Lemma blend_percentile (self : plugin) (cube : Cube) (weights : option (list Q))
    (pc c : Coord) (pd d : nat) :
  percentile_coords cube = [(pc, [pd])] -> 2 <= length (points pc) ->
  lookup cube (coord self) = Ok (c, [d]) ->
  (forall w0, weights = Some w0 -> length w0 = length (points c)) ->
  blend self cube weights =
  (result <- collapsed cube (coord self)
               (Aggregator
                  (fun data axis =>
                     PercentileBlendingAggregator.aggregate
                       data axis (points pc)
                       (match weights with
                        | Some w0 => w0
                        | None => equal_weights (length (points c))
                        end)
                       (Z.of_nat pd))) ;;
   Ok (Fresh result, []))%res.
Proof.
  intros Hp Hlen Hl Hw. unfold blend.
  rewrite (check_percentile_one cube pc [pd] Hp).
  replace (length (points pc) <? 2) with false
    by (symmetry; apply Nat.ltb_ge; lia).
  cbn [bind].
  assert (check_weights self cube weights = Ok tt) as ->.
  { unfold check_weights. destruct weights as [w0|]; [|reflexivity].
    unfold iris_cube.coord. rewrite Hl. cbn [bind fst].
    rewrite (Hw w0 eq_refl), Nat.eqb_refl. reflexivity. }
  cbn [bind]. unfold coord_dims at 1. rewrite Hl. cbn [bind snd].
  unfold coord_dims. rewrite (lookup_sole cube pc [pd] Hp). cbn [bind snd].
  destruct weights as [w0|]; cbn [bind]; [reflexivity|].
  unfold iris_cube.coord. rewrite Hl. cbn [bind fst]. reflexivity.
Qed.

Lemma collapsed_coords_ok (cube : Cube) (d : nat) :
  (forall cd, In cd (coords_and_dims cube) -> In d (snd cd) ->
              exists c, coord_collapsed (fst cd) = Ok c) ->
  exists new_coords,
    mapM (fun cd : Coord * list nat =>
            if existsb (Nat.eqb d) (snd cd)
            then (c <- coord_collapsed (fst cd) ;;
                  Ok (c, drop_dim d (snd cd)))%res
            else Ok (fst cd, drop_dim d (snd cd)))
         (coords_and_dims cube) = Ok new_coords.
Proof.
  generalize (coords_and_dims cube). intros l.
  induction l as [|cd l IH]; intros Hc; simpl; [eauto|].
  destruct IH as (rest & ->); [intros; apply Hc; auto; now right|].
  destruct (existsb (Nat.eqb d) (snd cd)) eqn:E; cbn [bind]; [|eauto].
  apply existsb_exists in E. destruct E as (x & Hx & Hxd).
  apply Nat.eqb_eq in Hxd. subst x.
  destruct (Hc cd (or_introl eq_refl) Hx) as (c & ->). cbn [bind]. eauto.
Qed.

(** The data of the cube [collapsed] answers with the percentile
    aggregator. *)
Lemma collapsed_percentile (cube : Cube) (nm : string) (d pd : nat)
    (p w : list Q) :
  coord_dims cube nm = Ok [d] -> pd < d -> d < Nd.ndim (data cube) ->
  length p = nth pd (shape cube) 0 -> p <> [] ->
  length w = nth d (shape cube) 0 -> w <> [] ->
  let agg := Aggregator
               (fun data axis =>
                  PercentileBlendingAggregator.aggregate
                    data axis p w (Z.of_nat pd)) in
  (forall result,
     collapsed cube nm agg = Ok result ->
     shape result = remove_at d (shape cube) /\
     forall idx,
       Nd.valid_index (remove_at d (shape cube)) idx ->
       exists col,
         PercentileBlendingAggregator.blend_percentiles
           (blend_rows (data cube) d pd idx) p w = Ok col /\
         Nd.get (data result) idx = nth (nth pd idx 0) col 0%Q) /\
  ((forall cd, In cd (coords_and_dims cube) -> In d (snd cd) ->
               exists c, coord_collapsed (fst cd) = Ok c) ->
   exists result, collapsed cube nm agg = Ok result).
Proof.
  intros Hd Hpd Hlt Hlp Hpne Hlw Hwne agg.
  destruct (aggregate_unrolled (data cube) d pd p w Hpd Hlt Hlp Hpne Hlw Hwne)
    as (data_result & Ha & Hs & Hv).
  unfold collapsed. rewrite Hd. cbn [bind]. unfold agg. rewrite Ha. cbn [bind].
  rewrite Hs. unfold shape. rewrite same_dims_refl.
  split.
  - intros result.
    destruct (mapM _ (coords_and_dims cube)) as [new_coords|]; cbn [bind];
      [|discriminate].
    intros H. inversion H; subst result. simpl. split; [exact Hs|exact Hv].
  - intros Hc. destruct (collapsed_coords_ok cube d Hc) as (new_coords & ->).
    cbn [bind]. eauto.
Qed.

(** [aggregate] called on the last axis when that is the percentile
    axis. *)
Lemma aggregate_last_axis (a : Nd.ndarray) (p w : list Q) (pd : nat) :
  S pd = Nd.ndim a ->
  PercentileBlendingAggregator.aggregate a (-1)%Z p w (Z.of_nat pd)
  = Raise (ValueError MsgRepeatedAxis).
Proof.
  intros Hpd. unfold PercentileBlendingAggregator.aggregate.
  change (-1 <? 0)%Z with true. cbv iota.
  replace (-1 + Z.of_nat (Nd.ndim a))%Z with (Z.of_nat pd) by lia.
  unfold Nd.moveaxis, Nd.normalize_axis_tuple. cbn [mapM].
  rewrite normalize_axis_index_nat by lia. cbn [bind].
  cbn [Nd.has_duplicates existsb]. now rewrite Nat.eqb_refl.
Qed.

End PercentileMode.

(** X12: the percentile mode of [process], for a cube with one
    percentile coordinate, on dimension [pd], that comes before the
    dimension [d] of the blend coordinate, and whose coordinates are as
    long as their dimensions.  Whatever [process] returns is a new cube,
    of the shape of the input without dimension [d], whose value at an
    index is a component of [blend_percentiles] of the slice through the
    input at that index (rows along the blend dimension, columns along
    the percentile dimension) at the percentiles of the coordinate, under
    the weights given or else equal ones: the component the index has at
    the percentile dimension.  And [process] does return when no
    [coord_adjust] is configured and the coordinates on the blend
    dimension can be collapsed. *)
Theorem process_percentile_blend
    (self : WeightedBlendAcrossWholeDimension.plugin) (cube : iris_cube.Cube)
    (weights : option (list Q)) (pc c : iris_cube.Coord) (pd d : nat) :
  percentile_coords cube = [(pc, [pd])] ->
  2 <= length (iris_cube.points pc) ->
  length (iris_cube.points pc) = nth pd (iris_cube.shape cube) 0 ->
  iris_cube.lookup cube (WeightedBlendAcrossWholeDimension.coord self)
    = Ok (c, [d]) ->
  length (iris_cube.points c) = nth d (iris_cube.shape cube) 0 ->
  0 < nth d (iris_cube.shape cube) 0 ->
  pd < d -> d < Nd.ndim (iris_cube.data cube) ->
  (forall w0, weights = Some w0 -> length w0 = length (iris_cube.points c)) ->
  let w := match weights with
           | Some w0 => w0
           | None => WeightedBlendAcrossWholeDimension.equal_weights
                       (length (iris_cube.points c))
           end in
  (forall r,
     returned (WeightedBlendAcrossWholeDimension.process self cube weights)
       = Ok r ->
     exists result,
       r = Fresh result /\
       iris_cube.shape result = remove_at d (iris_cube.shape cube) /\
       forall idx,
         Nd.valid_index (iris_cube.shape result) idx ->
         exists col,
           PercentileBlendingAggregator.blend_percentiles
             (blend_rows (iris_cube.data cube) d pd idx) (iris_cube.points pc) w
           = Ok col /\
           Nd.get (iris_cube.data result) idx = nth (nth pd idx 0) col 0%Q) /\
  (WeightedBlendAcrossWholeDimension.coord_adjust self = None ->
   (forall cd, In cd (iris_cube.coords_and_dims cube) -> In d (snd cd) ->
               exists c', iris_cube.coord_collapsed (fst cd) = Ok c') ->
   exists result,
     returned (WeightedBlendAcrossWholeDimension.process self cube weights)
       = Ok (Fresh result)).
Proof.
  intros Hp Hlen Hlp Hl Hlc Hpos Hpd Hlt Hw w.
  pose proof (blend_percentile self cube weights pc c pd d Hp Hlen Hl Hw) as Hb.
  fold w in Hb.
  assert (length w = nth d (iris_cube.shape cube) 0) as Hlw.
  { unfold w. destruct weights as [w0|].
    - now rewrite (Hw w0 eq_refl).
    - unfold WeightedBlendAcrossWholeDimension.equal_weights.
      now rewrite repeat_length. }
  assert (w <> []) as Hwne by (intros E; rewrite E in Hlw; simpl in Hlw; lia).
  assert (iris_cube.points pc <> []) as Hpne
    by (intros E; rewrite E in Hlen; simpl in Hlen; lia).
  assert (iris_cube.coord_dims
            cube (WeightedBlendAcrossWholeDimension.coord self) = Ok [d]) as Hd
    by (unfold iris_cube.coord_dims; now rewrite Hl).
  destruct (collapsed_percentile cube _ d pd (iris_cube.points pc) w
              Hd Hpd Hlt Hlp Hpne Hlw Hwne) as (Hvalues & Hok).
  split.
  - intros r Hr.
    destruct (iris_cube.collapsed cube _ _) as [result0|] eqn:Ec;
      cbn [bind] in Hb.
    2:{ unfold WeightedBlendAcrossWholeDimension.process in Hr.
        rewrite Hb in Hr. discriminate. }
    destruct (process_fresh_data self cube weights result0 [] r Hb Hr)
      as (result & -> & Hdata).
    destruct (Hvalues result0 eq_refl) as (Hs & Hv).
    exists result. split; [reflexivity|].
    unfold iris_cube.shape in *. rewrite Hdata.
    split; [exact Hs|]. intros idx Hidx. apply Hv. now rewrite <- Hs.
  - intros Hadj Hc. destruct (Hok Hc) as (result & Hres).
    exists result.
    unfold WeightedBlendAcrossWholeDimension.process.
    rewrite Hb, Hres. cbn [bind]. now rewrite Hadj.
Qed.

(** X13: a cube whose percentile dimension is its last one cannot be
    blended.  For such a cube with one percentile coordinate of at least
    two points, a blend coordinate on a dimension, weights (if any) as
    many as the coordinate has points, and coordinates on the blend
    dimension that can be collapsed, [process] raises a ValueError for a
    repeated axis: the data reach [aggregate] with the blend dimension
    moved to the end, where the percentile dimension is expected. *)
Theorem process_percentile_last_dimension
    (self : WeightedBlendAcrossWholeDimension.plugin) (cube : iris_cube.Cube)
    (weights : option (list Q)) (pc c : iris_cube.Coord) (pd d : nat) :
  percentile_coords cube = [(pc, [pd])] ->
  2 <= length (iris_cube.points pc) ->
  iris_cube.lookup cube (WeightedBlendAcrossWholeDimension.coord self)
    = Ok (c, [d]) ->
  d < Nd.ndim (iris_cube.data cube) ->
  S pd = Nd.ndim (iris_cube.data cube) ->
  (forall w0, weights = Some w0 -> length w0 = length (iris_cube.points c)) ->
  (forall cd, In cd (iris_cube.coords_and_dims cube) -> In d (snd cd) ->
              exists c', iris_cube.coord_collapsed (fst cd) = Ok c') ->
  returned (WeightedBlendAcrossWholeDimension.process self cube weights)
  = Raise (ValueError MsgRepeatedAxis).
Proof.
  intros Hp Hlen Hl Hlt Hlast Hw Hc.
  pose proof (blend_percentile self cube weights pc c pd d Hp Hlen Hl Hw) as Hb.
  unfold WeightedBlendAcrossWholeDimension.process. rewrite Hb.
  unfold iris_cube.collapsed, iris_cube.coord_dims. rewrite Hl. cbn [bind snd].
  destruct (collapsed_coords_ok cube d Hc) as (new_coords & ->). cbn [bind].
  set (unrolled := Nd.transpose (iris_cube.data cube) _).
  assert (Nd.ndim unrolled = Nd.ndim (iris_cube.data cube)) as Hnd.
  { unfold unrolled, Nd.ndim. simpl. rewrite length_map, length_app.
    rewrite untouched_dims by exact Hlt. rewrite length_app, !length_seq.
    simpl. unfold Nd.ndim in Hlt. lia. }
  rewrite (aggregate_last_axis unrolled _ _ pd) by (rewrite Hnd; exact Hlast).
  reflexivity.
Qed.

(** ** Where [blend_percentiles] is defined *)

Section BlendDomain.

Import PercentileBlendingAggregator.

Lemma iadd_length (a b r : list Q) : Np.iadd a b = Ok r -> length r = length a.
Proof.
  unfold Np.iadd. destruct (length b =? length a) eqn:E.
  - apply Nat.eqb_eq in E. intros H. inversion H.
    rewrite length_map, length_combine. lia.
  - destruct b as [|b0 [|b1 b]]; try discriminate.
    intros H. inversion H. apply length_map.
Qed.

Lemma blend_row_inv (perc_values : list (list Q)) (percentiles weights : list Q)
    (i : nat) (js : list nat) (acc acc' : list Q) :
  blend_row perc_values percentiles weights i acc js = Ok acc' ->
  length acc' = length acc /\ forall j, In j js -> j < length weights.
Proof.
  revert acc. induction js as [|j js IH]; intros acc; simpl.
  - intros H. inversion H. split; [reflexivity|intros j []].
  - unfold blend_step.
    destruct (if i =? j then Ok percentiles else _) as [recalc|];
      cbn [bind]; [|discriminate].
    unfold weight_at. destruct (nth_error weights j) as [wj|] eqn:Ew;
      cbn [bind]; [|discriminate].
    destruct (Np.iadd acc (Np.scale recalc wj)) as [acc1|] eqn:Ea; cbn [bind];
      [|discriminate].
    intros H. destruct (IH _ H) as (Hlen & Hjs).
    split; [rewrite Hlen; exact (iadd_length _ _ _ Ea)|].
    intros j' [<-|Hin]; [|auto].
    apply nth_error_Some. congruence.
Qed.

Lemma combined_rows_inv (perc_values : list (list Q))
    (percentiles weights : list Q) (ixs : list nat) (cp : list (list Q)) :
  mapM (fun i => blend_row perc_values percentiles weights i
                   (Np.zeros (length percentiles))
                   (range (length perc_values))) ixs = Ok cp ->
  length cp = length ixs /\
  Forall (fun row => length row = length percentiles) cp /\
  (ixs <> [] -> length perc_values <= length weights).
Proof.
  revert cp. induction ixs as [|i ixs IH]; intros cp; simpl.
  - intros H. inversion H. repeat split; auto. congruence.
  - destruct (blend_row _ _ _ i _ _) as [row|] eqn:Er; cbn [bind];
      [|discriminate].
    destruct (mapM _ ixs) as [rows|] eqn:Em; cbn [bind]; [|discriminate].
    intros H. inversion H; subst cp.
    destruct (IH rows eq_refl) as (Hl & Hf & _).
    destruct (blend_row_inv _ _ _ _ _ _ _ Er) as (Hlr & Hjs).
    split; [simpl; now rewrite Hl|]. split.
    + constructor; [|exact Hf]. rewrite Hlr. apply repeat_length.
    + intros _. destruct (length perc_values) as [|n] eqn:En; [lia|].
      assert (n < length weights) by (apply Hjs, in_seq; lia). lia.
Qed.

(** What a run of [blend_percentiles] that returns says about its
    arguments. *)
Lemma blend_percentiles_inv (perc_values : list (list Q))
    (percentiles weights r : list Q) (L : nat) :
  Forall (fun row => length row = L) perc_values ->
  blend_percentiles perc_values percentiles weights = Ok r ->
  perc_values <> [] /\ percentiles <> [] /\ L = length percentiles /\
  length perc_values <= length weights.
Proof.
  intros Hrows. unfold blend_percentiles.
  destruct (mapM _ (range (length perc_values))) as [cp|] eqn:Em; cbn [bind];
    [|discriminate].
  intros Hi. destruct (interp_inv _ _ _ _ Hi) as (Hne & Hlen).
  rewrite !sort_length in Hlen.
  destruct (combined_rows_inv _ _ _ _ _ Em) as (Hlcp & Hcp & Hw).
  unfold range in Hlcp. rewrite length_seq in Hlcp.
  unfold Np.flatten in *.
  rewrite (length_concat_rows _ _ Hcp), (length_concat_rows _ _ Hrows), Hlcp
    in Hlen.
  assert (length (Np.sort (concat cp)) <> 0) as Hpos
    by (destruct (Np.sort (concat cp)); [congruence|discriminate]).
  rewrite sort_length, (length_concat_rows _ _ Hcp), Hlcp in Hpos.
  assert (length perc_values <> 0 /\ length percentiles <> 0) as (Hn & Hp)
    by (split; intros E; rewrite E in Hpos; lia).
  split; [intros E; rewrite E in Hn; now apply Hn|].
  split; [intros E; rewrite E in Hp; now apply Hp|].
  split; [nia|].
  apply Hw. unfold range. destruct (length perc_values); [lia|discriminate].
Qed.

End BlendDomain.

(** X14: where [blend_percentiles] is defined.  On a matrix all of whose
    rows have one length, it returns a vector exactly when the matrix
    has a row, the percentile vector is not empty and as long as the
    rows, and there is a weight for every row; in every other case it
    raises.  The vector it returns is as long as the percentile
    vector. *)
Theorem blend_percentiles_defined (perc_values : list (list Q))
    (percentiles weights : list Q) (L : nat) :
  Forall (fun row => length row = L) perc_values ->
  ((exists r,
      PercentileBlendingAggregator.blend_percentiles
        perc_values percentiles weights = Ok r) <->
   (perc_values <> [] /\ percentiles <> [] /\ L = length percentiles /\
    length perc_values <= length weights)) /\
  (forall r,
     PercentileBlendingAggregator.blend_percentiles
       perc_values percentiles weights = Ok r ->
     length r = length percentiles).
Proof.
  intros Hrows. split; [split|].
  - intros (r & Hr). exact (blend_percentiles_inv _ _ _ _ L Hrows Hr).
  - intros (Hne & Hp & HL & Hw). subst L.
    destruct (blend_percentiles_ok perc_values percentiles weights
                Hrows Hp Hw Hne) as (r & Hr & _).
    eauto.
  - intros r Hr. exact (blend_percentiles_length _ _ _ _ Hr).
Qed.

(** X15: a blend coordinate the cube does not have.  When no coordinate
    of the cube, or more than one, has the name of the blend coordinate,
    the sliding-window blend raises the error of the coordinate look-up
    and leaves the cube as it was; so does the whole-dimension blend, for
    a cube that passes its percentile check, and it issues no warning. *)
Theorem process_coordinate_not_found
    (triangular_weights :
       Q -> String.string -> iris_cube.Cube -> String.string -> Q -> res (list Q))
    (concatenate_cubes : list iris_cube.Cube -> res iris_cube.Cube)
    (coord : String.string) (cube : iris_cube.Cube) :
  length (filter (iris_cube.named coord) (iris_cube.coords_and_dims cube)) <> 1 ->
  (forall width units,
     let o := TriangularWeightedBlendAcrossAdjacentPoints.process
                triangular_weights concatenate_cubes
                (TriangularWeightedBlendAcrossAdjacentPoints.mk_plugin
                   coord width units) cube in
     returned o = Raise CoordinateNotFoundError /\ input_after o = cube) /\
  (forall coord_adjust weights perc_coord,
     WeightedBlendAcrossWholeDimension.check_percentile cube = Ok perc_coord ->
     let o := WeightedBlendAcrossWholeDimension.process
                (WeightedBlendAcrossWholeDimension.mk_plugin coord coord_adjust)
                cube weights in
     returned o = Raise CoordinateNotFoundError /\ input_after o = cube /\
     warned o = []).
Proof.
  intros Hn.
  assert (iris_cube.lookup cube coord = Raise CoordinateNotFoundError) as Hl.
  { unfold iris_cube.lookup.
    destruct (filter (iris_cube.named coord) (iris_cube.coords_and_dims cube))
      as [|x [|y l]]; try reflexivity.
    simpl in Hn. lia. }
  split.
  - intros width units o. subst o.
    unfold TriangularWeightedBlendAcrossAdjacentPoints.process,
      iris_cube.coord_dims.
    simpl. rewrite Hl. cbn [bind]. split; reflexivity.
  - intros coord_adjust weights perc_coord Hp o. subst o.
    unfold WeightedBlendAcrossWholeDimension.process,
      WeightedBlendAcrossWholeDimension.blend.
    rewrite Hp. cbn [bind].
    unfold WeightedBlendAcrossWholeDimension.check_weights,
      iris_cube.coord, iris_cube.coord_dims.
    simpl. rewrite Hl.
    destruct weights; cbn [bind]; repeat split; reflexivity.
Qed.

(** ** The blend under a change of units *)

Section Units.

Local Open Scope Q_scope.










End Units.

Section UnitsOfTheBlend.

Import PercentileBlendingAggregator.
Local Open Scope Q_scope.












End UnitsOfTheBlend.


(** ** The blend and the order of the slices *)

Section Reordering.

Import PercentileBlendingAggregator.
Local Open Scope Q_scope.
















End Reordering.

(** * The claims at sample inputs *)

Section Witnesses.

Import iris_cube.
Import PercentileBlendingAggregator.
Import WeightedBlendAcrossWholeDimension.
Import Sample.

Local Open Scope Q_scope.





Lemma blend_percentiles_within_range_witness :
  blend_percentiles two_slices levels uneven = Ok blended_two_slices /\
  Forall (fun v => q 10 <= v <= q 40) blended_two_slices.
Proof.
  split; [vm_compute; reflexivity|].
  apply (blend_percentiles_within_range two_slices levels uneven (q 10) (q 40)).
  - split; [simpl; tauto|].
    intros e He. simpl in He.
    repeat (destruct He as [<-|He]; [vm_compute; discriminate|]). contradiction.
  - split; [simpl; tauto|].
    intros e He. simpl in He.
    repeat (destruct He as [<-|He]; [vm_compute; discriminate|]). contradiction.
  - vm_compute. reflexivity.
Defined.

Lemma blend_percentiles_monotone_witness :
  blend_percentiles two_slices levels uneven = Ok blended_two_slices /\
  nondecreasing blended_two_slices.
Proof.
  split; [vm_compute; reflexivity|].
  apply (blend_percentiles_monotone two_slices levels uneven).
  - apply nondecreasingb_sound. reflexivity.
  - vm_compute. reflexivity.
Defined.

Lemma process_percentile_dimension_error_witness :
  (exists e, returned (process blend_time two_percentiles None) = Raise e /\
             PercentileDimensionError e) /\
  (exists e, returned (process blend_period one_period_one_percentile None)
             = Raise e /\ PercentileDimensionError e) /\
  blend blend_time series (Some three_weights)
  = mean_mode blend_time series (Some three_weights).
Proof.
  split; [|split].
  - apply (proj1 (process_percentile_dimension_error blend_time two_percentiles None)).
    left. vm_compute. lia.
  - apply (proj1 (process_percentile_dimension_error
                    blend_period one_period_one_percentile None)).
    right. exists percentile_scalar, []. split; [reflexivity|]. left. reflexivity.
  - apply (proj2 (process_percentile_dimension_error
                    blend_time series (Some three_weights))).
    reflexivity.
Defined.

Lemma process_weight_shape_mismatch_witness :
  returned (process blend_time series (Some halves))
  = Raise (ValueError MsgWeightsShape) /\
  (forall e, returned (process blend_time series (Some three_weights)) = Raise e ->
             ~ WeightShapeMismatch e).
Proof.
  split.
  - apply (proj1 (process_weight_shape_mismatch blend_time series halves None time
                    eq_refl eq_refl)).
    vm_compute. discriminate.
  - apply (proj2 (process_weight_shape_mismatch blend_time series three_weights
                    None time eq_refl eq_refl)).
    reflexivity.
Defined.

(** A cube with two percentile coordinates and two weights for three
    points: the percentile check raises first. *)
Lemma process_weight_shape_mismatch_counterexample :
  ~ (forall (self : plugin) (cube : Cube) (w : list Q) (c : Coord),
       iris_cube.coord cube (coord self) = Ok c ->
       length w <> length (points c) ->
       returned (process self cube (Some w)) = Raise (ValueError MsgWeightsShape)).
Proof.
  intros H.
  specialize (H blend_time two_percentiles halves time eq_refl).
  vm_compute in H. specialize (H ltac:(discriminate)). discriminate.
Qed.

Lemma process_scalar_coordinate_witness :
  warned (process blend_period one_period None) = [ScalarCoordWarning] /\
  returned (process blend_period one_period None) = Ok TheInput /\
  input_after (process blend_period one_period None) = one_period.
Proof.
  destruct (process_scalar_coordinate blend_period one_period None None
              eq_refl eq_refl eq_refl) as (Hw & _ & _ & Hnone & _).
  split; [exact Hw|]. apply Hnone. reflexivity.
Defined.

(** A cube whose blend coordinate and whose percentile coordinate are
    both scalar: [process] raises. *)
Lemma process_scalar_coordinate_counterexample :
  ~ (forall (self : plugin) (cube : Cube) (weights : option (list Q)),
       coord_dims cube (coord self) = Ok [] ->
       warned (process self cube weights) = [ScalarCoordWarning] /\
       exists r, returned (process self cube weights) = Ok r /\
                 data (deref (input_after (process self cube weights)) r)
                 = data cube).
Proof.
  intros H.
  destruct (H blend_period one_period_one_percentile None eq_refl)
    as (Hw & _).
  vm_compute in Hw. discriminate.
Qed.

Lemma process_input_frame_witness :
  input_after (process blend_time series (Some two_three_five)) = series /\
  same_but_guessed_bounds
    [0%nat] series
    (input_after (TriangularWeightedBlendAcrossAdjacentPoints.process
                    thirds first_cube blend_window series)).
Proof.
  destruct (process_input_frame thirds first_cube) as (Hwhole & Hwindow).
  split.
  - apply (Hwhole blend_time series (Some two_three_five)). left. reflexivity.
  - exact (Hwindow blend_window series).
Defined.

(** With [coord_adjust] and a scalar blend coordinate the points of the
    caller's coordinate are rewritten, and the sliding-window blend
    leaves guessed bounds on the caller's coordinate. *)
Lemma process_input_frame_counterexample :
  map points (coords one_period) = [[q 0; q 1; q 2]; [q 5]] /\
  map points
      (coords (input_after (process blend_period_adjusted one_period None)))
    = [[q 0; q 1; q 2]; [q 6]] /\
  map bounds (coords series) = [None] /\
  forall triangular_weights concatenate_cubes,
    map bounds
        (coords (input_after (TriangularWeightedBlendAcrossAdjacentPoints.process
                                triangular_weights concatenate_cubes
                                blend_window series)))
    = [bounds time_with_bounds].
Proof.
  split; [reflexivity|]. split; [vm_compute; reflexivity|].
  split; [reflexivity|].
  intros triangular_weights concatenate_cubes.
  unfold TriangularWeightedBlendAcrossAdjacentPoints.process.
  change (coord_dims series
            (TriangularWeightedBlendAcrossAdjacentPoints.coord blend_window))
    with (@Ok (list nat) [0%nat]).
  cbv iota.
  change (map name (coords_on series [0%nat])) with ["time"%string].
  replace (TriangularWeightedBlendAcrossAdjacentPoints.guess_all_bounds
             series ["time"%string])
    with (mk_cube (data series) [(time_with_bounds, [0%nat])], @Ok unit tt)
    by (vm_compute; reflexivity).
  set (cube1 := mk_cube (data series) [(time_with_bounds, [0%nat])]).
  change (slices_over_count
            cube1 (TriangularWeightedBlendAcrossAdjacentPoints.coord blend_window))
    with (@Ok nat 3%nat).
  cbv iota.
  pose proof (blend_slices_frame triangular_weights blend_window ["time"%string]
                (range 3) cube1 [] []) as Hb.
  destruct (returned (TriangularWeightedBlendAcrossAdjacentPoints.blend_slices
                        _ _ _ _ _ _ _)); cbn [input_after]; rewrite Hb;
    reflexivity.
Qed.

Lemma process_weighted_mean_witness :
  exists result,
    returned (process blend_time series (Some two_three_five)) = Ok (Fresh result) /\
    Nd.get (data result) [] == 23 # 10.
Proof.
  destruct (process_weighted_mean blend_time series (Some two_three_five) 0
              eq_refl eq_refl ltac:(vm_compute; lia)) as (Hvalue & Hreturns).
  destruct Hreturns as (result & Hres).
  - reflexivity.
  - intros c Hc. inversion Hc. reflexivity.
  - reflexivity.
  - vm_compute. discriminate.
  - intros cd [<-|[]] _. eexists. reflexivity.
  - exists result. split; [exact Hres|].
    destruct (Hvalue _ Hres) as (result' & Heq & Hshape & Hv).
    inversion Heq; subst result'.
    eapply Qeq_trans; [apply Hv; rewrite Hshape; constructor|].
    vm_compute. reflexivity.
Defined.

Lemma correct_collapsed_coordinates_corrects_witness :
  exists corrected,
    TriangularWeightedBlendAcrossAdjacentPoints.correct_collapsed_coordinates
      one_slice series (Fresh one_blend) ["time"%string]
    = (series, Ok (Fresh corrected)) /\
    map points (coords corrected) = [[q 1]] /\
    map bounds (coords corrected) = [Some [(1 # 2, 3 # 2)]].
Proof.
  destruct (correct_collapsed_coordinates_corrects
              one_slice series one_blend ["time"%string]) as (Hpost & Hret).
  destruct Hret as (corrected & Hc).
  - intros nm [<-|[]]. exists time_collapsed, [], time_of_slice.
    repeat split; reflexivity.
  - exists corrected. split; [exact Hc|].
    destruct (Hpost _ _ Hc) as (_ & corrected' & Heq & _ & Hcoords).
    inversion Heq; subst corrected'. clear Heq Hc.
    unfold coords.
    inversion Hcoords as [|cd cd' l l' Hcd Hl Hl1 Hl2]; subst.
    inversion Hl; subst.
    destruct Hcd as (_ & _ & oc & Hoc & Hp & Hb).
    inversion Hoc; subst oc. simpl. now rewrite Hp, Hb.
Defined.

Lemma triangular_process_needs_bare_coordinates_witness :
  Forall (fun c => bounds c = None /\
                   (2 <= length (points c))%nat /\
                   monotonic (points c) = true)
         (coords_on series [0%nat]).
Proof.
  destruct (returned (TriangularWeightedBlendAcrossAdjacentPoints.process
                        thirds first_cube blend_window series))
    as [result|e] eqn:E; [|vm_compute in E; discriminate].
  exact (triangular_process_needs_bare_coordinates
           thirds first_cube blend_window series result [0%nat] eq_refl E).
Defined.

Lemma triangular_process_twice_witness :
  returned (TriangularWeightedBlendAcrossAdjacentPoints.process
              thirds first_cube blend_window
              (input_after (TriangularWeightedBlendAcrossAdjacentPoints.process
                              thirds first_cube blend_window series)))
  = Raise (ValueError MsgHasBounds).
Proof.
  destruct (returned (TriangularWeightedBlendAcrossAdjacentPoints.process
                        thirds first_cube blend_window series))
    as [result|e] eqn:E; [|vm_compute in E; discriminate].
  exact (triangular_process_twice thirds thirds first_cube first_cube
           blend_window series result E).
Defined.

Lemma triangular_process_result_witness :
  exists cubes,
    length cubes = 3%nat /\
    forall k, (k < 3)%nat ->
      map points (coords (nth k cubes series))
      = [[nth k [q 0; q 1; q 2] 0]].
Proof.
  destruct (returned (TriangularWeightedBlendAcrossAdjacentPoints.process
                        thirds first_cube blend_window series))
    as [result|e] eqn:E; [|vm_compute in E; discriminate].
  destruct (triangular_process_result thirds first_cube blend_window series
              result 0 eq_refl E)
    as (c1 & cubes & Hc1 & _ & Hlen & Hcubes).
  change (length cubes = 3%nat) in Hlen.
  exists cubes. split; [exact Hlen|].
  intros k Hk. rewrite <- Hlen in Hk.
  destruct (Hcubes k Hk) as (weights & blended & Hw & Hb & _ & Hcoords).
  inversion Hw; subst weights. clear Hw.
  rewrite Hlen in Hk.
  assert (map (fun cd => name (fst cd)) (coords_and_dims blended)
          = ["time"%string]) as Hnames.
  { vm_compute in Hb. inversion Hb. reflexivity. }
  clear E Hb Hc1 Hcubes. unfold coords.
  destruct (coords_and_dims blended) as [|cd [|cd2 l]];
    try discriminate Hnames.
  inversion Hnames as [Hn].
  inversion Hcoords as [|? cd' ? l' Hcd Hl]; subst. inversion Hl; subst.
  destruct Hcd as (_ & _ & Hcd). rewrite Hn in Hcd.
  change (existsb _ _) with true in Hcd.
  destruct Hcd as (oc & Hoc & Hp & _). simpl. rewrite Hp.
  assert (k = 0 \/ k = 1 \/ k = 2)%nat as [->|[->| ->]] by lia;
    vm_compute in Hoc; inversion Hoc; reflexivity.
Defined.


Lemma process_result_coordinates_witness :
  exists result,
    returned (process blend_time_middle series None) = Ok (Fresh result) /\
    map (fun cd => (name (fst cd), length (points (fst cd)), bounds (fst cd)))
        (coords_and_dims result)
    = [("time"%string, 1%nat, Some [(q 0, q 2)])].
Proof.
  destruct (returned (process blend_time_middle series None))
    as [[|result]|e] eqn:E; try (vm_compute in E; discriminate E).
  destruct (process_result_coordinates blend_time_middle series None result E)
    as (d & l & Hd & Hperm & Hcoords).
  exists result. split; [reflexivity|].
  inversion Hd; subst d. clear E Hd.
  inversion Hcoords as [|cd cd' l0 l' Hcd Hl]; subst. inversion Hl; subst.
  apply Permutation_length_1_inv in Hperm. rewrite Hperm.
  destruct Hcd as (Hn & _ & Hcd).
  destruct (Hcd eq_refl) as (Hone & lower & upper & Hlo & Hup & Hb).
  vm_compute in Hlo, Hup. inversion Hlo; subst lower. inversion Hup; subst upper.
  cbn [map]. simpl in Hn. rewrite Hn, Hone, Hb. reflexivity.
Defined.


Lemma triangular_process_mean_witness :
  exists cubes,
    length cubes = 3%nat /\
    forall k, (k < 3)%nat -> Nd.get (data (nth k cubes series)) [] == q 2.
Proof.
  destruct (returned (TriangularWeightedBlendAcrossAdjacentPoints.process
                        thirds first_cube blend_window series))
    as [result|e] eqn:E; [|vm_compute in E; discriminate].
  destruct (triangular_process_mean thirds first_cube blend_window series
              result 0 eq_refl eq_refl ltac:(vm_compute; lia) E)
    as (c1 & cubes & _ & _ & Hlen & Hcubes).
  change (length cubes = 3%nat) in Hlen.
  exists cubes. split; [exact Hlen|].
  intros k Hk. rewrite <- Hlen in Hk.
  destruct (Hcubes k Hk) as (weights & Hw & _ & Hv).
  inversion Hw; subst weights. clear Hw E Hcubes.
  rewrite (Hv [] ltac:(constructor)). vm_compute. reflexivity.
Defined.


Lemma aggregate_values_witness :
  exists result,
    aggregate field 0 five_levels three_weights 1 = Ok result /\
    exists col,
      blend_percentiles (blend_rows field 0 1 [2; 1; 0]%nat)
                        five_levels three_weights = Ok col /\
      Nd.get result [2; 1; 0]%nat = nth 2 col 0.
Proof.
  destruct (aggregate_values field 0 five_levels three_weights 1)
    as (result & Hres & Hv).
  - vm_compute. split; [discriminate|reflexivity].
  - vm_compute. lia.
  - vm_compute. lia.
  - reflexivity.
  - discriminate.
  - reflexivity.
  - discriminate.
  - exists result. split; [exact Hres|].
    apply (Hv [2; 1; 0]%nat).
    assert (Nd.shape result = [5; 2; 2]%nat) as ->
        by (vm_compute in Hres; inversion Hres; reflexivity).
    repeat constructor.
Defined.

Lemma aggregate_bad_axes_witness :
  aggregate field 4 five_levels three_weights 1 = Raise AxisError /\
  aggregate field 0 five_levels three_weights 4 = Raise AxisError /\
  aggregate field (-3) five_levels three_weights 1
  = Raise (ValueError MsgRepeatedAxis).
Proof.
  split; [|split].
  - apply (proj1 (aggregate_bad_axes field 4 five_levels three_weights 1)).
    right. vm_compute. intros [_ H]. discriminate H.
  - apply (proj1 (aggregate_bad_axes field 0 five_levels three_weights 4)).
    left. vm_compute. intros [_ H]. discriminate H.
  - apply (proj2 (aggregate_bad_axes field (-3) five_levels three_weights 1)).
    + vm_compute. split; [discriminate|reflexivity].
    + vm_compute. split; [discriminate|reflexivity].
    + reflexivity.
Defined.

Lemma process_percentile_blend_witness :
  exists result,
    returned (process blend_time percentiles_then_time None)
    = Ok (Fresh result) /\
    shape result = [3]%nat /\
    forall l, (l < 3)%nat ->
      exists col,
        blend_percentiles [[q 1; q 2; q 5]; [q 3; q 4; q 7]]
                          [q 10; q 50; q 90] [1 # 2; 1 # 2] = Ok col /\
        Nd.get (data result) [l] = nth l col 0.
Proof.
  destruct (process_percentile_blend blend_time percentiles_then_time None
              percentile two_times 0 1) as (Hv & Hret).
  - reflexivity.
  - vm_compute. lia.
  - reflexivity.
  - reflexivity.
  - reflexivity.
  - vm_compute. lia.
  - lia.
  - vm_compute. lia.
  - discriminate.
  - destruct Hret as (result & Hres).
    + reflexivity.
    + intros cd [<-|[<-|[]]] Hd.
      * simpl in Hd. destruct Hd as [Hd|[]]. discriminate Hd.
      * eexists. reflexivity.
    + exists result. split; [exact Hres|].
      destruct (Hv _ Hres) as (result' & Heq & Hshape & Hval).
      inversion Heq; subst result'. split; [exact Hshape|].
      intros l Hl.
      destruct (Hval [l]) as (col & Hcol & Hget).
      { rewrite Hshape. constructor; [exact Hl|constructor]. }
      exists col. split; [|exact Hget].
      rewrite <- Hcol. clear.
      unfold blend_rows. vm_compute. reflexivity.
Defined.

Lemma process_percentile_last_dimension_witness :
  returned (process blend_time time_then_percentiles None)
  = Raise (ValueError MsgRepeatedAxis).
Proof.
  apply (process_percentile_last_dimension blend_time time_then_percentiles
           None percentile two_times 1 0).
  - reflexivity.
  - vm_compute. lia.
  - reflexivity.
  - vm_compute. lia.
  - reflexivity.
  - discriminate.
  - intros cd [<-|[<-|[]]] Hd.
    + eexists. reflexivity.
    + simpl in Hd. destruct Hd as [Hd|[]]. discriminate Hd.
Defined.

Lemma blend_percentiles_defined_witness :
  (exists r, blend_percentiles two_slices levels uneven = Ok r) /\
  (forall r, blend_percentiles two_slices levels [1] = Ok r -> False).
Proof.
  destruct (blend_percentiles_defined two_slices levels uneven 3)
    as (Hiff & _); [repeat constructor|].
  destruct (blend_percentiles_defined two_slices levels [1] 3)
    as (Hiff' & _); [repeat constructor|].
  split.
  - apply Hiff. repeat split; try discriminate. simpl. lia.
  - intros r Hr.
    destruct (proj1 Hiff' (ex_intro _ r Hr)) as (_ & _ & _ & Hle).
    simpl in Hle. lia.
Defined.

Lemma process_coordinate_not_found_witness :
  returned (TriangularWeightedBlendAcrossAdjacentPoints.process
              thirds first_cube
              (TriangularWeightedBlendAcrossAdjacentPoints.mk_plugin
                 "forecast_period" 1 "hours") series)
  = Raise CoordinateNotFoundError /\
  returned (process blend_period series None) = Raise CoordinateNotFoundError.
Proof.
  destruct (process_coordinate_not_found thirds first_cube
              "forecast_period" series) as (Hwindow & Hwhole).
  - vm_compute. discriminate.
  - split.
    + apply (Hwindow 1 "hours"%string).
    + apply (Hwhole None None None). reflexivity.
Defined.



End Witnesses.

(** ** The blend in doubles *)

Section Overflow.

Import PrimFloat.
Import Sample.Doubles.

Local Open Scope float_scope.

(** In doubles the slices [-2^1023, 2^1023, 1.5 * 2^1023] and
    [-1.5 * 2^1023, -1.25 * 2^1023, 2^1023], all finite, blend at the
    percentiles [25, 50, 75] with weights [0.5, 0.5] to
    [-1.5 * 2^1023, infinity, 1.5 * 2^1023].  The rows of the combined
    pdf are [37.5, 62.5, 75] and [25, 37.5, 62.5]; sorted they are
    [25, 37.5, 37.5, 62.5, 62.5, 75], over the sorted thresholds
    [-1.5, -1.25, -1, 1, 1, 1.5] * 2^1023.  The query 50 falls between
    37.5 and 62.5, where the thresholds are -2^1023 and 2^1023: their
    difference overflows, the slope is infinite, and so is the value.
    The largest entry of the input is 1.5 * 2^1023. *)
Lemma blend_percentiles_within_range_counterexample :
  forallb is_finite (Binary64.flatten wide_slices) = true /\
  forallb (fun v => v <=? 0x1.8p+1023) (Binary64.flatten wide_slices) = true /\
  Binary64.blend_percentiles wide_slices quartiles halves
  = Ok [-0x1.8p+1023; infinity; 0x1.8p+1023] /\
  (infinity <=? 0x1.8p+1023) = false.
Proof. repeat split; vm_compute; reflexivity. Qed.

(** The same blend: the percentiles [25, 50, 75] ascend and the result
    [-1.5 * 2^1023, infinity, 1.5 * 2^1023] does not, its second
    component being greater than its third. *)
Lemma blend_percentiles_monotone_counterexample :
  (25 <=? 50) && (50 <=? 75) = true /\
  exists v0 v1 v2,
    Binary64.blend_percentiles wide_slices quartiles halves = Ok [v0; v1; v2] /\
    (v1 <=? v2) = false.
Proof.
  split; [reflexivity|].
  exists (-0x1.8p+1023), infinity, 0x1.8p+1023.
  split; vm_compute; reflexivity.
Qed.

End Overflow.
